(** * StashKit: a namespaced, TTL-aware key/value store over a string backend

    Shallow embedding of [src/index.ts] and proofs of its specification.

    Modelling conventions.
    - A JavaScript number is an IEEE 754 binary64 value ([number]): the
      arithmetic of the store ([Date.now() + ttl * 1000],
      [expiresAt <= Date.now()]) rounds as the runtime does.  The two zeros
      are identified.  The clock [Date.now()] is an integer ([Z]).
    - Strings are sequences of bytes ([string]); a non-ASCII character is its
      UTF-8 encoding.
    - A call that may throw returns a [result]; a method of a mutable object
      returns the new state of the object together with its [result].
    - What the store takes from its host is an argument of the functions
      that read it: the clock ([now], the value of [Date.now()]), the global
      storage, and the conversion of a string to a number. *)

From Stdlib Require Import ZArith List String Ascii Bool Arith Lia.
From Stdlib Require Import Decimal DecimalFacts DecimalPos DecimalString DecimalZ.
From Stdlib Require Import SpecFloat.
Import ListNotations.

#[local] Open Scope list_scope.
#[local] Open Scope string_scope.
#[local] Open Scope Z_scope.

(** ** Exceptions and results *)

Inductive exn : Type :=
| TypeError
| SyntaxError
| Error (msg : string).

Inductive result (A : Type) : Type :=
| Ok (a : A)
| Throw (e : exn).

Arguments Ok {A} a.
Arguments Throw {A} e.

Definition throws {A : Type} (r : result A) : Prop :=
  exists e, r = Throw e.

(** ** Numbers

    A JavaScript Number is an IEEE 754 binary64 value.  A finite one is a
    dyadic rational: an integer, or [m / 2^e] with [m] odd.  The two zeros
    are one value here: no operation of the store tells them apart. *)

Inductive number : Type :=
| Int (z : Z)
| Frac (m : Z) (e : positive)
| Infinity (negative : bool)
| NaN.

Coercion Int : Z >-> number.

Fixpoint trailing_zeros (p : positive) : nat :=
  match p with
  | xO p' => S (trailing_zeros p')
  | _ => O
  end.

(** The number [m * 2^e], in the representation above. *)
Definition dyadic (m e : Z) : number :=
  if 0 <=? e then Int (m * 2 ^ e)
  else
    match m with
    | 0 => Int 0
    | Zpos p | Zneg p =>
        let k := Z.min (Z.of_nat (trailing_zeros p)) (- e) in
        if e + k =? 0 then Int (m / 2 ^ k)
        else Frac (m / 2 ^ k) (Z.to_pos (- (e + k)))
    end.

(** [m / 2^s] rounded to the nearest integer, ties to even. *)
Definition round_half_even (m s : Z) : Z :=
  let q := m / 2 ^ s in
  let r := m mod 2 ^ s in
  let h := 2 ^ (s - 1) in
  if r <? h then q
  else if h <? r then q + 1
  else if Z.even q then q else q + 1.

(** Rounding of the real [m * 2^e] to binary64, to nearest and ties to
    even: 53 bits of precision, no bit below [2^-1074], and infinity from
    [2^1024] on. *)
Definition round64 (m e : Z) : number :=
  let s := Z.max (Z.log2 (Z.abs m) + 1 - 53) (- 1074 - e) in
  let q := if s <=? 0 then m else round_half_even m s in
  let e' := if s <=? 0 then e else e + s in
  if q =? 0 then Int 0
  else if 1024 <=? Z.log2 (Z.abs q) + e' then Infinity (q <? 0)
  else dyadic q e'.

(** Rounding of the rational [p / q], [q > 0]: the quotient is computed to
    55 bits and more, with a last bit that records a remainder. *)
Definition round64_ratio (p q : Z) : number :=
  if p =? 0 then Int 0
  else
    let e := Z.log2 (Z.abs p) - Z.log2 q - 55 in
    let num := if e <? 0 then Z.abs p * 2 ^ (- e) else Z.abs p in
    let den := if e <? 0 then q else q * 2 ^ e in
    let sticky := if num mod den =? 0 then 0 else 1 in
    round64 (Z.sgn p * (2 * (num / den) + sticky)) (e - 1).

(** The mantissa and exponent of a finite number. *)
Definition finite (x : number) : option (Z * Z) :=
  match x with
  | Int z => Some (z, 0)
  | Frac m e => Some (m, - Z.pos e)
  | Infinity _ | NaN => None
  end.

Definition is_zero (x : number) : bool :=
  match x with Int 0 => true | _ => false end.

Definition is_negative (x : number) : bool :=
  match x with
  | Int z => z <? 0
  | Frac m _ => m <? 0
  | Infinity s => s
  | NaN => false
  end.

(** [x + y]. *)
Definition Number_add (x y : number) : number :=
  match finite x, finite y with
  | Some (mx, ex), Some (my, ey) =>
      let e := Z.min ex ey in
      round64 (mx * 2 ^ (ex - e) + my * 2 ^ (ey - e)) e
  | _, _ =>
      match x, y with
      | NaN, _ | _, NaN => NaN
      | Infinity a, Infinity b => if Bool.eqb a b then Infinity a else NaN
      | Infinity a, _ | _, Infinity a => Infinity a
      | _, _ => NaN
      end
  end.

(** [x * y]. *)
Definition Number_mul (x y : number) : number :=
  match finite x, finite y with
  | Some (mx, ex), Some (my, ey) => round64 (mx * my) (ex + ey)
  | _, _ =>
      match x, y with
      | NaN, _ | _, NaN => NaN
      | _, _ =>
          if is_zero x || is_zero y then NaN
          else Infinity (xorb (is_negative x) (is_negative y))
      end
  end.

(** The order of two numbers; [NaN] is not ordered. *)
Definition Number_compare (x y : number) : option comparison :=
  match finite x, finite y with
  | Some (mx, ex), Some (my, ey) =>
      let e := Z.min ex ey in
      Some (mx * 2 ^ (ex - e) ?= my * 2 ^ (ey - e))
  | _, _ =>
      match x, y with
      | NaN, _ | _, NaN => None
      | Infinity a, Infinity b =>
          Some (if Bool.eqb a b then Eq else if a then Lt else Gt)
      | Infinity a, _ => Some (if a then Lt else Gt)
      | _, Infinity b => Some (if b then Gt else Lt)
      | _, _ => None
      end
  end.

(** [x < y] and [x <= y]. *)
Definition Number_lt (x y : number) : bool :=
  match Number_compare x y with Some Lt => true | _ => false end.

Definition Number_le (x y : number) : bool :=
  match Number_compare x y with Some Lt | Some Eq => true | _ => false end.

(** ToBoolean of a number: false on zero and [NaN]. *)
Definition Number_truthy (x : number) : bool :=
  match x with
  | Int z => negb (z =? 0)
  | NaN => false
  | Frac _ _ | Infinity _ => true
  end.

(** The same number in the Standard Library's specification of binary64
    ([SpecFloat], with a precision of 53 bits and [emax = 1024]), and
    whether a value of the library is a given number, the zeros
    identified.  The arithmetic above is compared with the library's in the
    examples at the end. *)
Definition to_SpecFloat (x : number) : spec_float :=
  match x with
  | Int z => binary_normalize 53 1024 z 0 false
  | Frac m e => binary_normalize 53 1024 m (- Z.pos e) false
  | Infinity s => S754_infinity s
  | NaN => S754_nan
  end.

Definition agrees (x : number) (f : spec_float) : bool :=
  match x, f with
  | NaN, S754_nan => true
  | _, _ => SFeqb f (to_SpecFloat x)
  end.

(** *** The text of a number *)

(** The decimal digits of an integer. *)
Definition integer_to_string (z : Z) : string :=
  NilEmpty.string_of_int (Z.to_int z).

(** [p / q * 10^k]. *)
Definition scale10 (p q k : Z) : Z * Z :=
  if 0 <=? k then (p * 10 ^ k, q) else (p, q * 10 ^ (- k)).

(** The [n] with [10^(n-1) <= p / q < 10^n], from an estimate of it. *)
Fixpoint magnitude (fuel : nat) (p q n : Z) : Z :=
  match fuel with
  | O => n
  | S fuel' =>
      let (a, b) := scale10 p q (1 - n) in
      if a <? b then magnitude fuel' p q (n - 1)
      else if 10 * b <=? a then magnitude fuel' p q (n + 1)
      else n
  end.

Definition number_eqb (x y : number) : bool :=
  match x, y with
  | Int a, Int b => a =? b
  | Frac a e, Frac b f => (a =? b) && Pos.eqb e f
  | Infinity a, Infinity b => Bool.eqb a b
  | _, _ => false
  end.

(** Whether the decimal [s * 10^(n-k)] is read back as [x]. *)
Definition reads_as (x : number) (s n k : Z) : bool :=
  let (a, b) := scale10 s 1 (n - k) in number_eqb (round64_ratio a b) x.

(** The [k]-digit decimal nearest to [p / q] that is read back as [x], if
    there is one. *)
Definition digits_of_length (x : number) (p q n k : Z) : option Z :=
  let (a, b) := scale10 p q (k - n) in
  let lo := a / b in
  let hi := lo + 1 in
  match reads_as x lo n k, reads_as x hi n k with
  | true, true =>
      match 2 * (a - lo * b) ?= b with
      | Lt => Some lo
      | Gt => Some hi
      | Eq => Some (if Z.even lo then lo else hi)
      end
  | true, false => Some lo
  | false, true => Some hi
  | false, false => None
  end.

(** The shortest such decimal: its digits and their number. *)
Fixpoint shortest_digits (fuel : nat) (x : number) (p q n k : Z) : Z * Z :=
  match fuel with
  | O => (fst (scale10 p q (k - n)) / snd (scale10 p q (k - n)), k)
  | S fuel' =>
      match digits_of_length x p q n k with
      | Some s => (s, k)
      | None => shortest_digits fuel' x p q n (k + 1)
      end
  end.

Fixpoint zeros (n : nat) : string :=
  match n with
  | O => EmptyString
  | S n' => String "0" (zeros n')
  end.

Fixpoint strip_zeros (fuel : nat) (s : Z) : Z :=
  match fuel with
  | O => s
  | S fuel' => if s mod 10 =? 0 then strip_zeros fuel' (s / 10) else s
  end.

(** Number::toString on a positive finite number [p / q], from the digits
    [s] and the exponent [n] of its shortest decimal [0.s * 10^n]. *)
Definition positive_to_string (x : number) (p q : Z) : string :=
  let n0 := magnitude 8 p q ((Z.log2 p - Z.log2 q) * 30103 / 100000 + 1) in
  let (s0, k0) := shortest_digits 17 x p q n0 1 in
  let s := strip_zeros 18 s0 in
  let ds := integer_to_string s in
  let k := Z.of_nat (String.length ds) in
  let n := n0 + (Z.of_nat (String.length (integer_to_string s0)) - k0) in
  if (k <=? n) && (n <=? 21) then ds ++ zeros (Z.to_nat (n - k))
  else if (0 <? n) && (n <=? 21)
  then substring 0 (Z.to_nat n) ds ++ "."
       ++ substring (Z.to_nat n) (Z.to_nat (k - n)) ds
  else if (- 6 <? n) && (n <=? 0)
  then "0." ++ zeros (Z.to_nat (- n)) ++ ds
  else
    let e := n - 1 in
    let es := (if e <? 0 then "-" else "+") ++ integer_to_string (Z.abs e) in
    if k =? 1 then ds ++ "e" ++ es
    else substring 0 1 ds ++ "." ++ substring 1 (Z.to_nat (k - 1)) ds
         ++ "e" ++ es.

(** Number::toString.  An integer is printed by its digits, which is what
    the runtime prints for an integer up to [2^53]; beyond, the runtime
    prints the shortest decimal that reads back as the number, and turns to
    the exponent notation from [10^21] on. *)
Definition number_to_string (x : number) : string :=
  match x with
  | Int z => integer_to_string z
  | Frac m e =>
      (if m <? 0 then "-" else EmptyString)
      ++ positive_to_string (Frac (Z.abs m) e) (Z.abs m) (2 ^ Z.pos e)
  | Infinity s => if s then "-Infinity" else "Infinity"
  | NaN => "NaN"
  end.

(** ** JavaScript values

    The values a store can be handed, a deserializer can return and [get] can
    answer.  Objects and arrays are finite trees (no cycles, no functions);
    an object is the list of its own properties in insertion order. *)

#[local] Set Warnings "-register-all".

Inductive value : Type :=
| VUndefined
| VNull
| VBool (b : bool)
| VNum (x : number)
| VBigInt (n : Z)
| VStr (s : string)
| VArr (elems : list value)
| VObj (props : list (string * value)).

Section value_induction.
Variable P : value -> Prop.
Hypothesis HUndefined : P VUndefined.
Hypothesis HNull : P VNull.
Hypothesis HBool : forall b, P (VBool b).
Hypothesis HNum : forall n, P (VNum n).
Hypothesis HBigInt : forall n, P (VBigInt n).
Hypothesis HStr : forall s, P (VStr s).
Hypothesis HArr : forall l, Forall P l -> P (VArr l).
Hypothesis HObj : forall l, Forall (fun kv => P (snd kv)) l -> P (VObj l).

Fixpoint value_ind_deep (v : value) : P v :=
  match v with
  | VUndefined => HUndefined
  | VNull => HNull
  | VBool b => HBool b
  | VNum n => HNum n
  | VBigInt n => HBigInt n
  | VStr s => HStr s
  | VArr l =>
      HArr l ((fix go (l : list value) : Forall P l :=
                 match l with
                 | [] => Forall_nil P
                 | x :: xs => Forall_cons x (value_ind_deep x) (go xs)
                 end) l)
  | VObj l =>
      HObj l ((fix go (l : list (string * value))
                 : Forall (fun kv => P (snd kv)) l :=
                 match l with
                 | [] => Forall_nil _
                 | kv :: xs =>
                     Forall_cons kv (value_ind_deep (snd kv)) (go xs)
                 end) l)
  end.
End value_induction.

(** [!v] is [negb (truthy v)]: the falsy values are [undefined], [null],
    [false], [0], [NaN], [0n] and the empty string. *)
Definition truthy (v : value) : bool :=
  match v with
  | VUndefined | VNull => false
  | VBool b => b
  | VNum x => Number_truthy x
  | VBigInt n => negb (n =? 0)
  | VStr s => negb (String.eqb s EmptyString)
  | VArr _ | VObj _ => true
  end.

(** ** Insertion-ordered tables

    A JavaScript object, [Map] and [Set] enumerate in insertion order and hold
    a key once.  Writing a key that is present replaces its value in place;
    writing a new key appends it. *)

Fixpoint assoc_get {A : Type} (k : string) (l : list (string * A)) : option A :=
  match l with
  | [] => None
  | (k', a) :: l' => if String.eqb k k' then Some a else assoc_get k l'
  end.

Fixpoint assoc_set {A : Type} (k : string) (a : A) (l : list (string * A))
  : list (string * A) :=
  match l with
  | [] => [(k, a)]
  | (k', a') :: l' =>
      if String.eqb k k' then (k', a) :: l' else (k', a') :: assoc_set k a l'
  end.

Definition assoc_remove {A : Type} (k : string) (l : list (string * A))
  : list (string * A) :=
  filter (fun kv => negb (String.eqb k (fst kv))) l.

Definition has_key {A : Type} (k : string) (l : list (string * A)) : bool :=
  match assoc_get k l with Some _ => true | None => false end.

(** [o.name] for a non-nullish [o] and a property name that no prototype
    defines (the store reads [value] and [expiresAt] only): an own property
    of an object, [undefined] otherwise. *)
Definition get_prop (o : value) (name : string) : value :=
  match o with
  | VObj props =>
      match assoc_get name props with
      | Some v => v
      | None => VUndefined
      end
  | _ => VUndefined
  end.

(** [o.name = v] on an object. *)
Definition set_prop (o : value) (name : string) (v : value) : value :=
  match o with
  | VObj props => VObj (assoc_set name v props)
  | _ => o
  end.

(** [Set<string>]: [add] and [delete]. *)
Definition set_add (k : string) (s : list string) : list string :=
  if existsb (String.eqb k) s then s else (s ++ [k])%list.

Definition set_delete (k : string) (s : list string) : list string :=
  filter (fun k' => negb (String.eqb k k')) s.

(** ** The runtime's JSON codec

    [JSON.stringify] and [JSON.parse] are the default serializer and
    deserializer of a store.  They belong to the JavaScript runtime, not to
    the repository; this module models them on the values above.

    [stringify] follows SerializeJSONProperty: [undefined] has no text (it is
    dropped from an object and printed as [null] in an array), a BigInt makes
    it throw a TypeError, an infinite number and [NaN] are printed as
    [null].  [parse] is a recursive-descent reader of the JSON grammar.  An
    integer is printed and read digit by digit, where the runtime rounds
    one beyond 2^53 to a binary64 value.  Outside the modelled fragment, and
    rejected by [parse]: [\u] escapes of non-ASCII characters. *)

Module JSON.

Definition dquote : ascii := "034"%char.

(** The hexadecimal digit of [n < 16], in lower case as [stringify] prints
    it, and the value of a digit of either case. *)
Definition hex_digit (n : nat) : ascii :=
  ascii_of_nat (if (n <? 10)%nat then 48 + n else 87 + n)%nat.

Definition hex_value (c : ascii) : option nat :=
  let n := nat_of_ascii c in
  if ((48 <=? n) && (n <=? 57))%nat then Some (n - 48)%nat
  else if ((97 <=? n) && (n <=? 102))%nat then Some (n - 87)%nat
  else if ((65 <=? n) && (n <=? 70))%nat then Some (n - 55)%nat
  else None.

(** *** Printing *)

(** The text of a number: [null] for one that is not finite. *)
Definition number_text (x : number) : string :=
  match x with
  | Infinity _ | NaN => "null"
  | Int _ | Frac _ _ => number_to_string x
  end.

(** QuoteJSONString, one character at a time. *)
Definition quote_char (c : ascii) : string :=
  if Ascii.eqb c dquote then String "\" (String dquote EmptyString)
  else if Ascii.eqb c "\" then "\\"
  else
    match nat_of_ascii c with
    | 8%nat => "\b"
    | 9%nat => "\t"
    | 10%nat => "\n"
    | 12%nat => "\f"
    | 13%nat => "\r"
    | n =>
        if (n <? 32)%nat
        then "\u00" ++ String (hex_digit (n / 16))
                         (String (hex_digit (n mod 16)) EmptyString)
        else String c EmptyString
    end.

Fixpoint quote_chars (s : string) : string :=
  match s with
  | EmptyString => EmptyString
  | String c s' => quote_char c ++ quote_chars s'
  end.

Definition quote (s : string) : string :=
  String dquote (quote_chars s ++ String dquote EmptyString).

Definition or_null (o : option string) : string :=
  match o with Some s => s | None => "null" end.

Fixpoint serialize_property (v : value) : result (option string) :=
  match v with
  | VUndefined => Ok None
  | VNull => Ok (Some "null")
  | VBool b => Ok (Some (if b then "true" else "false"))
  | VNum x => Ok (Some (number_text x))
  | VBigInt _ => Throw TypeError
  | VStr s => Ok (Some (quote s))
  | VArr elems =>
      match
        (fix items (l : list value) : result (list string) :=
           match l with
           | [] => Ok []
           | x :: xs =>
               match serialize_property x with
               | Throw e => Throw e
               | Ok o =>
                   match items xs with
                   | Throw e => Throw e
                   | Ok ss => Ok (or_null o :: ss)
                   end
               end
           end) elems
      with
      | Throw e => Throw e
      | Ok ss => Ok (Some ("[" ++ String.concat "," ss ++ "]"))
      end
  | VObj props =>
      match
        (fix members (l : list (string * value)) : result (list string) :=
           match l with
           | [] => Ok []
           | (k, x) :: xs =>
               match serialize_property x with
               | Throw e => Throw e
               | Ok o =>
                   match members xs with
                   | Throw e => Throw e
                   | Ok ss =>
                       Ok (match o with
                           | Some s => (quote k ++ ":" ++ s) :: ss
                           | None => ss
                           end)
                   end
               end
           end) props
      with
      | Throw e => Throw e
      | Ok ss => Ok (Some ("{" ++ String.concat "," ss ++ "}"))
      end
  end.

(** [JSON.stringify(v)].  For a top-level [undefined] the runtime returns
    [undefined], which a backend stores as the text below; a store never
    reaches that case, since it serializes payload objects only. *)
Definition stringify (v : value) : result string :=
  match serialize_property v with
  | Throw e => Throw e
  | Ok (Some s) => Ok s
  | Ok None => Ok "undefined"
  end.

(** No key occurs twice. *)
Fixpoint distinct (l : list string) : bool :=
  match l with
  | [] => true
  | k :: ks => negb (existsb (String.eqb k) ks) && distinct ks
  end.

(** The values [stringify] prints and [parse] is proved to read back: no
    [undefined] and no BigInt inside, no number but an integer, and no
    object with a repeated key (no JavaScript object has one). *)
Fixpoint serializable (v : value) : bool :=
  match v with
  | VUndefined | VBigInt _ => false
  | VNum x => match x with Int _ => true | _ => false end
  | VNull | VBool _ | VStr _ => true
  | VArr elems => forallb serializable elems
  | VObj props =>
      distinct (map fst props)
      && forallb (fun kv => serializable (snd kv)) props
  end.

(** The text of a serializable value, without the bookkeeping of
    [serialize_property]. *)
Fixpoint print (v : value) : string :=
  match v with
  | VUndefined | VNull | VBigInt _ => "null"
  | VBool b => if b then "true" else "false"
  | VNum x => number_text x
  | VStr s => quote s
  | VArr elems => "[" ++ String.concat "," (map print elems) ++ "]"
  | VObj props =>
      "{" ++ String.concat ","
               (map (fun kv => quote (fst kv) ++ ":" ++ print (snd kv)) props)
          ++ "}"
  end.

(** *** Reading *)

Definition is_ws (c : ascii) : bool :=
  match nat_of_ascii c with
  | 32%nat | 9%nat | 10%nat | 13%nat => true
  | _ => false
  end.

Fixpoint skip_ws (s : string) : string :=
  match s with
  | String c rest => if is_ws c then skip_ws rest else s
  | EmptyString => EmptyString
  end.

Definition is_digit (c : ascii) : bool :=
  let n := nat_of_ascii c in ((48 <=? n) && (n <=? 57))%nat.

Fixpoint span_digits (s : string) : string * string :=
  match s with
  | String c rest =>
      if is_digit c
      then let (d, r) := span_digits rest in (String c d, r)
      else (EmptyString, s)
  | EmptyString => (EmptyString, EmptyString)
  end.

Definition starts_fraction (s : string) : bool :=
  match s with
  | String c _ =>
      Ascii.eqb c "." || Ascii.eqb c "e" || Ascii.eqb c "E"
  | EmptyString => false
  end.

Definition leading_zero (ds : string) : bool :=
  match ds with
  | String c (String _ _) => Ascii.eqb c "0"
  | _ => false
  end.

(** The digits of an integer literal: [0], or a run of digits that does not
    start with [0]; [None] also when a fraction or an exponent follows. *)
Definition parse_digits (negative : bool) (s : string) : option (Z * string) :=
  let (ds, rest) := span_digits s in
  if String.eqb ds EmptyString || leading_zero ds || starts_fraction rest
  then None
  else
    match NilEmpty.uint_of_string ds with
    | Some u => Some (Z.of_int (if negative then Neg u else Pos u), rest)
    | None => None
    end.

Definition digits_value (ds : string) : Z :=
  match NilEmpty.uint_of_string ds with
  | Some u => Z.of_uint u
  | None => 0
  end.

(** The fraction of a literal: a point and at least one digit, or
    nothing. *)
Definition parse_fraction (s : string) : option (string * string) :=
  match s with
  | String c r =>
      if Ascii.eqb c "."
      then
        let (fs, rest) := span_digits r in
        if String.eqb fs EmptyString then None else Some (fs, rest)
      else Some (EmptyString, s)
  | EmptyString => Some (EmptyString, s)
  end.

(** The exponent of a literal: [e] or [E], an optional sign and at least
    one digit, or nothing. *)
Definition parse_exponent (s : string) : option (Z * string) :=
  match s with
  | String c r =>
      if Ascii.eqb c "e" || Ascii.eqb c "E"
      then
        let negative :=
          match r with String c' _ => Ascii.eqb c' "-" | _ => false end in
        let signed :=
          match r with
          | String c' _ => Ascii.eqb c' "-" || Ascii.eqb c' "+"
          | _ => false
          end in
        let (es, rest) :=
          span_digits
            (match r with String _ r' => if signed then r' else r | _ => r end)
        in
        if String.eqb es EmptyString then None
        else Some (if negative then - digits_value es else digits_value es,
                   rest)
      else Some (0, s)
  | EmptyString => Some (0, s)
  end.

(** A literal with a fraction or an exponent: the decimal it denotes,
    rounded to a number. *)
Definition parse_decimal (negative : bool) (s : string)
  : option (number * string) :=
  let (ds, rest) := span_digits s in
  if String.eqb ds EmptyString || leading_zero ds
     || negb (starts_fraction rest)
  then None
  else
    match parse_fraction rest with
    | None => None
    | Some (fs, rest1) =>
        match parse_exponent rest1 with
        | None => None
        | Some (ex, rest2) =>
            let m := digits_value (ds ++ fs) in
            let (a, b) :=
              scale10 (if negative then - m else m) 1
                (ex - Z.of_nat (String.length fs)) in
            Some (round64_ratio a b, rest2)
        end
    end.

Definition parse_unsigned (negative : bool) (s : string)
  : option (number * string) :=
  match parse_digits negative s with
  | Some (z, rest) => Some (Int z, rest)
  | None => parse_decimal negative s
  end.

(** A number literal: an optional minus sign, then its digits. *)
Definition parse_number (s : string) : option (number * string) :=
  match s with
  | String c r =>
      if Ascii.eqb c "-" then parse_unsigned true r else parse_unsigned false s
  | EmptyString => None
  end.

Definition cons_char (c : ascii) (r : option (string * string))
  : option (string * string) :=
  match r with
  | Some (s, rest) => Some (String c s, rest)
  | None => None
  end.

Definition simple_escape (e : ascii) : option ascii :=
  if Ascii.eqb e dquote then Some dquote
  else
    match e with
    | "\" => Some "\"
    | "/" => Some "/"
    | "b" => Some "008"
    | "f" => Some "012"
    | "n" => Some "010"
    | "r" => Some "013"
    | "t" => Some "009"
    | _ => None
    end%char.

Definition hex4 (h1 h2 h3 h4 : ascii) : option nat :=
  match hex_value h1, hex_value h2, hex_value h3, hex_value h4 with
  | Some a, Some b, Some c, Some d =>
      Some (((a * 16 + b) * 16 + c) * 16 + d)%nat
  | _, _, _, _ => None
  end.

(** The characters of a string literal, after its opening quote. *)
Fixpoint parse_chars (s : string) : option (string * string) :=
  match s with
  | EmptyString => None
  | String c rest =>
      if Ascii.eqb c dquote then Some (EmptyString, rest)
      else if Ascii.eqb c "\" then
        match rest with
        | EmptyString => None
        | String e rest' =>
            if Ascii.eqb e "u" then
              match rest' with
              | String h1 (String h2 (String h3 (String h4 rest''))) =>
                  match hex4 h1 h2 h3 h4 with
                  | Some n =>
                      if (n <? 128)%nat
                      then cons_char (ascii_of_nat n) (parse_chars rest'')
                      else None
                  | None => None
                  end
              | _ => None
              end
            else
              match simple_escape e with
              | Some c' => cons_char c' (parse_chars rest')
              | None => None
              end
        end
      else if (nat_of_ascii c <? 32)%nat then None
      else cons_char c (parse_chars rest)
  end.

Fixpoint strip_prefix (p s : string) : option string :=
  match p, s with
  | EmptyString, _ => Some s
  | String a p', String b s' =>
      if Ascii.eqb a b then strip_prefix p' s' else None
  | String _ _, EmptyString => None
  end.

Definition parse_literal (lit : string) (v : value) (s : string)
  : option (value * string) :=
  match strip_prefix lit s with
  | Some rest => Some (v, rest)
  | None => None
  end.

(** Skips white space, then reads the character [c]. *)
Definition expect (c : ascii) (s : string) : option string :=
  match skip_ws s with
  | String c' rest => if Ascii.eqb c' c then Some rest else None
  | EmptyString => None
  end.

Definition parse_key (s : string) : option (string * string) :=
  match expect dquote s with
  | Some rest =>
      match parse_chars rest with
      | Some (k, rest') =>
          match expect ":" rest' with
          | Some rest'' => Some (k, rest'')
          | None => None
          end
      | None => None
      end
  | None => None
  end.

Fixpoint parse_value (fuel : nat) (s : string) {struct fuel}
  : option (value * string) :=
  match fuel with
  | O => None
  | S fuel =>
      match skip_ws s with
      | EmptyString => None
      | String c rest as s' =>
          if Ascii.eqb c dquote then
            match parse_chars rest with
            | Some (str, rest') => Some (VStr str, rest')
            | None => None
            end
          else if Ascii.eqb c "[" then
            match expect "]" rest with
            | Some rest' => Some (VArr [], rest')
            | None =>
                match parse_elements fuel [] rest with
                | Some (l, rest') => Some (VArr l, rest')
                | None => None
                end
            end
          else if Ascii.eqb c "{" then
            match expect "}" rest with
            | Some rest' => Some (VObj [], rest')
            | None =>
                match parse_members fuel [] rest with
                | Some (l, rest') => Some (VObj l, rest')
                | None => None
                end
            end
          else if Ascii.eqb c "n" then parse_literal "null" VNull s'
          else if Ascii.eqb c "t" then parse_literal "true" (VBool true) s'
          else if Ascii.eqb c "f" then parse_literal "false" (VBool false) s'
          else
            match parse_number s' with
            | Some (n, rest') => Some (VNum n, rest')
            | None => None
            end
      end
  end

with parse_elements (fuel : nat) (acc : list value) (s : string) {struct fuel}
  : option (list value * string) :=
  match fuel with
  | O => None
  | S fuel =>
      match parse_value fuel s with
      | Some (v, rest) =>
          match expect "," rest with
          | Some rest' => parse_elements fuel (acc ++ [v])%list rest'
          | None =>
              match expect "]" rest with
              | Some rest' => Some ((acc ++ [v])%list, rest')
              | None => None
              end
          end
      | None => None
      end
  end

with parse_members (fuel : nat) (acc : list (string * value)) (s : string)
  {struct fuel} : option (list (string * value) * string) :=
  match fuel with
  | O => None
  | S fuel =>
      match parse_key s with
      | Some (k, rest) =>
          match parse_value fuel rest with
          | Some (v, rest') =>
              match expect "," rest' with
              | Some rest'' => parse_members fuel (assoc_set k v acc) rest''
              | None =>
                  match expect "}" rest' with
                  | Some rest'' => Some (assoc_set k v acc, rest'')
                  | None => None
                  end
              end
          | None => None
          end
      | None => None
      end
  end.

(** The calls of [parse_value] a value costs. *)
Fixpoint size (v : value) : nat :=
  match v with
  | VArr elems => S (list_sum (map (fun x => S (size x)) elems))
  | VObj props => S (list_sum (map (fun kv => S (size (snd kv))) props))
  | _ => 1%nat
  end.

(** What follows a value inside a text: the end, or a separator. *)
Definition delimited (rest : string) : bool :=
  match rest with
  | EmptyString => true
  | String c _ => Ascii.eqb c "," || Ascii.eqb c "]" || Ascii.eqb c "}"
  end.

(** The characters a value can start with. *)
Definition value_start (c : ascii) : bool :=
  Ascii.eqb c dquote || Ascii.eqb c "[" || Ascii.eqb c "{"
  || Ascii.eqb c "n" || Ascii.eqb c "t" || Ascii.eqb c "f"
  || Ascii.eqb c "-" || is_digit c.

(** The text of one property of an object. *)
Definition member (kv : string * value) : string :=
  quote (fst kv) ++ ":" ++ print (snd kv).

(** [parse_value] reads the text of [v] back, whatever delimited text
    follows it, as soon as it has fuel for [v]. *)
Definition reads_back (v : value) : Prop :=
  serializable v = true ->
  forall fuel rest,
    (size v <= fuel)%nat -> delimited rest = true ->
    parse_value fuel (print v ++ rest) = Some (v, rest).

(** [JSON.parse(text)]: one value, then only white space.  A reader
    consumes a character at least every second call, so the fuel below is
    never exhausted (lemma [parse_fuel]). *)
Definition parse (text : string) : result value :=
  match parse_value (2 * String.length text + 2) text with
  | Some (v, rest) =>
      match skip_ws rest with
      | EmptyString => Ok v
      | String _ _ => Throw SyntaxError
      end
  | None => Throw SyntaxError
  end.

End JSON.

(** ** Coercions of the relational comparison

    [isExpired] evaluates [payload.expiresAt <= Date.now()] on whatever the
    deserializer returned.  When the left operand is not a number the runtime
    converts it: ToPrimitive on an object or array, then ToNumber. *)

Definition object_text : string := "[object Object]".

(** ToString, as [Array.prototype.join] and ToPrimitive use it.  An object
    of the model has no callable property, so one with an own [toString]
    cannot be converted (TypeError); any other prints as [object_text]. *)
Fixpoint to_string (v : value) : result string :=
  match v with
  | VUndefined => Ok "undefined"
  | VNull => Ok "null"
  | VBool b => Ok (if b then "true" else "false")
  | VNum x => Ok (number_to_string x)
  | VBigInt n => Ok (integer_to_string n)
  | VStr s => Ok s
  | VArr elems =>
      (fix join (l : list value) : result string :=
         match l with
         | [] => Ok EmptyString
         | x :: xs =>
             match
               match x with
               | VUndefined | VNull => Ok EmptyString
               | _ => to_string x
               end
             with
             | Throw e => Throw e
             | Ok sx =>
                 match xs with
                 | [] => Ok sx
                 | _ :: _ =>
                     match join xs with
                     | Throw e => Throw e
                     | Ok rest => Ok (sx ++ "," ++ rest)
                     end
                 end
             end
         end) elems
  | VObj props =>
      if has_key "toString" props then Throw TypeError else Ok object_text
  end.

(** ** Storage backends

    [StorageLike] is an interface: an object of it is a state together with
    its methods.  [setItem], [removeItem] and [clear] return the new state;
    the observers [length], [getItem] and [key] read the state and leave it
    as it is.  Every method but [length] may throw; [key] is optional. *)

Record StorageMethods (C : Type) : Type := {
  m_length : C -> nat;
  m_clear : C -> C * result unit;
  m_getItem : C -> string -> result (option string);
  m_key : option (C -> nat -> result (option string));
  m_removeItem : C -> string -> C * result unit;
  m_setItem : C -> string -> string -> C * result unit
}.

Arguments m_length {C}.
Arguments m_clear {C}.
Arguments m_getItem {C}.
Arguments m_key {C}.
Arguments m_removeItem {C}.
Arguments m_setItem {C}.

Record StorageLike : Type := {
  carrier : Type;
  methods : StorageMethods carrier;
  this : carrier
}.

Definition with_this (s : StorageLike) (c : carrier s) : StorageLike :=
  {| carrier := carrier s; methods := methods s; this := c |}.

Definition storage_length (s : StorageLike) : nat :=
  m_length (methods s) (this s).

Definition storage_getItem (s : StorageLike) (key : string)
  : result (option string) :=
  m_getItem (methods s) (this s) key.

Definition storage_key (s : StorageLike)
  : option (nat -> result (option string)) :=
  match m_key (methods s) with
  | Some f => Some (f (this s))
  | None => None
  end.

Definition storage_removeItem (s : StorageLike) (key : string)
  : StorageLike * result unit :=
  let (c, r) := m_removeItem (methods s) (this s) key in (with_this s c, r).

Definition storage_setItem (s : StorageLike) (key value : string)
  : StorageLike * result unit :=
  let (c, r) := m_setItem (methods s) (this s) key value in (with_this s c, r).

(** [class MemoryStorage]: a [Map<string, string>]. *)
Definition MemoryStorage : Type := list (string * string).

Definition MemoryStorage_methods : StorageMethods MemoryStorage := {|
  m_length := fun store => List.length store;
  m_clear := fun _ => ([], Ok tt);
  m_getItem := fun store key => Ok (assoc_get key store);
  m_key := Some (fun store index => Ok (nth_error (map fst store) index));
  m_removeItem := fun store key => (assoc_remove key store, Ok tt);
  m_setItem := fun store key value => (assoc_set key value store, Ok tt)
|}.

Definition memory_storage (store : MemoryStorage) : StorageLike :=
  {| carrier := MemoryStorage; methods := MemoryStorage_methods; this := store |}.

Definition TEST_KEY : string := "__lsp_probe__".

Definition createMemoryStorage : StorageLike := memory_storage [].

(** [globalStorage] is [globalThis.localStorage] of the host, when there is
    one. *)
Definition detectStorage (globalStorage custom : option StorageLike)
  : StorageLike :=
  match custom with
  | Some c => c
  | None =>
      match globalStorage with
      | Some g => g
      | None => createMemoryStorage
      end
  end.

(** The probe writes to the candidate; its state after the probe is
    returned with the verdict. *)
Definition isStorageUsable (storage : StorageLike) : StorageLike * bool :=
  let (s1, r1) := storage_setItem storage TEST_KEY "1" in
  match r1 with
  | Throw _ => (s1, false)
  | Ok _ =>
      let (s2, r2) := storage_removeItem s1 TEST_KEY in
      match r2 with
      | Throw _ => (s2, false)
      | Ok _ => (s2, true)
      end
  end.

Definition StorageUnavailableError_message : string :=
  "localStorage is unavailable; falling back to in-memory storage".

(** ** The store *)

Record CreateStoreOptions : Type := {
  opt_namespace : option string;
  opt_defaultTTL : option number;
  opt_storage : option StorageLike;
  opt_serialize : option (value -> result string);
  opt_deserialize : option (string -> result value)
}.

Record SetOptions : Type := { ttl : option number }.

(** The variables [createStore] closes over. *)
Record Store : Type := {
  namespace : string;
  storage : StorageLike;
  serializer : value -> result string;
  deserializer : string -> result value;
  defaultTTL : option number;
  trackedKeys : list string
}.

Definition with_storage (st : Store) (s : StorageLike) : Store :=
  {| namespace := namespace st; storage := s; serializer := serializer st;
     deserializer := deserializer st; defaultTTL := defaultTTL st;
     trackedKeys := trackedKeys st |}.

Definition with_trackedKeys (st : Store) (t : list string) : Store :=
  {| namespace := namespace st; storage := storage st;
     serializer := serializer st; deserializer := deserializer st;
     defaultTTL := defaultTTL st; trackedKeys := t |}.

(** [namespace.replace(/:+$/, "")]: the longest run of colons that ends the
    string is removed. *)
Fixpoint strip_trailing_colons (s : string) : string :=
  match s with
  | EmptyString => EmptyString
  | String c s' =>
      match strip_trailing_colons s' with
      | EmptyString =>
          if Ascii.eqb c ":" then EmptyString else String c EmptyString
      | r => String c r
      end
  end.

Definition normalizeNamespace (namespace : option string) : string :=
  match namespace with
  | None => "lsp"
  | Some EmptyString => "lsp"
  | Some ns => strip_trailing_colons ns
  end.

Definition makeKey (namespace key : string) : string :=
  namespace ++ ":" ++ key.

(** The payload [encode] hands to the serializer; [now] is [Date.now()],
    and [ttlSeconds > 0] is [0 < ttlSeconds]. *)
Definition make_payload (v : value) (ttlSeconds : option number) (now : Z)
  : value :=
  let payload := VObj [("value", v)] in
  match ttlSeconds with
  | Some t =>
      if Number_truthy t && Number_lt 0 t
      then set_prop payload "expiresAt"
             (VNum (Number_add now (Number_mul t 1000)))
      else payload
  | None => payload
  end.

Definition encode (v : value) (ttlSeconds : option number)
  (serialize : value -> result string) (now : Z) : result string :=
  serialize (make_payload v ttlSeconds now).

(** [null] is [VNull]. *)
Definition decode (raw : option string) (deserialize : string -> result value)
  : value :=
  match raw with
  | None => VNull
  | Some EmptyString => VNull
  | Some r =>
      match deserialize r with
      | Ok payload => payload
      | Throw _ => VNull
      end
  end.

Definition resolveStorage (globalStorage candidate : option StorageLike)
  : StorageLike * bool :=
  let detected := detectStorage globalStorage candidate in
  let (probed, usable) := isStorageUsable detected in
  if usable then (probed, false) else (createMemoryStorage, true).

(** [createStore] returns the store and what it wrote to [console.warn]. *)
Definition createStore (globalStorage : option StorageLike)
  (options : CreateStoreOptions) : Store * list string :=
  let namespace := normalizeNamespace (opt_namespace options) in
  let (storage, usedMemoryFallback) :=
    resolveStorage globalStorage (opt_storage options) in
  let serializer :=
    match opt_serialize options with Some f => f | None => JSON.stringify end in
  let deserializer :=
    match opt_deserialize options with Some f => f | None => JSON.parse end in
  let warnings :=
    if usedMemoryFallback
       && (match opt_storage options with Some _ => false | None => true end)
    then [StorageUnavailableError_message] else [] in
  ({| namespace := namespace; storage := storage; serializer := serializer;
      deserializer := deserializer; defaultTTL := opt_defaultTTL options;
      trackedKeys := [] |}, warnings).

(** [setOptions?.ttl ?? defaultTTL]. *)
Definition effective_ttl (st : Store) (setOptions : option SetOptions)
  : option number :=
  match match setOptions with Some o => ttl o | None => None end with
  | Some t => Some t
  | None => defaultTTL st
  end.

Definition set (st : Store) (now : Z) (key : string) (v : value)
  (setOptions : option SetOptions) : Store * result unit :=
  let storageKey := makeKey (namespace st) key in
  let ttl := effective_ttl st setOptions in
  match encode v ttl (serializer st) now with
  | Throw e => (st, Throw e)
  | Ok raw =>
      let (s, r) := storage_setItem (storage st) storageKey raw in
      match r with
      | Throw e => (with_storage st s, Throw e)
      | Ok _ =>
          (with_trackedKeys (with_storage st s)
             (set_add storageKey (trackedKeys st)), Ok tt)
      end
  end.

Definition remove (st : Store) (key : string) : Store * result unit :=
  let storageKey := makeKey (namespace st) key in
  let (s, r) := storage_removeItem (storage st) storageKey in
  match r with
  | Throw e => (with_storage st s, Throw e)
  | Ok _ =>
      (with_trackedKeys (with_storage st s)
         (set_delete storageKey (trackedKeys st)), Ok tt)
  end.

(** [keys.forEach((key) => storage.removeItem(key))]. *)
Fixpoint removeEach (s : StorageLike) (keys : list string)
  : StorageLike * result unit :=
  match keys with
  | [] => (s, Ok tt)
  | key :: rest =>
      let (s', r) := storage_removeItem s key in
      match r with
      | Throw e => (s', Throw e)
      | Ok _ => removeEach s' rest
      end
  end.

(** The loop [for (let i = 0; i < storage.length; i += 1)] of [clear], with
    [remaining = storage.length - i]. *)
Fixpoint collectKeys (keyAccessor : nat -> result (option string))
  (prefix : string) (remaining i : nat) (keysToRemove : list string)
  : result (list string) :=
  match remaining with
  | O => Ok keysToRemove
  | S remaining' =>
      match keyAccessor i with
      | Throw e => Throw e
      | Ok key =>
          collectKeys keyAccessor prefix remaining' (S i)
            match key with
            | Some k =>
                if negb (String.eqb k EmptyString) && String.prefix prefix k
                then (keysToRemove ++ [k])%list
                else keysToRemove
            | None => keysToRemove
            end
      end
  end.

Definition clear (st : Store) : Store * result unit :=
  match storage_key (storage st) with
  | None =>
      let (s, r) := removeEach (storage st) (trackedKeys st) in
      match r with
      | Throw e => (with_storage st s, Throw e)
      | Ok _ => (with_trackedKeys (with_storage st s) [], Ok tt)
      end
  | Some keyAccessor =>
      match
        collectKeys keyAccessor (namespace st ++ ":")
          (storage_length (storage st)) 0 []
      with
      | Throw e => (st, Throw e)
      | Ok keysToRemove =>
          let (s, r) := removeEach (storage st) keysToRemove in
          (with_storage st s, r)
      end
  end.

Section Runtime.

(** [StringToNumber_le s n] is the runtime's [ToNumber(s) <= n] for a
    string [s] and an integer [n] (false when [s] is not a numeric
    literal).  StringToNumber reads fractions, exponents, hexadecimal and
    surrounding white space and rounds to a double; it is left to the
    runtime. *)
Variable StringToNumber_le : string -> Z -> bool.

(** [e <= now] for a number [now]. *)
Definition less_or_equal (e : value) (now : Z) : result bool :=
  match e with
  | VUndefined => Ok false
  | VNull => Ok (0 <=? now)
  | VBool b => Ok ((if b then 1 else 0) <=? now)
  | VNum x => Ok (Number_le x now)
  | VBigInt n => Ok (n <=? now)
  | VStr s => Ok (StringToNumber_le s now)
  | VArr _ | VObj _ =>
      match to_string e with
      | Throw err => Throw err
      | Ok s => Ok (StringToNumber_le s now)
      end
  end.

(** [isExpired(payload)] at [Date.now() = now].  It can throw: the
    comparison converts an [expiresAt] that is not a number. *)
Definition isExpired (payload : value) (now : Z) : result bool :=
  if negb (truthy payload) then Ok false
  else if negb (truthy (get_prop payload "expiresAt")) then Ok false
  else less_or_equal (get_prop payload "expiresAt") now.

Definition get (st : Store) (now : Z) (key : string) : Store * result value :=
  let storageKey := makeKey (namespace st) key in
  match storage_getItem (storage st) storageKey with
  | Throw e => (st, Throw e)
  | Ok raw =>
      let payload := decode raw (deserializer st) in
      match isExpired payload now with
      | Throw e => (st, Throw e)
      | Ok true =>
          let (s, r) := storage_removeItem (storage st) storageKey in
          match r with
          | Throw e => (with_storage st s, Throw e)
          | Ok _ =>
              (with_trackedKeys (with_storage st s)
                 (set_delete storageKey (trackedKeys st)), Ok VNull)
          end
      | Ok false =>
          if negb (truthy payload)
          then (with_trackedKeys st (set_delete storageKey (trackedKeys st)),
                Ok VNull)
          else (with_trackedKeys st (set_add storageKey (trackedKeys st)),
                Ok (get_prop payload "value"))
      end
  end.

End Runtime.

(** Two stores built over one backend object hold the same object: a store
    called after another sees the backend as the other left it. *)
Definition with_backend_of (st other : Store) : Store :=
  with_storage st (storage other).

(** ** Notions the specification uses *)

(** A backend that keeps the Web Storage contract: it is a table of strings,
    no method throws, and [key] enumerates at least the keys that are
    present. *)
Record Lawful {C : Type} (M : StorageMethods C) : Prop := {
  getItem_total : forall c key, exists r, m_getItem M c key = Ok r;
  setItem_spec : forall c key value, exists c',
      m_setItem M c key value = (c', Ok tt)
      /\ m_getItem M c' key = Ok (Some value)
      /\ forall key', key' <> key -> m_getItem M c' key' = m_getItem M c key';
  removeItem_spec : forall c key, exists c',
      m_removeItem M c key = (c', Ok tt)
      /\ m_getItem M c' key = Ok None
      /\ forall key', key' <> key -> m_getItem M c' key' = m_getItem M c key';
  key_spec : forall f, m_key M = Some f -> forall c,
      (forall i, exists r, f c i = Ok r)
      /\ forall key value, m_getItem M c key = Ok (Some value) ->
           exists i, (i < m_length M c)%nat /\ f c i = Ok (Some key)
}.

Definition lawful (s : StorageLike) : Prop := Lawful (methods s).

(** The codec of the store reads back the payload [p] it writes. *)
Definition codec_roundtrip (st : Store) (p : value) : Prop :=
  exists raw,
    serializer st p = Ok raw /\ raw <> EmptyString
    /\ deserializer st raw = Ok p.

(** Every tracked key is a key of the store's namespace. *)
Definition tracked_wf (st : Store) : Prop :=
  Forall (fun sk => String.prefix (namespace st ++ ":") sk = true)
    (trackedKeys st).

(** A namespace without the separator. *)
Fixpoint colon_free (s : string) : bool :=
  match s with
  | EmptyString => true
  | String c s' => negb (Ascii.eqb c ":") && colon_free s'
  end.

(** A string of separators only. *)
Fixpoint all_colons (s : string) : bool :=
  match s with
  | EmptyString => true
  | String c s' => Ascii.eqb c ":" && all_colons s'
  end.

(** [type StoredPayload<T> = { value: T; expiresAt?: number }]. *)
Definition StoredPayload_shape (p : value) : bool :=
  match p with
  | VObj props =>
      has_key "value" props
      && match assoc_get "expiresAt" props with
         | None | Some VUndefined | Some (VNum _) => true
         | Some _ => false
         end
  | _ => false
  end.

(** The payload carries an [expiresAt] property. *)
Definition has_expiresAt (p : value) : bool :=
  match p with
  | VObj props => has_key "expiresAt" props
  | _ => false
  end.

(** ** Sample objects *)

(** [class BrokenStorage] of the test suite: every method throws. *)
Definition BrokenStorage_methods : StorageMethods unit := {|
  m_length := fun _ => 0%nat;
  m_clear := fun c => (c, Throw (Error "broken"));
  m_getItem := fun _ _ => Throw (Error "broken");
  m_key := Some (fun _ _ => Throw (Error "broken"));
  m_removeItem := fun c _ => (c, Throw (Error "broken"));
  m_setItem := fun c _ _ => (c, Throw (Error "broken"))
|}.

Definition BrokenStorage : StorageLike :=
  {| carrier := unit; methods := BrokenStorage_methods; this := tt |}.

(** A table without the optional [key] method. *)
Definition KeylessStorage_methods : StorageMethods MemoryStorage := {|
  m_length := m_length MemoryStorage_methods;
  m_clear := m_clear MemoryStorage_methods;
  m_getItem := m_getItem MemoryStorage_methods;
  m_key := None;
  m_removeItem := m_removeItem MemoryStorage_methods;
  m_setItem := m_setItem MemoryStorage_methods
|}.

Definition keyless_storage (store : MemoryStorage) : StorageLike :=
  {| carrier := MemoryStorage; methods := KeylessStorage_methods;
     this := store |}.

(** A stand-in for the runtime's comparison of a string with a number, to
    run the examples: it reads decimal integers and takes any other string
    for NaN.  No example below compares a string. *)
Definition decimal_le (s : string) (n : Z) : bool :=
  match NilZero.int_of_string s with
  | Some d => Z.of_int d <=? n
  | None => false
  end.

Definition default_options (ns : string) (s : StorageLike)
  : CreateStoreOptions :=
  {| opt_namespace := Some ns; opt_defaultTTL := None; opt_storage := Some s;
     opt_serialize := None; opt_deserialize := None |}.

(** [createStore({ namespace, storage })] over a memory table. *)
Definition memory_store (ns : string) (table : MemoryStorage) : Store :=
  fst (createStore None (default_options ns (memory_storage table))).

Definition with_defaultTTL (st : Store) (d : option number) : Store :=
  {| namespace := namespace st; storage := storage st;
     serializer := serializer st; deserializer := deserializer st;
     defaultTTL := d; trackedKeys := trackedKeys st |}.

(** The deadline [encode] computes at time [t0] for a TTL of [T] seconds:
    the number [t0 + T * 1000]. *)
Definition deadline (T : number) (t0 : Z) : number :=
  Number_add t0 (Number_mul T 1000).

(** When [isExpired] holds, at time [t], of the payload [encode] built at
    time [t0]: the deadline was installed, is truthy, and has passed. *)
Definition deadline_passed (ttlSeconds : option number) (t0 t : Z) : bool :=
  match ttlSeconds with
  | Some T =>
      Number_lt 0 T && Number_truthy (deadline T t0)
      && Number_le (deadline T t0) t
  | None => false
  end.

(** The per-call TTL of a [set]: [setOptions?.ttl]. *)
Definition per_call_ttl (setOptions : option SetOptions) : option number :=
  match setOptions with
  | Some o => ttl o
  | None => None
  end.

(** The exact range of the arithmetic: integers below [2^53]. *)
Definition safe_integer (z : Z) : Prop := Z.abs z < 2 ^ 53.

(** The fields [createStore] fixes for the life of a store. *)
Definition same_config (st st' : Store) : Prop :=
  namespace st' = namespace st /\ serializer st' = serializer st
  /\ deserializer st' = deserializer st /\ defaultTTL st' = defaultTTL st.

(** The probe of [isStorageUsable] throws: in [setItem], or in the
    [removeItem] that follows it. *)
Definition probe_throws (s : StorageLike) : Prop :=
  throws (snd (storage_setItem s TEST_KEY "1"))
  \/ throws (snd (storage_removeItem (fst (storage_setItem s TEST_KEY "1"))
                    TEST_KEY)).

(** The backend stays lawful, the configuration and the invariant of the
    tracked keys are kept, and no entry but the one at the derived key is
    touched. *)
Definition preserved (st st' : Store) (sk : string) : Prop :=
  lawful (storage st') /\ same_config st st'
  /\ (tracked_wf st -> tracked_wf st')
  /\ forall key, key <> sk ->
                 storage_getItem (storage st') key
                 = storage_getItem (storage st) key.

(** Case analysis on the 256 characters. *)
Ltac each_ascii c := destruct c as [[] [] [] [] [] [] [] []].

(** The calls a program makes on a store, and the store they leave. *)
Inductive call : Type :=
| CallGet (now : Z) (key : string)
| CallSet (now : Z) (key : string) (v : value) (o : option SetOptions)
| CallRemove (key : string)
| CallClear.

Definition run (le : string -> Z -> bool) (st : Store) (c : call) : Store :=
  match c with
  | CallGet now key => fst (get le st now key)
  | CallSet now key v o => fst (set st now key v o)
  | CallRemove key => fst (remove st key)
  | CallClear => fst (clear st)
  end.

(** [createStore({ namespace, storage })] over a table without [key]. *)
Definition keyless_store (ns : string) (table : MemoryStorage) : Store :=
  fst (createStore None (default_options ns (keyless_storage table))).

(** [{ id: 1, name: "Jess" }], the value the test suite stores. *)
Definition sample_user : value :=
  VObj [("id", VNum 1); ("name", VStr "Jess")].

(** A store whose backend holds exactly one entry, written by someone else. *)
Definition store_with_entry (ns key raw : string) : Store :=
  let st := memory_store ns [] in
  with_storage st (fst (storage_setItem (storage st) (makeKey ns key) raw)).

(** ** Notions of the further properties *)

(** The call is made on [key]; [clear] is made on every key. *)
Definition call_targets (c : call) (key : string) : bool :=
  match c with
  | CallGet _ k | CallSet _ k _ _ | CallRemove k => String.eqb k key
  | CallClear => true
  end.

(** The error a call throws, when it throws. *)
Definition error_of {A : Type} (r : result A) : option exn :=
  match r with
  | Ok _ => None
  | Throw e => Some e
  end.

Definition call_error (le : string -> Z -> bool) (st : Store) (c : call)
  : option exn :=
  match c with
  | CallGet now key => error_of (snd (get le st now key))
  | CallSet now key v o => error_of (snd (set st now key v o))
  | CallRemove key => error_of (snd (remove st key))
  | CallClear => error_of (snd (clear st))
  end.

(** A table with a quota, as a browser's storage has one: [setItem] throws
    on a value longer than [limit] and leaves the table as it is. *)
Definition QuotaStorage_methods (limit : nat) : StorageMethods MemoryStorage := {|
  m_length := m_length MemoryStorage_methods;
  m_clear := m_clear MemoryStorage_methods;
  m_getItem := m_getItem MemoryStorage_methods;
  m_key := m_key MemoryStorage_methods;
  m_removeItem := m_removeItem MemoryStorage_methods;
  m_setItem := fun store key value =>
    if (limit <? String.length value)%nat
    then (store, Throw (Error "QuotaExceededError"))
    else (assoc_set key value store, Ok tt)
|}.

Definition quota_storage (limit : nat) (store : MemoryStorage) : StorageLike :=
  {| carrier := MemoryStorage; methods := QuotaStorage_methods limit;
     this := store |}.

(** [createStore({ namespace, storage })] over a table with a quota. *)
Definition quota_store (ns : string) (limit : nat) (table : MemoryStorage)
  : Store :=
  fst (createStore None (default_options ns (quota_storage limit table))).

(** A table as a [Map] holds it: every key once. *)
Definition keys_unique (store : MemoryStorage) : Prop :=
  NoDup (map fst store).

(** * Facts *)

(** ** Numbers *)

Lemma round64_safe (z : Z) : safe_integer z -> round64 z 0 = Int z.
Proof.
  unfold safe_integer, round64. intros H.
  destruct (Z.eq_dec z 0) as [->|N]; [reflexivity|].
  assert (L : Z.log2 (Z.abs z) < 53) by (apply Z.log2_lt_pow2; lia).
  pose proof (Z.log2_nonneg (Z.abs z)) as P.
  replace (Z.max (Z.log2 (Z.abs z) + 1 - 53) (- 1074 - 0) <=? 0) with true
    by (symmetry; apply Z.leb_le; lia).
  cbv zeta.
  replace (z =? 0) with false by (symmetry; now apply Z.eqb_neq).
  replace (1024 <=? Z.log2 (Z.abs z) + 0) with false
    by (symmetry; apply Z.leb_gt; lia).
  unfold dyadic. cbn. f_equal. lia.
Qed.

Lemma Number_add_Int (a b : Z) :
  Number_add (Int a) (Int b) = round64 (a + b) 0.
Proof.
  unfold Number_add, finite. change (Z.min 0 0) with 0.
  change (2 ^ (0 - 0)) with 1. now rewrite !Z.mul_1_r.
Qed.

Lemma Number_mul_Int (a b : Z) :
  Number_mul (Int a) (Int b) = round64 (a * b) 0.
Proof. reflexivity. Qed.

Lemma Number_compare_Int (a b : Z) :
  Number_compare (Int a) (Int b) = Some (a ?= b).
Proof.
  unfold Number_compare, finite. change (Z.min 0 0) with 0.
  change (2 ^ (0 - 0)) with 1. now rewrite !Z.mul_1_r.
Qed.

Lemma Number_lt_Int (a b : Z) : Number_lt (Int a) (Int b) = (a <? b).
Proof.
  unfold Number_lt. rewrite Number_compare_Int. unfold Z.ltb.
  now destruct (a ?= b).
Qed.

Lemma Number_le_Int (a b : Z) : Number_le (Int a) (Int b) = (a <=? b).
Proof.
  unfold Number_le. rewrite Number_compare_Int. unfold Z.leb.
  now destruct (a ?= b).
Qed.

Lemma Number_truthy_Int (z : Z) : Number_truthy (Int z) = negb (z =? 0).
Proof. reflexivity. Qed.

(** A number above zero is truthy: [ttlSeconds && ttlSeconds > 0] is
    [ttlSeconds > 0]. *)
Lemma Number_positive_truthy (x : number) :
  Number_lt 0 x = true -> Number_truthy x = true.
Proof.
  destruct x as [z|m e|s|]; try reflexivity.
  - rewrite Number_lt_Int. cbn. intros H. apply Z.ltb_lt in H.
    apply negb_true_iff, Z.eqb_neq. lia.
  - discriminate.
Qed.

(** With integers below [2^53] the deadline is the exact sum. *)
Lemma deadline_exact (T t0 : Z) :
  safe_integer (T * 1000) -> safe_integer (t0 + T * 1000) ->
  deadline (Int T) t0 = Int (t0 + T * 1000).
Proof.
  intros Hm Hs. unfold deadline.
  now rewrite Number_mul_Int, round64_safe, Number_add_Int, round64_safe.
Qed.

Lemma dyadic_finite (m e : Z) : finite (dyadic m e) <> None.
Proof.
  unfold dyadic. destruct (0 <=? e); [discriminate|].
  destruct m; try discriminate; cbv zeta;
    destruct (_ =? 0); discriminate.
Qed.

Lemma round64_not_NaN (m e : Z) : round64 m e <> NaN.
Proof.
  unfold round64. cbv zeta. destruct (_ =? 0); [discriminate|].
  destruct (1024 <=? _); [discriminate|].
  intros H.
  match type of H with dyadic ?q ?e' = _ => apply (dyadic_finite q e') end.
  now rewrite H.
Qed.

(** The deadline of a positive TTL is a number: it is not [NaN]. *)
Lemma deadline_not_NaN (T : number) (t0 : Z) :
  Number_lt 0 T = true -> deadline T t0 <> NaN.
Proof.
  unfold deadline. intros P.
  destruct T as [z|m e|[|]|]; try discriminate P.
  - rewrite Number_mul_Int.
    destruct (round64 (z * 1000) 0) as [y|my ey|s|] eqn:R.
    + rewrite Number_add_Int. apply round64_not_NaN.
    + unfold Number_add, finite. apply round64_not_NaN.
    + discriminate.
    + now apply round64_not_NaN in R.
  - unfold Number_mul, finite.
    destruct (round64 _ _) as [y|my ey|s|] eqn:R.
    + rewrite Number_add_Int. apply round64_not_NaN.
    + unfold Number_add, finite. apply round64_not_NaN.
    + discriminate.
    + now apply round64_not_NaN in R.
  - discriminate.
Qed.

(** Two numbers are ordered one way or the other. *)
Lemma Number_lt_or_le (x y : number) :
  x <> NaN -> y <> NaN -> Number_lt x y = true \/ Number_le y x = true.
Proof.
  intros Nx Ny. unfold Number_lt, Number_le, Number_compare.
  destruct (finite x) as [[mx ex]|] eqn:Fx, (finite y) as [[my ey]|] eqn:Fy.
  - rewrite (Z.min_comm ey ex).
    rewrite (Z.compare_antisym (mx * _) (my * _)).
    destruct (mx * _ ?= my * _); cbn; auto.
  - destruct x as [| | |]; try discriminate Fx;
      destruct y as [| |[|]|]; try discriminate Fy; cbn; auto; congruence.
  - destruct y as [| | |]; try discriminate Fy;
      destruct x as [| |[|]|]; try discriminate Fx; cbn; auto; congruence.
  - destruct x as [| |[|]|], y as [| |[|]|];
      try discriminate Fx; try discriminate Fy; cbn; auto; congruence.
Qed.

Lemma Number_lt_not_le (x y : number) :
  Number_lt x y = true -> Number_le y x = false.
Proof.
  unfold Number_lt, Number_le, Number_compare.
  destruct (finite x) as [[mx ex]|] eqn:Fx, (finite y) as [[my ey]|] eqn:Fy.
  - rewrite (Z.min_comm ey ex).
    rewrite (Z.compare_antisym (mx * _) (my * _)).
    destruct (mx * _ ?= my * _); cbn; congruence.
  - destruct x as [| | |]; try discriminate Fx;
      destruct y as [| |[|]|]; try discriminate Fy; cbn; congruence.
  - destruct y as [| | |]; try discriminate Fy;
      destruct x as [| |[|]|]; try discriminate Fx; cbn; congruence.
  - destruct x as [| |[|]|], y as [| |[|]|];
      try discriminate Fx; try discriminate Fy; cbn; congruence.
Qed.

(** A number that is at most [t] is at most every later [t']. *)
Lemma Number_le_later (x : number) (t t' : Z) :
  Number_le x t = true -> t <= t' -> Number_le x t' = true.
Proof.
  destruct x as [z|m e|[|]|]; try discriminate; try reflexivity.
  - rewrite !Number_le_Int. intros H Le. apply Z.leb_le in H.
    apply Z.leb_le. lia.
  - unfold Number_le, Number_compare, finite. intros H Le.
    replace (Z.min (- Z.pos e) 0) with (- Z.pos e) in * by lia.
    replace (- Z.pos e - - Z.pos e) with 0 in * by lia.
    replace (0 - - Z.pos e) with (Z.pos e) in * by lia.
    change (2 ^ 0) with 1 in *. rewrite Z.mul_1_r in *.
    assert (P : 0 < 2 ^ Z.pos e) by (apply Z.pow_pos_nonneg; lia).
    destruct (Z.compare_spec m (t * 2 ^ Z.pos e)); try discriminate H;
      destruct (Z.compare_spec m (t' * 2 ^ Z.pos e)); try reflexivity; nia.
Qed.

(** ** Strings *)

Lemma append_assoc (a b c : string) : (a ++ b) ++ c = a ++ (b ++ c).
Proof. induction a as [|x a IH]; simpl; [reflexivity | now rewrite IH]. Qed.

Lemma append_empty_r (s : string) : s ++ EmptyString = s.
Proof. induction s as [|x s IH]; simpl; [reflexivity | now rewrite IH]. Qed.

Lemma length_append (a b : string) :
  String.length (a ++ b) = (String.length a + String.length b)%nat.
Proof. induction a as [|x a IH]; simpl; [reflexivity | now rewrite IH]. Qed.

Module JSONFacts.
Import JSON.

(** *** Characters *)

Lemma parse_chars_quote_char (c : ascii) (tail : string) :
  parse_chars (quote_char c ++ tail) = cons_char c (parse_chars tail).
Proof. each_ascii c; reflexivity. Qed.

Lemma parse_chars_quote_chars (s rest : string) :
  parse_chars (quote_chars s ++ String dquote rest) = Some (s, rest).
Proof.
  induction s as [|c s IH]; simpl.
  - reflexivity.
  - rewrite append_assoc, parse_chars_quote_char, IH. reflexivity.
Qed.

Lemma value_start_facts (c : ascii) :
  value_start c = true ->
  is_ws c = false /\ Ascii.eqb c "]" = false /\ Ascii.eqb c "}" = false
  /\ Ascii.eqb c "," = false /\ Ascii.eqb c ":" = false.
Proof. each_ascii c; intros H; try discriminate H; repeat split. Qed.

Lemma number_start_facts (c : ascii) :
  Ascii.eqb c "-" || is_digit c = true ->
  value_start c = true /\ Ascii.eqb c dquote = false
  /\ Ascii.eqb c "[" = false /\ Ascii.eqb c "{" = false
  /\ Ascii.eqb c "n" = false /\ Ascii.eqb c "t" = false
  /\ Ascii.eqb c "f" = false.
Proof. each_ascii c; intros H; try discriminate H; repeat split. Qed.

Lemma digit_not_minus (c : ascii) :
  is_digit c = true -> Ascii.eqb c "-" = false.
Proof. each_ascii c; intros H; try discriminate H; reflexivity. Qed.

Lemma delimited_facts (rest : string) :
  delimited rest = true ->
  span_digits rest = (EmptyString, rest) /\ starts_fraction rest = false.
Proof.
  destruct rest as [|c rest]; [split; reflexivity|].
  unfold delimited. each_ascii c; intros H; try discriminate H; split; reflexivity.
Qed.

(** *** Numbers *)

Lemma span_digits_uint (u : uint) (rest : string) :
  span_digits rest = (EmptyString, rest) ->
  span_digits (NilEmpty.string_of_uint u ++ rest)
  = (NilEmpty.string_of_uint u, rest).
Proof.
  intros Hrest. induction u; simpl; try rewrite IHu; auto.
Qed.

Lemma uint_first_digit (u : uint) :
  u <> Nil ->
  exists c s, NilEmpty.string_of_uint u = String c s /\ is_digit c = true.
Proof.
  destruct u; intros H; try congruence; simpl; eauto.
Qed.

Lemma to_uint_unorm (p : positive) : unorm (Pos.to_uint p) = Pos.to_uint p.
Proof.
  rewrite <- (DecimalPos.Unsigned.to_of (Pos.to_uint p)).
  rewrite DecimalPos.Unsigned.of_to. reflexivity.
Qed.

Lemma leading_zero_unorm (u : uint) :
  unorm u = u -> leading_zero (NilEmpty.string_of_uint u) = false.
Proof.
  destruct u; intros H; simpl;
    try (destruct (NilEmpty.string_of_uint u); reflexivity); try reflexivity.
  rewrite unorm_D0 in H. unfold unorm in H.
  destruct (nzhead u) eqn:E; try discriminate H.
  - injection H as <-. reflexivity.
  - exfalso. exact (nzhead_nonzero _ _ E).
Qed.

Lemma parse_digits_uint (negative : bool) (u : uint) (rest : string) :
  u <> Nil -> unorm u = u ->
  delimited rest = true ->
  parse_digits negative (NilEmpty.string_of_uint u ++ rest)
  = Some (Z.of_int (if negative then Neg u else Pos u), rest).
Proof.
  intros Hn Hu Hd. destruct (delimited_facts rest Hd) as [Hs Hf].
  unfold parse_digits.
  rewrite (span_digits_uint u rest Hs).
  destruct (uint_first_digit u Hn) as (c & s & E & _).
  rewrite (leading_zero_unorm u Hu), Hf.
  rewrite E at 1. simpl. now rewrite NilEmpty.usu.
Qed.

Lemma parse_digits_positive (negative : bool) (p : positive) (rest : string) :
  delimited rest = true ->
  parse_digits negative (NilEmpty.string_of_uint (Pos.to_uint p) ++ rest)
  = Some (if negative then Z.neg p else Z.pos p, rest).
Proof.
  intros Hd.
  rewrite parse_digits_uint;
    [| apply DecimalPos.Unsigned.to_uint_nonnil | apply to_uint_unorm | exact Hd].
  destruct negative.
  - change (Neg (Pos.to_uint p)) with (Z.to_int (Z.neg p)).
    now rewrite DecimalZ.of_to.
  - change (Pos (Pos.to_uint p)) with (Z.to_int (Z.pos p)).
    now rewrite DecimalZ.of_to.
Qed.

Lemma number_first (n : Z) :
  exists c s, number_text (Int n) = String c s
              /\ Ascii.eqb c "-" || is_digit c = true.
Proof.
  unfold number_text, number_to_string, integer_to_string.
  destruct n as [|p|p]; simpl.
  - eauto.
  - destruct (uint_first_digit _ (DecimalPos.Unsigned.to_uint_nonnil p))
      as (c & s & E & D).
    exists c, s. rewrite E, D. split; [reflexivity | apply orb_true_r].
  - eauto.
Qed.

Lemma parse_integer_print (n : Z) (rest : string) :
  delimited rest = true ->
  match integer_to_string n ++ rest with
  | String c r =>
      if Ascii.eqb c "-" then parse_digits true r
      else parse_digits false (integer_to_string n ++ rest)
  | EmptyString => None
  end = Some (n, rest).
Proof.
  intros Hd. unfold integer_to_string.
  destruct n as [|p|p].
  - exact (parse_digits_uint false (D0 Nil) rest
             ltac:(discriminate) eq_refl Hd).
  - cbn [Z.to_int NilEmpty.string_of_int].
    destruct (uint_first_digit _ (DecimalPos.Unsigned.to_uint_nonnil p))
      as (c & s & E & D).
    pose proof (parse_digits_positive false p rest Hd) as H.
    rewrite E in *. cbn [append] in *.
    now rewrite (digit_not_minus c D).
  - cbn [Z.to_int NilEmpty.string_of_int append].
    change (Ascii.eqb "-" "-") with true. cbv iota.
    exact (parse_digits_positive true p rest Hd).
Qed.

Lemma parse_number_print (n : Z) (rest : string) :
  delimited rest = true ->
  parse_number (number_text (Int n) ++ rest) = Some (Int n, rest).
Proof.
  intros Hd. pose proof (parse_integer_print n rest Hd) as H.
  change (number_text (Int n)) with (integer_to_string n).
  unfold parse_number, parse_unsigned.
  destruct (integer_to_string n ++ rest) as [|c r]; [discriminate H|].
  destruct (Ascii.eqb c "-"); now rewrite H.
Qed.

(** *** Values *)

Lemma list_sum_cons (n : nat) (l : list nat) :
  list_sum (n :: l) = (n + list_sum l)%nat.
Proof. reflexivity. Qed.

Lemma expect_hit (c : ascii) (rest : string) :
  is_ws c = false -> expect c (String c rest) = Some rest.
Proof.
  intros H. unfold expect. simpl. rewrite H, Ascii.eqb_refl. reflexivity.
Qed.

Lemma expect_miss (c c' : ascii) (rest : string) :
  is_ws c' = false -> Ascii.eqb c' c = false ->
  expect c (String c' rest) = None.
Proof. intros H E. unfold expect. simpl. rewrite H, E. reflexivity. Qed.

Lemma parse_value_S (fuel : nat) (s : string) :
  parse_value (S fuel) s =
  match skip_ws s with
  | EmptyString => None
  | String c rest as s' =>
      if Ascii.eqb c dquote then
        match parse_chars rest with
        | Some (str, rest') => Some (VStr str, rest')
        | None => None
        end
      else if Ascii.eqb c "[" then
        match expect "]" rest with
        | Some rest' => Some (VArr [], rest')
        | None =>
            match parse_elements fuel [] rest with
            | Some (l, rest') => Some (VArr l, rest')
            | None => None
            end
        end
      else if Ascii.eqb c "{" then
        match expect "}" rest with
        | Some rest' => Some (VObj [], rest')
        | None =>
            match parse_members fuel [] rest with
            | Some (l, rest') => Some (VObj l, rest')
            | None => None
            end
        end
      else if Ascii.eqb c "n" then parse_literal "null" VNull s'
      else if Ascii.eqb c "t" then parse_literal "true" (VBool true) s'
      else if Ascii.eqb c "f" then parse_literal "false" (VBool false) s'
      else
        match parse_number s' with
        | Some (n, rest') => Some (VNum n, rest')
        | None => None
        end
  end.
Proof. reflexivity. Qed.

Lemma parse_elements_S (fuel : nat) (acc : list value) (s : string) :
  parse_elements (S fuel) acc s =
  match parse_value fuel s with
  | Some (v, rest) =>
      match expect "," rest with
      | Some rest' => parse_elements fuel (acc ++ [v])%list rest'
      | None =>
          match expect "]" rest with
          | Some rest' => Some ((acc ++ [v])%list, rest')
          | None => None
          end
      end
  | None => None
  end.
Proof. reflexivity. Qed.

Lemma parse_members_S (fuel : nat) (acc : list (string * value)) (s : string) :
  parse_members (S fuel) acc s =
  match parse_key s with
  | Some (k, rest) =>
      match parse_value fuel rest with
      | Some (v, rest') =>
          match expect "," rest' with
          | Some rest'' => parse_members fuel (assoc_set k v acc) rest''
          | None =>
              match expect "}" rest' with
              | Some rest'' => Some (assoc_set k v acc, rest'')
              | None => None
              end
          end
      | None => None
      end
  | None => None
  end.
Proof. reflexivity. Qed.

Lemma print_first (v : value) :
  serializable v = true ->
  exists c s, print v = String c s /\ value_start c = true.
Proof.
  destruct v as [| |b|[n|m e|i|]|n|s|l|l]; simpl; intros H;
    try discriminate H; try (do 2 eexists; split; reflexivity).
  - destruct b; do 2 eexists; split; reflexivity.
  - destruct (number_first n) as (c & s & E & D).
    exists c, s. split; [exact E|]. now apply number_start_facts.
Qed.

Lemma expect_print_miss (c : ascii) (v : value) (tail : string) :
  serializable v = true ->
  Ascii.eqb c "]" || Ascii.eqb c "}" = true ->
  expect c (print v ++ tail) = None.
Proof.
  intros Hs Hc. destruct (print_first v Hs) as (c' & s & E & V).
  rewrite E. simpl.
  destruct (value_start_facts c' V) as (W & A & B & _).
  apply expect_miss; [exact W|].
  apply orb_true_iff in Hc as [Hc|Hc]; apply Ascii.eqb_eq in Hc; subst c;
    assumption.
Qed.

Lemma parse_key_quote (k tail : string) :
  parse_key (quote k ++ String ":" tail) = Some (k, tail).
Proof.
  unfold parse_key, quote. cbn [append].
  rewrite expect_hit by reflexivity.
  rewrite append_assoc. cbn [append].
  rewrite parse_chars_quote_chars.
  rewrite expect_hit by reflexivity. reflexivity.
Qed.

Lemma print_arr (l : list value) :
  print (VArr l) = String "[" (String.concat "," (map print l) ++ "]").
Proof. reflexivity. Qed.

Lemma print_obj (l : list (string * value)) :
  print (VObj l) = String "{" (String.concat "," (map member l) ++ "}").
Proof. reflexivity. Qed.

Lemma parse_elements_print (l : list value) :
  Forall reads_back l ->
  forallb serializable l = true ->
  l <> [] ->
  forall fuel acc rest,
    (list_sum (map (fun x => S (size x)) l) <= fuel)%nat ->
    parse_elements fuel acc
      (String.concat "," (map print l) ++ String "]" rest)
    = Some ((acc ++ l)%list, rest).
Proof.
  induction 1 as [|x l Hx Hl IH]; [congruence|].
  intros Hs _ fuel acc rest Hf.
  cbn [forallb] in Hs. apply andb_true_iff in Hs as [Hsx Hsl].
  cbn [map] in Hf. rewrite list_sum_cons in Hf.
  destruct fuel as [|fuel]; [lia|]. rewrite parse_elements_S.
  destruct l as [|y l'].
  - cbn [map String.concat].
    rewrite (Hx Hsx fuel (String "]" rest)) by (simpl in *; (lia || reflexivity)).
    rewrite expect_miss by reflexivity.
    rewrite expect_hit by reflexivity. reflexivity.
  - change (String.concat "," (map print (x :: y :: l')))
      with (print x ++ String "," (String.concat "," (map print (y :: l')))).
    rewrite append_assoc. cbn [append].
    rewrite (Hx Hsx fuel) by (simpl in *; (lia || reflexivity)).
    rewrite expect_hit by reflexivity.
    rewrite IH; [| exact Hsl | discriminate | simpl in *; lia ].
    rewrite <- app_assoc. reflexivity.
Qed.

Lemma assoc_set_fresh {A : Type} (k : string) (a : A) (l : list (string * A)) :
  existsb (String.eqb k) (map fst l) = false ->
  assoc_set k a l = (l ++ [(k, a)])%list.
Proof.
  induction l as [|[k' a'] l IH]; simpl; [reflexivity|].
  intros H. apply orb_false_iff in H as [H1 H2].
  rewrite H1, IH by exact H2. reflexivity.
Qed.

Lemma distinct_app_head (a : list string) (k : string) (b : list string) :
  distinct (a ++ k :: b)%list = true -> existsb (String.eqb k) a = false.
Proof.
  induction a as [|x a IH]; simpl; [reflexivity|].
  intros H. apply andb_true_iff in H as [H1 H2].
  rewrite (IH H2), orb_false_r.
  apply negb_true_iff in H1. rewrite existsb_app in H1.
  apply orb_false_iff in H1 as [_ H1]. simpl in H1.
  apply orb_false_iff in H1 as [H1 _]. now rewrite String.eqb_sym.
Qed.

Lemma parse_members_print (l : list (string * value)) :
  Forall (fun kv => reads_back (snd kv)) l ->
  forallb (fun kv => serializable (snd kv)) l = true ->
  l <> [] ->
  forall fuel acc rest,
    distinct (map fst acc ++ map fst l)%list = true ->
    (list_sum (map (fun kv => S (size (snd kv))) l) <= fuel)%nat ->
    parse_members fuel acc
      (String.concat "," (map member l) ++ String "}" rest)
    = Some ((acc ++ l)%list, rest).
Proof.
  induction 1 as [|[k x] l Hx Hl IH]; [congruence|].
  intros Hs _ fuel acc rest Hd Hf.
  cbn [forallb snd] in Hs. apply andb_true_iff in Hs as [Hsx Hsl].
  cbn [map snd fst] in Hf, Hd. rewrite list_sum_cons in Hf. cbn [snd] in Hx.
  pose proof (distinct_app_head _ _ _ Hd) as Hk.
  destruct fuel as [|fuel]; [lia|]. rewrite parse_members_S.
  destruct l as [|y l'].
  - cbn [map String.concat]. unfold member at 1. cbn [fst snd].
    rewrite !append_assoc. cbn [append].
    rewrite parse_key_quote.
    rewrite (Hx Hsx fuel (String "}" rest)) by (simpl in *; (lia || reflexivity)).
    rewrite expect_miss by reflexivity.
    rewrite expect_hit by reflexivity.
    rewrite (assoc_set_fresh _ _ _ Hk). reflexivity.
  - change (String.concat "," (map member ((k, x) :: y :: l')))
      with (member (k, x) ++ String "," (String.concat "," (map member (y :: l')))).
    unfold member at 1. cbn [fst snd].
    rewrite !append_assoc. cbn [append].
    rewrite parse_key_quote.
    rewrite (Hx Hsx fuel) by (simpl in *; (lia || reflexivity)).
    rewrite expect_hit by reflexivity.
    rewrite (assoc_set_fresh _ _ _ Hk).
    rewrite IH; [| exact Hsl | discriminate | | simpl in *; lia ].
    + rewrite <- app_assoc. reflexivity.
    + rewrite map_app, <- app_assoc. exact Hd.
Qed.

Lemma parse_value_print (v : value) : reads_back v.
Proof.
  induction v as [| |b|x|n|s|l IH|l IH] using value_ind_deep;
    unfold reads_back; intros Hs fuel rest Hf Hd;
    try discriminate Hs;
    (destruct fuel as [|fuel]; [simpl in Hf; lia|]).
  - reflexivity.
  - destruct b; reflexivity.
  - destruct x as [n|m e|i|]; try discriminate Hs.
    rewrite parse_value_S. cbn [print].
    destruct (number_first n) as (c & s & E & D).
    destruct (number_start_facts c D) as (V & Q & A & O & N & T & F).
    destruct (value_start_facts c V) as (W & _).
    pose proof (parse_number_print n rest Hd) as P.
    rewrite E in *. cbn [append] in *. cbn [skip_ws]. rewrite W.
    rewrite Q, A, O, N, T, F, P. reflexivity.
  - rewrite parse_value_S. cbn [print]. unfold quote. cbn [append skip_ws].
    change (is_ws dquote) with false. cbv iota.
    rewrite Ascii.eqb_refl, append_assoc. cbn [append].
    rewrite parse_chars_quote_chars. reflexivity.
  - rewrite parse_value_S, print_arr. cbn [append skip_ws].
    change (is_ws "[") with false. cbv iota.
    change (Ascii.eqb "[" dquote) with false.
    change (Ascii.eqb "[" "[") with true. cbv iota.
    rewrite append_assoc. cbn [append].
    destruct l as [|x l'].
    + reflexivity.
    + cbn [serializable] in Hs.
      assert (Hx : serializable x = true).
      { cbn [forallb] in Hs. now apply andb_true_iff in Hs as [? _]. }
      assert (E : expect "]" (String.concat "," (map print (x :: l'))
                              ++ String "]" rest) = None).
      { destruct l'; cbn [map String.concat]; [|rewrite append_assoc];
          apply expect_print_miss; auto. }
      rewrite E.
      rewrite (parse_elements_print (x :: l') IH Hs);
        [reflexivity | discriminate | cbn [size] in Hf; lia].
  - rewrite parse_value_S, print_obj. cbn [append skip_ws].
    change (is_ws "{") with false. cbv iota.
    change (Ascii.eqb "{" dquote) with false.
    change (Ascii.eqb "{" "[") with false.
    change (Ascii.eqb "{" "{") with true. cbv iota.
    rewrite append_assoc. cbn [append].
    destruct l as [|[k x] l'].
    + reflexivity.
    + cbn [serializable] in Hs. apply andb_true_iff in Hs as [Hk Hs].
      assert (E : expect "}" (String.concat "," (map member ((k, x) :: l'))
                              ++ String "}" rest) = None).
      { destruct l'; cbn [map String.concat]; unfold member at 1, quote;
          cbn [append]; apply expect_miss; reflexivity. }
      rewrite E.
      rewrite (parse_members_print ((k, x) :: l') IH Hs);
        [reflexivity | discriminate | exact Hk | cbn [size] in Hf; lia].
Qed.

(** *** [stringify] and [parse] *)

Lemma serialize_property_print (v : value) :
  serializable v = true -> serialize_property v = Ok (Some (print v)).
Proof.
  induction v as [| |b|x|n|s|l IH|l IH] using value_ind_deep;
    intros Hs; try discriminate Hs; try reflexivity.
  - rewrite print_arr. cbn [serialize_property serializable] in *.
    match goal with
    | |- match ?items l with _ => _ end = _ =>
        assert (E : items l = Ok (map print l))
    end.
    { induction IH as [|x l Hx _ IHl]; [reflexivity|].
      cbn [forallb] in Hs. apply andb_true_iff in Hs as [Hsx Hsl].
      rewrite (Hx Hsx), (IHl Hsl). reflexivity. }
    rewrite E. reflexivity.
  - rewrite print_obj. cbn [serialize_property serializable] in *.
    apply andb_true_iff in Hs as [_ Hs].
    match goal with
    | |- match ?members l with _ => _ end = _ =>
        assert (E : members l = Ok (map member l))
    end.
    { induction IH as [|[k x] l Hx _ IHl]; [reflexivity|].
      cbn [forallb snd] in Hs. apply andb_true_iff in Hs as [Hsx Hsl].
      cbn [snd] in Hx. rewrite (Hx Hsx), (IHl Hsl). reflexivity. }
    rewrite E. reflexivity.
Qed.

Lemma size_elements_bound {A : Type} (f : A -> nat) (g : A -> string)
  (l : list A) :
  Forall (fun x => (f x <= 2 * String.length (g x) + 1)%nat) l ->
  (list_sum (map (fun x => S (f x)) l)
   <= 2 * String.length (String.concat "," (map g l)) + 2)%nat.
Proof.
  induction 1 as [|x l Hx Hl IH]; [simpl; lia|].
  cbn [map]. rewrite list_sum_cons.
  destruct l as [|y l'].
  - cbn [map String.concat list_sum fold_right]. lia.
  - change (String.concat "," (g x :: map g (y :: l')))
      with (g x ++ String "," (String.concat "," (map g (y :: l')))).
    rewrite length_append. cbn [String.length]. lia.
Qed.

Lemma size_bound (v : value) : (size v <= 2 * String.length (print v) + 1)%nat.
Proof.
  induction v as [| |b|n|n|s|l IH|l IH] using value_ind_deep;
    try (cbn [size]; lia).
  - rewrite print_arr. cbn [size String.length]. rewrite length_append.
    pose proof (size_elements_bound size print l IH). cbn [String.length]. lia.
  - rewrite print_obj. cbn [size String.length]. rewrite length_append.
    pose proof (size_elements_bound (fun kv => size (snd kv)) member l) as H.
    cbn [String.length].
    assert (Forall (fun kv => (size (snd kv) <= 2 * String.length (member kv) + 1)%nat) l).
    { eapply Forall_impl; [|exact IH]. intros [k x] Hx. cbn [snd] in *.
      unfold member. cbn [fst snd]. rewrite !length_append. lia. }
    specialize (H H0). lia.
Qed.

Lemma stringify_print (v : value) :
  serializable v = true -> stringify v = Ok (print v).
Proof.
  intros Hs. unfold stringify.
  now rewrite (serialize_property_print v Hs).
Qed.

Lemma parse_print (v : value) :
  serializable v = true -> parse (print v) = Ok v.
Proof.
  intros Hs. unfold parse.
  rewrite <- (append_empty_r (print v)) at 2.
  rewrite (parse_value_print v Hs); [reflexivity | | reflexivity].
  pose proof (size_bound v). lia.
Qed.

(** [JSON.parse(JSON.stringify(v))] is [v] for a serializable [v]. *)
Lemma parse_stringify (v : value) :
  serializable v = true ->
  exists text, stringify v = Ok text /\ parse text = Ok v.
Proof.
  intros Hs. exists (print v).
  split; [now apply stringify_print | now apply parse_print].
Qed.

(** *** Fuel *)

Lemma skip_ws_length (s : string) :
  (String.length (skip_ws s) <= String.length s)%nat.
Proof.
  induction s as [|c s IH]; cbn [skip_ws]; [lia|].
  destruct (is_ws c); cbn [String.length]; lia.
Qed.

Lemma expect_length (c : ascii) (s rest : string) :
  expect c s = Some rest -> (String.length rest < String.length s)%nat.
Proof.
  unfold expect. pose proof (skip_ws_length s) as H.
  destruct (skip_ws s) as [|c' r]; [discriminate|].
  destruct (Ascii.eqb c' c); [|discriminate].
  intros [= <-]. cbn [String.length] in H. lia.
Qed.

Lemma cons_char_length (c : ascii) (r : option (string * string))
  (x rest : string) (n : nat) :
  (forall x' rest', r = Some (x', rest') -> (String.length rest' < n)%nat) ->
  cons_char c r = Some (x, rest) -> (String.length rest < n)%nat.
Proof.
  intros H. destruct r as [[x' rest']|]; [|discriminate].
  intros [= _ <-]. now apply (H x').
Qed.

Lemma parse_chars_length (s x rest : string) :
  parse_chars s = Some (x, rest) ->
  (String.length rest < String.length s)%nat.
Proof.
  remember (String.length s) as n eqn:En.
  revert s x rest En.
  induction n as [n IH] using lt_wf_ind. intros s x rest En.
  assert (Rec : forall c s' r,
             (String.length s' < n)%nat ->
             cons_char c (parse_chars s') = Some (x, r) ->
             (String.length r < n)%nat).
  { intros c s' r Hs'. apply cons_char_length. intros x' rest' E.
    pose proof (IH _ Hs' s' x' rest' eq_refl E). lia. }
  destruct s as [|c s]; [discriminate|]. cbn [parse_chars].
  cbn [String.length] in En.
  destruct (Ascii.eqb c dquote).
  { intros [= _ <-]. lia. }
  destruct (Ascii.eqb c "\").
  - destruct s as [|e s]; [discriminate|]. cbn [String.length] in En.
    destruct (Ascii.eqb e "u").
    + destruct s as [|h1 [|h2 [|h3 [|h4 s]]]]; try discriminate.
      cbn [String.length] in En.
      destruct (hex4 h1 h2 h3 h4) as [m|]; [|discriminate].
      destruct (m <? 128)%nat; [|discriminate].
      apply Rec. lia.
    + destruct (simple_escape e); [|discriminate]. apply Rec. lia.
  - destruct (nat_of_ascii c <? 32)%nat; [discriminate|]. apply Rec. lia.
Qed.

Lemma span_digits_length (s : string) :
  (String.length (fst (span_digits s)) + String.length (snd (span_digits s))
   = String.length s)%nat.
Proof.
  induction s as [|c s IH]; cbn [span_digits]; [reflexivity|].
  destruct (is_digit c); [|reflexivity].
  destruct (span_digits s) as [d r]. cbn [fst snd String.length] in *. lia.
Qed.

Lemma parse_digits_length (negative : bool) (s rest : string) (n : Z) :
  parse_digits negative s = Some (n, rest) ->
  (String.length rest < String.length s)%nat.
Proof.
  unfold parse_digits. pose proof (span_digits_length s) as L.
  destruct (span_digits s) as [ds rest0]. cbn [fst snd] in L.
  destruct ds as [|d ds]; [discriminate|]. cbn [String.length] in L.
  destruct (_ || _); [discriminate|].
  destruct (NilEmpty.uint_of_string _); [|discriminate].
  intros [= _ <-]. lia.
Qed.

Lemma parse_fraction_length (s fs rest : string) :
  parse_fraction s = Some (fs, rest) ->
  (String.length rest <= String.length s)%nat.
Proof.
  unfold parse_fraction. destruct s as [|c r]; [now intros [= _ <-]|].
  destruct (Ascii.eqb c "."); [|now intros [= _ <-]].
  pose proof (span_digits_length r) as L.
  destruct (span_digits r) as [d r']. cbn [fst snd] in L.
  destruct (String.eqb d EmptyString); [discriminate|].
  intros [= _ <-]. cbn [String.length]. lia.
Qed.

Lemma parse_exponent_length (s rest : string) (ex : Z) :
  parse_exponent s = Some (ex, rest) ->
  (String.length rest <= String.length s)%nat.
Proof.
  unfold parse_exponent. destruct s as [|c r]; [now intros [= _ <-]|].
  destruct (Ascii.eqb c "e" || Ascii.eqb c "E"); [|now intros [= _ <-]].
  cbv zeta.
  match goal with
  | |- context [span_digits ?x] =>
      assert (Lx : (String.length x <= String.length r)%nat)
        by (destruct r as [|c' r'];
            [apply Nat.le_refl
            | destruct (Ascii.eqb c' "-" || Ascii.eqb c' "+");
              cbn [String.length]; lia]);
      pose proof (span_digits_length x) as L;
      destruct (span_digits x) as [d r0]
  end.
  cbn [fst snd] in L.
  destruct (String.eqb d EmptyString); [discriminate|].
  intros [= _ <-]. cbn [String.length]. lia.
Qed.

Lemma parse_decimal_length (negative : bool) (s rest : string) (x : number) :
  parse_decimal negative s = Some (x, rest) ->
  (String.length rest < String.length s)%nat.
Proof.
  unfold parse_decimal. pose proof (span_digits_length s) as L.
  destruct (span_digits s) as [ds rest0]. cbn [fst snd] in L.
  destruct ds as [|d ds]; [discriminate|]. cbn [String.length] in L.
  destruct (_ || _); [discriminate|].
  destruct (parse_fraction rest0) as [[fs r1]|] eqn:F; [|discriminate].
  destruct (parse_exponent r1) as [[ex r2]|] eqn:X; [|discriminate].
  destruct (scale10 _ _ _). intros [= _ <-].
  apply parse_fraction_length in F. apply parse_exponent_length in X. lia.
Qed.

Lemma parse_number_length (s rest : string) (n : number) :
  parse_number s = Some (n, rest) ->
  (String.length rest < String.length s)%nat.
Proof.
  assert (U : forall negative s',
             parse_unsigned negative s' = Some (n, rest) ->
             (String.length rest < String.length s')%nat).
  { intros negative s'. unfold parse_unsigned.
    destruct (parse_digits negative s') as [[z r]|] eqn:E.
    - intros [= _ <-]. now apply parse_digits_length in E.
    - apply parse_decimal_length. }
  unfold parse_number. destruct s as [|c s']; [discriminate|].
  destruct (Ascii.eqb c "-"); intros H; apply U in H;
    cbn [String.length] in *; lia.
Qed.

Lemma strip_prefix_length (p s rest : string) :
  strip_prefix p s = Some rest ->
  (String.length rest + String.length p = String.length s)%nat.
Proof.
  revert s. induction p as [|a p IH]; intros s; cbn [strip_prefix].
  - intros [= <-]. cbn. lia.
  - destruct s as [|b s]; [discriminate|].
    destruct (Ascii.eqb a b); [|discriminate].
    intros H. apply IH in H. cbn [String.length]. lia.
Qed.

Lemma parse_literal_length (lit : string) (v w : value) (s rest : string) :
  lit <> EmptyString ->
  parse_literal lit v s = Some (w, rest) ->
  (String.length rest < String.length s)%nat.
Proof.
  intros N. unfold parse_literal.
  destruct (strip_prefix lit s) as [r|] eqn:E; [|discriminate].
  intros [= _ <-]. apply strip_prefix_length in E.
  destruct lit; [congruence|]. cbn [String.length] in E. lia.
Qed.

Lemma parse_key_length (s k rest : string) :
  parse_key s = Some (k, rest) ->
  (String.length rest < String.length s)%nat.
Proof.
  unfold parse_key.
  destruct (expect dquote s) as [r1|] eqn:E1; [|discriminate].
  destruct (parse_chars r1) as [[k' r2]|] eqn:E2; [|discriminate].
  destruct (expect ":" r2) as [r3|] eqn:E3; [|discriminate].
  intros [= _ <-].
  apply expect_length in E1, E3. apply parse_chars_length in E2. lia.
Qed.

(** Every reader consumes at least one character. *)
Lemma parse_value_length (fuel : nat) :
  (forall s v rest,
      parse_value fuel s = Some (v, rest) ->
      (String.length rest < String.length s)%nat)
  /\ (forall acc s l rest,
         parse_elements fuel acc s = Some (l, rest) ->
         (String.length rest < String.length s)%nat)
  /\ (forall acc s l rest,
         parse_members fuel acc s = Some (l, rest) ->
         (String.length rest < String.length s)%nat).
Proof.
  induction fuel as [|fuel (IHv & IHe & IHm)];
    [repeat split; intros; discriminate|].
  split; [|split].
  - intros s v rest. rewrite parse_value_S.
    pose proof (skip_ws_length s) as W.
    destruct (skip_ws s) as [|c r]; [discriminate|].
    cbn [String.length] in W.
    destruct (Ascii.eqb c dquote).
    { destruct (parse_chars r) as [[x r']|] eqn:E; [|discriminate].
      intros [= _ <-]. apply parse_chars_length in E. lia. }
    destruct (Ascii.eqb c "[").
    { destruct (expect "]" r) as [r'|] eqn:E.
      - intros [= _ <-]. apply expect_length in E. lia.
      - destruct (parse_elements fuel [] r) as [[l r']|] eqn:E';
          [|discriminate].
        intros [= _ <-]. apply IHe in E'. lia. }
    destruct (Ascii.eqb c "{").
    { destruct (expect "}" r) as [r'|] eqn:E.
      - intros [= _ <-]. apply expect_length in E. lia.
      - destruct (parse_members fuel [] r) as [[l r']|] eqn:E';
          [|discriminate].
        intros [= _ <-]. apply IHm in E'. lia. }
    destruct (Ascii.eqb c "n").
    { intros H. apply parse_literal_length in H; [|discriminate].
      cbn [String.length] in H. lia. }
    destruct (Ascii.eqb c "t").
    { intros H. apply parse_literal_length in H; [|discriminate].
      cbn [String.length] in H. lia. }
    destruct (Ascii.eqb c "f").
    { intros H. apply parse_literal_length in H; [|discriminate].
      cbn [String.length] in H. lia. }
    cbv zeta. destruct (parse_number (String c r)) as [[n r']|] eqn:E; [|discriminate].
    intros [= _ <-]. apply parse_number_length in E.
    cbn [String.length] in E. lia.
  - intros acc s l rest. rewrite parse_elements_S.
    destruct (parse_value fuel s) as [[v r]|] eqn:E; [|discriminate].
    apply IHv in E.
    destruct (expect "," r) as [r'|] eqn:E1.
    + intros H. apply IHe in H. apply expect_length in E1. lia.
    + destruct (expect "]" r) as [r'|] eqn:E2; [|discriminate].
      intros [= _ <-]. apply expect_length in E2. lia.
  - intros acc s l rest. rewrite parse_members_S.
    destruct (parse_key s) as [[k r0]|] eqn:E0; [|discriminate].
    apply parse_key_length in E0.
    destruct (parse_value fuel r0) as [[v r]|] eqn:E; [|discriminate].
    apply IHv in E.
    destruct (expect "," r) as [r'|] eqn:E1.
    + intros H. apply IHm in H. apply expect_length in E1. lia.
    + destruct (expect "}" r) as [r'|] eqn:E2; [|discriminate].
      intros [= _ <-]. apply expect_length in E2. lia.
Qed.

(** With the fuel of [parse], the result of a reader does not depend on the
    fuel: it never runs out. *)
Lemma parse_value_fuel (fuel : nat) :
  (forall s fuel',
      (2 * String.length s + 2 <= fuel)%nat ->
      (2 * String.length s + 2 <= fuel')%nat ->
      parse_value fuel s = parse_value fuel' s)
  /\ (forall acc s fuel',
         (2 * String.length s + 3 <= fuel)%nat ->
         (2 * String.length s + 3 <= fuel')%nat ->
         parse_elements fuel acc s = parse_elements fuel' acc s)
  /\ (forall acc s fuel',
         (2 * String.length s + 3 <= fuel)%nat ->
         (2 * String.length s + 3 <= fuel')%nat ->
         parse_members fuel acc s = parse_members fuel' acc s).
Proof.
  induction fuel as [|fuel (IHv & IHe & IHm)];
    [repeat split; intros; lia|].
  split; [|split].
  - intros s [|fuel'] F F'; [lia|]. rewrite !parse_value_S.
    pose proof (skip_ws_length s) as W.
    destruct (skip_ws s) as [|c r]; [reflexivity|].
    cbn [String.length] in W.
    rewrite (IHe [] r fuel') by lia.
    rewrite (IHm [] r fuel') by lia.
    reflexivity.
  - intros acc s [|fuel'] F F'; [lia|]. rewrite !parse_elements_S.
    rewrite (IHv s fuel') by lia.
    destruct (parse_value fuel' s) as [[v r]|] eqn:E; [|reflexivity].
    apply (proj1 (parse_value_length fuel')) in E.
    destruct (expect "," r) as [r'|] eqn:E1; [|reflexivity].
    apply expect_length in E1. apply IHe; lia.
  - intros acc s [|fuel'] F F'; [lia|]. rewrite !parse_members_S.
    destruct (parse_key s) as [[k r0]|] eqn:E0; [|reflexivity].
    apply parse_key_length in E0.
    rewrite (IHv r0 fuel') by lia.
    destruct (parse_value fuel' r0) as [[v r]|] eqn:E; [|reflexivity].
    apply (proj1 (parse_value_length fuel')) in E.
    destruct (expect "," r) as [r'|] eqn:E1; [|reflexivity].
    apply expect_length in E1. apply IHm; lia.
Qed.

(** [parse] with more fuel is [parse]. *)
Lemma parse_fuel (text : string) (fuel : nat) :
  (2 * String.length text + 2 <= fuel)%nat ->
  parse text =
  match parse_value fuel text with
  | Some (v, rest) =>
      match skip_ws rest with
      | EmptyString => Ok v
      | String _ _ => Throw SyntaxError
      end
  | None => Throw SyntaxError
  end.
Proof.
  intros F. unfold parse.
  now rewrite (proj1 (parse_value_fuel _) text fuel) by lia.
Qed.

End JSONFacts.

(** ** Tables *)

Section Tables.
Context {A : Type}.
Implicit Types (k : string) (a : A) (l : list (string * A)).

Lemma assoc_get_set_same k a l : assoc_get k (assoc_set k a l) = Some a.
Proof.
  induction l as [|[k' a'] l IH]; simpl.
  - now rewrite String.eqb_refl.
  - destruct (String.eqb k k') eqn:E; simpl; rewrite E; auto.
Qed.

Lemma assoc_get_set_other k k' a l :
  k' <> k -> assoc_get k' (assoc_set k a l) = assoc_get k' l.
Proof.
  intros N. induction l as [|[k0 a0] l IH]; simpl.
  - apply String.eqb_neq in N. now rewrite N.
  - destruct (String.eqb_spec k k0) as [->|]; simpl.
    + apply String.eqb_neq in N. now rewrite N.
    + now rewrite IH.
Qed.

Lemma assoc_get_remove_same k l : assoc_get k (assoc_remove k l) = None.
Proof.
  unfold assoc_remove.
  induction l as [|[k' a'] l IH]; simpl; [reflexivity|].
  destruct (String.eqb k k') eqn:E; simpl; [exact IH|].
  now rewrite E.
Qed.

Lemma assoc_get_remove_other k k' l :
  k' <> k -> assoc_get k' (assoc_remove k l) = assoc_get k' l.
Proof.
  intros N. unfold assoc_remove.
  induction l as [|[k0 a0] l IH]; simpl; [reflexivity|].
  destruct (String.eqb_spec k k0) as [->|]; simpl.
  - apply String.eqb_neq in N. now rewrite N.
  - now rewrite IH.
Qed.

Lemma assoc_get_enumerated k a l :
  assoc_get k l = Some a ->
  exists i, (i < List.length l)%nat /\ nth_error (map fst l) i = Some k.
Proof.
  induction l as [|[k' a'] l IH]; simpl; [discriminate|].
  destruct (String.eqb_spec k k') as [->|]; intros H.
  - exists 0%nat. split; [lia | reflexivity].
  - destruct (IH H) as (i & Hi & E). exists (S i). split; [lia | exact E].
Qed.
End Tables.

Lemma set_delete_not_in (k : string) (s : list string) :
  ~ In k (set_delete k s).
Proof.
  unfold set_delete. intros H. apply filter_In in H as [_ H].
  now rewrite String.eqb_refl in H.
Qed.

Lemma set_add_in (k : string) (s : list string) : In k (set_add k s).
Proof.
  unfold set_add. destruct (existsb (String.eqb k) s) eqn:E.
  - apply existsb_exists in E as (x & Hx & E).
    apply String.eqb_eq in E. now subst.
  - apply in_or_app. right. now left.
Qed.

(** ** Backends *)

Lemma MemoryStorage_lawful : Lawful MemoryStorage_methods.
Proof.
  constructor; simpl.
  - intros c key. eauto.
  - intros c key value. eexists. split; [reflexivity|]. split.
    + now rewrite assoc_get_set_same.
    + intros key' N. now rewrite assoc_get_set_other.
  - intros c key. eexists. split; [reflexivity|]. split.
    + now rewrite assoc_get_remove_same.
    + intros key' N. now rewrite assoc_get_remove_other.
  - intros f [= <-] c. split; [eauto|].
    intros key value [= H].
    destruct (assoc_get_enumerated _ _ _ H) as (i & Hi & E).
    exists i. rewrite E. auto.
Qed.

Lemma KeylessStorage_lawful : Lawful KeylessStorage_methods.
Proof.
  pose proof MemoryStorage_lawful as [G S R _].
  constructor; simpl; auto. discriminate.
Qed.

Lemma lawful_memory (table : MemoryStorage) : lawful (memory_storage table).
Proof. exact MemoryStorage_lawful. Qed.

Lemma lawful_getItem (s : StorageLike) (key : string) :
  lawful s -> exists r, storage_getItem s key = Ok r.
Proof. intros L. apply (getItem_total _ L). Qed.

Lemma lawful_setItem (s : StorageLike) (key value : string) :
  lawful s ->
  exists s',
    storage_setItem s key value = (s', Ok tt) /\ lawful s'
    /\ storage_getItem s' key = Ok (Some value)
    /\ (forall key', key' <> key ->
                     storage_getItem s' key' = storage_getItem s key').
Proof.
  intros L. destruct (setItem_spec _ L (this s) key value) as (c & E & G & F).
  exists (with_this s c). unfold storage_setItem. rewrite E.
  split; [reflexivity|]. split; [exact L|]. split; [exact G | exact F].
Qed.


Lemma lawful_removeItem (s : StorageLike) (key : string) :
  lawful s ->
  exists s',
    storage_removeItem s key = (s', Ok tt) /\ lawful s'
    /\ storage_getItem s' key = Ok None
    /\ (forall key', key' <> key ->
                     storage_getItem s' key' = storage_getItem s key').
Proof.
  intros L. destruct (removeItem_spec _ L (this s) key) as (c & E & G & F).
  exists (with_this s c). unfold storage_removeItem. rewrite E.
  split; [reflexivity|]. split; [exact L|]. split; [exact G | exact F].
Qed.

(** ** Payloads *)

Lemma make_payload_cases (v : value) (ttlSeconds : option number) (now : Z) :
  (exists t, ttlSeconds = Some t /\ Number_lt 0 t = true
             /\ make_payload v ttlSeconds now
                = VObj [("value", v); ("expiresAt", VNum (deadline t now))])
  \/ ((forall t, ttlSeconds = Some t -> Number_lt 0 t = false)
      /\ make_payload v ttlSeconds now = VObj [("value", v)]).
Proof.
  unfold make_payload. destruct ttlSeconds as [t|].
  - destruct (Number_lt 0 t) eqn:P.
    + left. exists t. rewrite (Number_positive_truthy t P).
      repeat split; auto.
    + right. rewrite andb_false_r. split; [|reflexivity].
      now intros ? [= <-].
  - right. split; [discriminate | reflexivity].
Qed.

Lemma make_payload_value (v : value) (ttlSeconds : option number) (now : Z) :
  get_prop (make_payload v ttlSeconds now) "value" = v.
Proof.
  destruct (make_payload_cases v ttlSeconds now) as [(t & _ & _ & ->)|[_ ->]];
    reflexivity.
Qed.

Lemma make_payload_truthy (v : value) (ttlSeconds : option number) (now : Z) :
  truthy (make_payload v ttlSeconds now) = true.
Proof.
  destruct (make_payload_cases v ttlSeconds now) as [(t & _ & _ & ->)|[_ ->]];
    reflexivity.
Qed.

(** The payload of a serializable value is serializable when its deadline,
    if it has one, is an integer. *)
Lemma make_payload_serializable (v : value) (ttlSeconds : option number)
  (now : Z) :
  JSON.serializable v = true ->
  (forall T, ttlSeconds = Some T -> Number_lt 0 T = true ->
             exists z, deadline T now = Int z) ->
  JSON.serializable (make_payload v ttlSeconds now) = true.
Proof.
  intros H I.
  destruct (make_payload_cases v ttlSeconds now) as [(t & E & P & ->)|[_ ->]].
  - destruct (I t E P) as (z & ->). simpl. now rewrite H.
  - simpl. now rewrite H.
Qed.

(** With the default codec every serializable payload is read back. *)
Lemma JSON_codec_roundtrip (st : Store) (p : value) :
  serializer st = JSON.stringify -> deserializer st = JSON.parse ->
  JSON.serializable p = true ->
  codec_roundtrip st p.
Proof.
  intros Hser Hdes Hs. exists (JSON.print p). rewrite Hser, Hdes.
  rewrite JSONFacts.stringify_print, JSONFacts.parse_print by exact Hs.
  repeat split.
  destruct (JSONFacts.print_first p Hs) as (c & s & -> & _). discriminate.
Qed.

Section StoreFacts.
Variable le : string -> Z -> bool.

Lemma isExpired_make_payload (v : value) (ttlSeconds : option number)
  (t0 t : Z) :
  isExpired le (make_payload v ttlSeconds t0) t
  = Ok (deadline_passed ttlSeconds t0 t).
Proof.
  unfold deadline_passed.
  destruct (make_payload_cases v ttlSeconds t0) as [(T & -> & P & ->)|[N ->]].
  - rewrite P. generalize (deadline T t0). intros D.
    unfold isExpired. cbn.
    destruct (Number_truthy D); reflexivity.
  - destruct ttlSeconds as [T|]; [|reflexivity].
    now rewrite (N T eq_refl).
Qed.

(** A deadline of exactly 0 is falsy: [isExpired] takes it for no
    deadline.  It is installed when the clock reads [- T * 1000], before the
    epoch. *)
Remark deadline_zero_never_passed (T : number) (t0 t : Z) :
  deadline T t0 = Int 0 -> deadline_passed (Some T) t0 t = false.
Proof.
  unfold deadline_passed. intros ->. cbn. now rewrite andb_false_r.
Qed.

(** A payload without a positive TTL never expires. *)
Lemma deadline_passed_not_positive (ttlSeconds : option number) (t0 t : Z) :
  (forall T, ttlSeconds = Some T -> Number_lt 0 T = false) ->
  deadline_passed ttlSeconds t0 t = false.
Proof.
  intros N. destruct ttlSeconds as [T|]; [|reflexivity].
  unfold deadline_passed. now rewrite (N T eq_refl).
Qed.

Lemma decode_parsed (raw : string) (p : value) (d : string -> result value) :
  raw <> EmptyString -> d raw = Ok p -> decode (Some raw) d = p.
Proof.
  intros N E. unfold decode. destruct raw; [congruence|]. now rewrite E.
Qed.

(** [get] on an entry that parses to a truthy value. *)
Lemma get_parsed (st : Store) (now : Z) (k raw : string) (p : value) :
  let sk := makeKey (namespace st) k in
  storage_getItem (storage st) sk = Ok (Some raw) ->
  raw <> EmptyString ->
  deserializer st raw = Ok p ->
  truthy p = true ->
  get le st now k =
  match isExpired le p now with
  | Throw e => (st, Throw e)
  | Ok true =>
      let (s, r) := storage_removeItem (storage st) sk in
      match r with
      | Throw e => (with_storage st s, Throw e)
      | Ok _ =>
          (with_trackedKeys (with_storage st s)
             (set_delete sk (trackedKeys st)), Ok VNull)
      end
  | Ok false =>
      (with_trackedKeys st (set_add sk (trackedKeys st)),
       Ok (get_prop p "value"))
  end.
Proof.
  intros sk G N D T. unfold get. fold sk. rewrite G.
  rewrite (decode_parsed raw p _ N D), T. reflexivity.
Qed.

(** [get] on a key without an entry. *)
Lemma get_absent (st : Store) (now : Z) (k : string) :
  storage_getItem (storage st) (makeKey (namespace st) k) = Ok None ->
  get le st now k
  = (with_trackedKeys st
       (set_delete (makeKey (namespace st) k) (trackedKeys st)), Ok VNull).
Proof. intros G. unfold get. now rewrite G. Qed.

(** [set] on a lawful backend, once the payload is serialized. *)
Lemma set_written (st : Store) (now : Z) (k : string) (v : value)
  (o : option SetOptions) (raw : string) :
  let sk := makeKey (namespace st) k in
  lawful (storage st) ->
  serializer st (make_payload v (effective_ttl st o) now) = Ok raw ->
  exists s,
    set st now k v o
    = (with_trackedKeys (with_storage st s) (set_add sk (trackedKeys st)),
       Ok tt)
    /\ lawful s
    /\ storage_getItem s sk = Ok (Some raw)
    /\ (forall key, key <> sk ->
                    storage_getItem s key = storage_getItem (storage st) key).
Proof.
  intros sk L E.
  destruct (lawful_setItem (storage st) sk raw L) as (s & W & Ls & G & F).
  exists s. unfold set, encode. fold sk. rewrite E, W. auto.
Qed.

(** What a [get] answers after a [set], at any later reading [t] of the
    clock. *)
Lemma set_then_get (st : Store) (t0 : Z) (k : string) (v : value)
  (o : option SetOptions) :
  lawful (storage st) ->
  codec_roundtrip st (make_payload v (effective_ttl st o) t0) ->
  exists st1,
    set st t0 k v o = (st1, Ok tt)
    /\ lawful (storage st1) /\ same_config st st1
    /\ forall t, exists st2,
        get le st1 t k
        = (st2, Ok (if deadline_passed (effective_ttl st o) t0 t
                    then VNull else v))
        /\ lawful (storage st2) /\ same_config st st2.
Proof.
  intros L (raw & S & N & D).
  destruct (set_written st t0 k v o raw L S) as (s & E & Ls & G & _).
  set (st1 := with_trackedKeys (with_storage st s)
                (set_add (makeKey (namespace st) k) (trackedKeys st))) in *.
  exists st1. split; [exact E|]. split; [exact Ls|].
  split; [repeat split|]. intros t.
  rewrite (get_parsed st1 t k raw _ G N D (make_payload_truthy _ _ _)).
  rewrite isExpired_make_payload.
  destruct (deadline_passed (effective_ttl st o) t0 t).
  - destruct (lawful_removeItem (storage st1) (makeKey (namespace st1) k) Ls)
      as (s' & -> & Ls' & _).
    eexists. split; [reflexivity|]. split; [exact Ls' | repeat split].
  - rewrite make_payload_value.
    eexists. split; [reflexivity|]. split; [exact Ls | repeat split].
Qed.

End StoreFacts.

(** ** Keys and prefixes *)

Lemma prefix_cons (a b : ascii) (s t : string) :
  String.prefix (String a s) (String b t) = Ascii.eqb a b && String.prefix s t.
Proof.
  cbn [String.prefix].
  destruct (ascii_dec a b) as [->|N].
  - now rewrite Ascii.eqb_refl.
  - apply Ascii.eqb_neq in N. now rewrite N.
Qed.

Lemma prefix_append (a b : string) : String.prefix a (a ++ b) = true.
Proof.
  induction a as [|c a IH]; cbn [append]; [now destruct b|].
  now rewrite prefix_cons, Ascii.eqb_refl, IH.
Qed.

Lemma prefix_makeKey (ns key : string) :
  String.prefix (ns ++ ":") (makeKey ns key) = true.
Proof.
  unfold makeKey. rewrite <- append_assoc. apply prefix_append.
Qed.

Lemma prefix_other_namespace (na nb key : string) :
  colon_free na = true -> colon_free nb = true -> na <> nb ->
  String.prefix (na ++ ":") (makeKey nb key) = false.
Proof.
  unfold makeKey. revert nb.
  induction na as [|a na IH]; intros [|b nb] Fa Fb N;
    cbn [append colon_free] in *; try congruence; rewrite prefix_cons.
  - apply andb_true_iff in Fb as [Fb _]. apply negb_true_iff in Fb.
    now rewrite Ascii.eqb_sym, Fb.
  - apply andb_true_iff in Fa as [Fa _]. apply negb_true_iff in Fa.
    now rewrite Fa.
  - apply andb_true_iff in Fa as [_ Fa]. apply andb_true_iff in Fb as [_ Fb].
    destruct (Ascii.eqb_spec a b) as [->|]; [|reflexivity].
    apply IH; auto. congruence.
Qed.

Lemma makeKey_other_namespace (na nb ka kb : string) :
  colon_free na = true -> colon_free nb = true -> na <> nb ->
  makeKey na ka <> makeKey nb kb.
Proof.
  intros Fa Fb N E.
  pose proof (prefix_makeKey na ka) as P. rewrite E in P.
  now rewrite (prefix_other_namespace na nb kb Fa Fb N) in P.
Qed.

(** ** The invariant of tracked keys *)

Lemma tracked_wf_add (st : Store) (k : string) (s : StorageLike) :
  tracked_wf st ->
  tracked_wf (with_trackedKeys (with_storage st s)
                (set_add (makeKey (namespace st) k) (trackedKeys st))).
Proof.
  unfold tracked_wf, set_add. cbn. intros H.
  destruct (existsb _ _); [exact H|].
  apply Forall_app. split; [exact H|].
  constructor; [apply prefix_makeKey | constructor].
Qed.

Lemma tracked_wf_delete (st : Store) (sk : string) (s : StorageLike) :
  tracked_wf st ->
  tracked_wf (with_trackedKeys (with_storage st s)
                (set_delete sk (trackedKeys st))).
Proof.
  unfold tracked_wf, set_delete. cbn. intros H.
  apply Forall_forall. intros x Hx. apply filter_In in Hx as [Hx _].
  exact (proj1 (Forall_forall _ _) H x Hx).
Qed.

Lemma with_storage_same (st : Store) : with_storage st (storage st) = st.
Proof. now destruct st. Qed.

(** ** What each operation preserves *)

Section Preservation.
Variable le : string -> Z -> bool.

Lemma preserved_refl (st : Store) (sk : string) :
  lawful (storage st) -> preserved st st sk.
Proof.
  intros L. split; [exact L|]. split; [repeat split|]. split; auto.
Qed.

Lemma set_preserved (st : Store) (now : Z) (k : string) (v : value)
  (o : option SetOptions) :
  lawful (storage st) ->
  preserved st (fst (set st now k v o)) (makeKey (namespace st) k).
Proof.
  intros L. unfold set.
  destruct (encode v (effective_ttl st o) (serializer st) now) as [raw|e];
    [|now apply preserved_refl].
  destruct (lawful_setItem (storage st) (makeKey (namespace st) k) raw L)
    as (s & -> & Ls & _ & F).
  split; [exact Ls|]. split; [repeat split|].
  split; [apply tracked_wf_add | exact F].
Qed.

Lemma remove_preserved (st : Store) (k : string) :
  lawful (storage st) ->
  preserved st (fst (remove st k)) (makeKey (namespace st) k).
Proof.
  intros L. unfold remove.
  destruct (lawful_removeItem (storage st) (makeKey (namespace st) k) L)
    as (s & -> & Ls & _ & F).
  split; [exact Ls|]. split; [repeat split|].
  split; [apply tracked_wf_delete | exact F].
Qed.

Lemma get_preserved (st : Store) (now : Z) (k : string) :
  lawful (storage st) ->
  preserved st (fst (get le st now k)) (makeKey (namespace st) k).
Proof.
  intros L. unfold get.
  destruct (storage_getItem (storage st) (makeKey (namespace st) k))
    as [raw|e]; [|now apply preserved_refl].
  destruct (isExpired le (decode raw (deserializer st)) now) as [[|]|e];
    [| |now apply preserved_refl].
  - destruct (lawful_removeItem (storage st) (makeKey (namespace st) k) L)
      as (s & -> & Ls & _ & F).
    split; [exact Ls|]. split; [repeat split|].
    split; [apply tracked_wf_delete | exact F].
  - destruct (negb (truthy (decode raw (deserializer st)))); cbn [fst].
    + split; [exact L|]. split; [repeat split|]. split; [|reflexivity].
      intros W. rewrite <- (with_storage_same st) at 1.
      now apply tracked_wf_delete.
    + split; [exact L|]. split; [repeat split|]. split; [|reflexivity].
      intros W. rewrite <- (with_storage_same st) at 1.
      now apply tracked_wf_add.
Qed.

End Preservation.

(** ** [clear] *)

Lemma removeEach_lawful (keys : list string) (s : StorageLike) :
  lawful s ->
  exists s',
    removeEach s keys = (s', Ok tt) /\ lawful s'
    /\ (forall key, ~ In key keys ->
                    storage_getItem s' key = storage_getItem s key)
    /\ (forall key, In key keys -> storage_getItem s' key = Ok None).
Proof.
  revert s. induction keys as [|k keys IH]; intros s L.
  - exists s. split; [reflexivity|]. split; [exact L|].
    split; [reflexivity | intros ? []].
  - cbn [removeEach].
    destruct (lawful_removeItem s k L) as (s1 & -> & L1 & G1 & F1).
    destruct (IH s1 L1) as (s' & E & L' & F' & G').
    exists s'. split; [exact E|]. split; [exact L'|]. split.
    + intros key N. rewrite F' by (intros I; apply N; now right).
      apply F1. intros ->. apply N. now left.
    + intros key [<-|I]; [|now apply G'].
      destruct (in_dec string_dec k keys) as [I|I]; [now apply G'|].
      now rewrite F'.
Qed.

Lemma collectKeys_lawful (f : nat -> result (option string)) (prefix : string)
  (n i : nat) (acc : list string) :
  (forall j, exists r, f j = Ok r) ->
  exists ks,
    collectKeys f prefix n i acc = Ok ks
    /\ (forall key, In key ks ->
                    In key acc \/ String.prefix prefix key = true)
    /\ (forall key, In key acc -> In key ks)
    /\ (forall j key,
           (i <= j < i + n)%nat -> f j = Ok (Some key) ->
           key <> EmptyString -> String.prefix prefix key = true ->
           In key ks).
Proof.
  intros T. revert i acc.
  induction n as [|n IH]; intros i acc; cbn [collectKeys].
  - exists acc. split; [reflexivity|]. split; [auto|]. split; [auto|].
    intros; lia.
  - destruct (T i) as (r & E). rewrite E.
    match goal with
    | |- exists ks, collectKeys f prefix n (S i) ?a = _ /\ _ =>
        destruct (IH (S i) a) as (ks & C & Sound & Mono & Complete)
    end.
    exists ks. split; [exact C|]. split; [|split].
    + intros key I. destruct (Sound key I) as [H|H]; [|now right].
      destruct r as [k|]; [|now left].
      destruct (negb (String.eqb k EmptyString) && String.prefix prefix k)
        eqn:B; [|now left].
      apply in_app_or in H as [H|[<-|[]]]; [now left|].
      right. now apply andb_true_iff in B as [_ B].
    + intros key I. apply Mono.
      destruct r as [k|]; [|exact I].
      destruct (negb (String.eqb k EmptyString) && String.prefix prefix k);
        [apply in_or_app; now left | exact I].
    + intros j key Hj Ej Nk Pk.
      destruct (Nat.eq_dec j i) as [->|Nj].
      * apply Mono. rewrite E in Ej. injection Ej as ->.
        apply String.eqb_neq in Nk. rewrite Nk, Pk. cbn.
        apply in_or_app. right. now left.
      * apply (Complete j key); auto. lia.
Qed.

Lemma prefix_nonempty (p key : string) :
  p <> EmptyString -> String.prefix p key = true -> key <> EmptyString.
Proof. destruct p, key; cbn; congruence. Qed.

Lemma namespace_prefix_nonempty (ns : string) : ns ++ ":" <> EmptyString.
Proof. destruct ns; discriminate. Qed.

(** [clear] on a lawful backend: it does not throw, it leaves every key
    outside the namespace as it is and, when the backend enumerates its
    keys, it removes every key of the namespace. *)
Lemma clear_lawful (st : Store) :
  lawful (storage st) ->
  tracked_wf st ->
  exists st',
    clear st = (st', Ok tt)
    /\ lawful (storage st') /\ same_config st st' /\ tracked_wf st'
    /\ (forall key,
           String.prefix (namespace st ++ ":") key = false ->
           storage_getItem (storage st') key = storage_getItem (storage st) key)
    /\ (storage_key (storage st) <> None ->
        forall key,
          String.prefix (namespace st ++ ":") key = true ->
          storage_getItem (storage st') key = Ok None).
Proof.
  intros L W. unfold clear.
  destruct (storage_key (storage st)) as [f|] eqn:K.
  - unfold storage_key in K.
    destruct (m_key (methods (storage st))) as [f0|] eqn:K0; [|discriminate].
    injection K as <-.
    destruct (key_spec _ L f0 K0 (this (storage st))) as [T Enum].
    destruct (collectKeys_lawful (f0 (this (storage st))) (namespace st ++ ":")
                (storage_length (storage st)) 0 [] T)
      as (ks & -> & Sound & _ & Complete).
    destruct (removeEach_lawful ks (storage st) L) as (s' & -> & L' & F & G).
    eexists. split; [reflexivity|]. split; [exact L'|].
    split; [repeat split|]. split; [exact W|]. split.
    + intros key P. apply F. intros I.
      destruct (Sound key I) as [[]|P']. congruence.
    + intros _ key P.
      destruct (in_dec string_dec key ks) as [I|I]; [now apply G|].
      cbn [storage with_storage]. rewrite (F key I).
      destruct (lawful_getItem (storage st) key L) as ([value|] & E);
        [|exact E].
      exfalso. apply I.
      destruct (Enum key value E) as (i & Hi & Ei).
      apply (Complete i key); auto.
      * unfold storage_length. lia.
      * exact (prefix_nonempty _ _ (namespace_prefix_nonempty _) P).
  - destruct (removeEach_lawful (trackedKeys st) (storage st) L)
      as (s' & -> & L' & F & _).
    eexists. split; [reflexivity|]. split; [exact L'|].
    split; [repeat split|]. split; [constructor|]. split.
    + intros key P. apply F. intros I.
      pose proof (proj1 (Forall_forall _ _) W key I) as P'. cbn in P'.
      congruence.
    + congruence.
Qed.

(** ** The invariant of a store *)

Lemma createStore_tracked_wf (globalStorage : option StorageLike)
  (options : CreateStoreOptions) :
  tracked_wf (fst (createStore globalStorage options)).
Proof.
  unfold createStore.
  destruct (resolveStorage globalStorage (opt_storage options)).
  constructor.
Qed.

Lemma isStorageUsable_lawful (s : StorageLike) :
  lawful s -> lawful (fst (isStorageUsable s)).
Proof.
  intros L. unfold isStorageUsable.
  destruct (lawful_setItem s TEST_KEY "1" L) as (s1 & -> & L1 & _).
  destruct (lawful_removeItem s1 TEST_KEY L1) as (s2 & -> & L2 & _).
  exact L2.
Qed.

Lemma createStore_lawful (globalStorage : option StorageLike)
  (options : CreateStoreOptions) :
  lawful (detectStorage globalStorage (opt_storage options)) ->
  lawful (storage (fst (createStore globalStorage options))).
Proof.
  intros L. unfold createStore, resolveStorage.
  pose proof (isStorageUsable_lawful _ L) as L'.
  destruct (isStorageUsable _) as [s [|]]; [exact L' | exact (lawful_memory [])].
Qed.

(** Whatever calls are made on it, a store over a lawful backend keeps its
    backend lawful, its configuration, and its tracked keys inside its
    namespace. *)
Lemma run_invariant (le : string -> Z -> bool) (calls : list call) (st : Store) :
  lawful (storage st) ->
  tracked_wf st ->
  let st' := fold_left (run le) calls st in
  lawful (storage st') /\ tracked_wf st' /\ same_config st st'.
Proof.
  revert st. induction calls as [|c calls IH]; intros st L W; cbn [fold_left].
  - split; [exact L|]. split; [exact W | repeat split].
  - assert (H : lawful (storage (run le st c)) /\ tracked_wf (run le st c)
                /\ same_config st (run le st c)).
    { destruct c as [now key|now key v o|key|]; cbn [run].
      - destruct (get_preserved le st now key L) as (L' & C & W' & _). auto.
      - destruct (set_preserved st now key v o L) as (L' & C & W' & _). auto.
      - destruct (remove_preserved st key L) as (L' & C & W' & _). auto.
      - destruct (clear_lawful st L W) as (st' & -> & L' & C & W' & _). auto. }
    destruct H as (L' & W' & C1 & C2 & C3 & C4).
    destruct (IH _ L' W') as (L'' & W'' & D1 & D2 & D3 & D4).
    split; [exact L''|]. split; [exact W''|].
    repeat split; congruence.
Qed.

(** * The properties of the specification *)


(** With integers below [2^53], [deadline_passed] is the comparison of the
    exact sum with the clock. *)
Lemma deadline_passed_exact (T t0 t : Z) :
  safe_integer (T * 1000) -> safe_integer (t0 + T * 1000) ->
  deadline_passed (Some (Int T)) t0 t
  = (0 <? T) && negb (t0 + T * 1000 =? 0) && (t0 + T * 1000 <=? t).
Proof.
  intros Hm Hs. unfold deadline_passed.
  now rewrite (deadline_exact T t0 Hm Hs), Number_lt_Int, Number_le_Int.
Qed.


Lemma probe_throws_iff (s : StorageLike) :
  snd (isStorageUsable s) = false <-> probe_throws s.
Proof.
  unfold isStorageUsable, probe_throws, throws.
  destruct (storage_setItem s TEST_KEY "1") as [s1 [[]|e1]]; cbn [fst snd].
  - destruct (storage_removeItem s1 TEST_KEY) as [s2 [[]|e2]]; cbn [snd].
    + split; [discriminate|]. intros [[e H]|[e H]]; discriminate H.
    + split; [|reflexivity]. intros _. right. now exists e2.
  - split; [|reflexivity]. intros _. left. now exists e1.
Qed.

Lemma strip_all_colons (s : string) :
  all_colons s = true -> strip_trailing_colons s = EmptyString.
Proof.
  induction s as [|c s IH]; simpl; [reflexivity|].
  intros H. apply andb_true_iff in H as [Hc Hs].
  now rewrite (IH Hs), Hc.
Qed.

Lemma strip_trailing_colons_spec (s : string) :
  exists cs, all_colons cs = true /\ s = strip_trailing_colons s ++ cs.
Proof.
  induction s as [|c s (cs & A & E)]; simpl.
  - exists EmptyString. auto.
  - destruct (strip_trailing_colons s) eqn:R.
    + destruct (Ascii.eqb_spec c ":") as [->|].
      * exists (String ":" cs). simpl in *. rewrite A. split; congruence.
      * exists cs. simpl in *. split; congruence.
    + exists cs. simpl in *. split; congruence.
Qed.

Section Properties.
Variable le : string -> Z -> bool.

(** [get] on an entry that [encode] wrote at time [t0]: it answers with
    the value until the deadline has passed; from then on it answers [null]
    and deletes the entry. *)
Lemma get_written (st : Store) (t0 t : Z) (k raw : string) (v : value)
  (ttlSeconds : option number) :
  let sk := makeKey (namespace st) k in
  lawful (storage st) ->
  storage_getItem (storage st) sk = Ok (Some raw) ->
  raw <> EmptyString ->
  deserializer st raw = Ok (make_payload v ttlSeconds t0) ->
  exists st',
    get le st t k
    = (st', Ok (if deadline_passed ttlSeconds t0 t then VNull else v))
    /\ preserved st st' sk
    /\ storage_getItem (storage st') sk
       = (if deadline_passed ttlSeconds t0 t then Ok None else Ok (Some raw)).
Proof.
  intros sk L G N D.
  pose proof (get_preserved le st t k L) as P.
  rewrite (get_parsed le st t k raw _ G N D (make_payload_truthy _ _ _)) in *.
  rewrite isExpired_make_payload in *. fold sk in P |- *.
  destruct (deadline_passed ttlSeconds t0 t).
  - destruct (lawful_removeItem (storage st) sk L) as (s & R & _ & G' & _).
    rewrite R in *. eexists. split; [reflexivity|]. split; [exact P|].
    exact G'.
  - rewrite make_payload_value. eexists. split; [reflexivity|].
    split; [exact P | exact G].
Qed.


(** C2, amended (TTL expiry boundary).  After [set(k, v, { ttl: T })] with
    [T > 0] at a reading [t0] of the clock, the deadline of the entry is the
    number [t0 + T * 1000] as binary64 arithmetic rounds it.  [get(k)]
    returns [v] at every time before the deadline; at the deadline and at
    every later time it returns [null], unless the deadline is zero, which
    [isExpired] takes for no deadline.  Every time is on one side of the
    deadline.  For a TTL of whole seconds, below [2^53] milliseconds, the
    deadline is the exact sum. *)
Theorem ttl_expiry_boundary (st : Store) (t0 : Z) (T : number) (k : string)
  (v : value) :
  lawful (storage st) ->
  codec_roundtrip st (make_payload v (Some T) t0) ->
  Number_lt 0 T = true ->
  exists st1,
    set st t0 k v (Some {| ttl := Some T |}) = (st1, Ok tt)
    /\ (forall t : Z, Number_lt t (deadline T t0) = true ->
                  exists st2, get le st1 t k = (st2, Ok v))
    /\ (forall t : Z, Number_le (deadline T t0) t = true ->
                  exists st2,
                    get le st1 t k
                    = (st2, Ok (if Number_truthy (deadline T t0)
                                then VNull else v)))
    /\ (forall t : Z, Number_lt t (deadline T t0) = true
                  \/ Number_le (deadline T t0) t = true)
    /\ (forall Tz, T = Int Tz -> safe_integer (Tz * 1000) ->
                   safe_integer (t0 + Tz * 1000) ->
                   deadline T t0 = Int (t0 + Tz * 1000)
                   /\ (forall t, t < t0 + Tz * 1000 ->
                                 exists st2, get le st1 t k = (st2, Ok v))
                   /\ (t0 + Tz * 1000 <> 0 ->
                       forall t, t0 + Tz * 1000 <= t ->
                                 exists st2,
                                   get le st1 t k = (st2, Ok VNull))).
Proof.
  intros L C HT.
  destruct (set_then_get le st t0 k v (Some {| ttl := Some T |}) L C)
    as (st1 & E & _ & _ & G).
  cbn [effective_ttl ttl] in G. unfold deadline_passed in G. rewrite HT in G.
  cbn [andb] in G.
  assert (Before : forall t : Z, Number_lt t (deadline T t0) = true ->
                             exists st2, get le st1 t k = (st2, Ok v)).
  { intros t Ht. destruct (G t) as (st2 & -> & _). exists st2.
    rewrite (Number_lt_not_le _ _ Ht). now rewrite andb_false_r. }
  assert (After : forall t : Z, Number_le (deadline T t0) t = true ->
                            exists st2,
                              get le st1 t k
                              = (st2, Ok (if Number_truthy (deadline T t0)
                                          then VNull else v))).
  { intros t Ht. destruct (G t) as (st2 & -> & _). exists st2.
    now rewrite Ht, andb_true_r. }
  exists st1. split; [exact E|]. split; [exact Before|].
  split; [exact After|]. split.
  - intros t. apply Number_lt_or_le; [discriminate|].
    now apply deadline_not_NaN.
  - intros Tz -> Hm Hs. rewrite (deadline_exact Tz t0 Hm Hs) in *.
    split; [reflexivity|]. split.
    + intros t Ht. apply Before. rewrite Number_lt_Int. apply Z.ltb_lt. lia.
    + intros Nz t Ht. destruct (After t) as (st2 & E2).
      { rewrite Number_le_Int. apply Z.leb_le. lia. }
      exists st2. rewrite E2, Number_truthy_Int.
      apply Z.eqb_neq in Nz. now rewrite Nz.
Qed.

(** C3, amended (corrupted entry).  When the text at the derived key is
    empty, is rejected by the deserializer, or parses to a falsy value,
    [get] returns [null], does not throw and leaves the backend as it is.
    A text that parses to a truthy value is taken for a payload without any
    check of its shape: when that value has no truthy [expiresAt], [get]
    returns its [value] property ([undefined] when it has none). *)
Theorem get_absorbs_unreadable_entry (st : Store) (now : Z) (k raw : string) :
  let sk := makeKey (namespace st) k in
  storage_getItem (storage st) sk = Ok (Some raw) ->
  (raw = EmptyString
   \/ throws (deserializer st raw)
   \/ (exists p, deserializer st raw = Ok p /\ truthy p = false) ->
   get le st now k
   = (with_trackedKeys st (set_delete sk (trackedKeys st)), Ok VNull))
  /\ (forall p,
         raw <> EmptyString ->
         deserializer st raw = Ok p ->
         truthy p = true ->
         truthy (get_prop p "expiresAt") = false ->
         get le st now k
         = (with_trackedKeys st (set_add sk (trackedKeys st)),
            Ok (get_prop p "value"))).
Proof.
  intros sk G. split.
  - intros H. unfold get. fold sk. rewrite G.
    assert (D : truthy (decode (Some raw) (deserializer st)) = false).
    { unfold decode. destruct raw as [|c raw]; [reflexivity|].
      destruct H as [H|[[e H]|(p & H & F)]]; [discriminate | |]; now rewrite H. }
    unfold isExpired. rewrite D. reflexivity.
  - intros p N D T X.
    rewrite (get_parsed le st now k raw p G N D T).
    unfold isExpired. rewrite T, X. reflexivity.
Qed.

(** C4 (namespace isolation).  Two stores share a lawful backend under
    distinct namespaces without the separator.  After each has set a key,
    each reads its own entry: its own value, or [null] if its own deadline
    has passed, whatever the other store wrote; and the second still does
    after a [clear] of the first.  In any state, [clear] on the first store
    does not throw, changes no entry under a key of the second store, and
    changes no entry whose key does not carry the first store's prefix. *)
Theorem namespace_isolation (a b : Store) (now : Z) (ka kb : string)
  (va vb : value) (oa ob : option SetOptions) :
  colon_free (namespace a) = true ->
  colon_free (namespace b) = true ->
  namespace a <> namespace b ->
  storage b = storage a ->
  lawful (storage a) ->
  tracked_wf a ->
  codec_roundtrip a (make_payload va (effective_ttl a oa) now) ->
  codec_roundtrip b (make_payload vb (effective_ttl b ob) now) ->
  let ra := if deadline_passed (effective_ttl a oa) now now
            then VNull else va in
  let rb := if deadline_passed (effective_ttl b ob) now now
            then VNull else vb in
  (exists a1 b1 a2 b2 a3 b3,
      set a now ka va oa = (a1, Ok tt)
      /\ set (with_backend_of b a1) now kb vb ob = (b1, Ok tt)
      /\ get le (with_backend_of a1 b1) now ka = (a2, Ok ra)
      /\ get le (with_backend_of b1 a2) now kb = (b2, Ok rb)
      /\ clear (with_backend_of a2 b2) = (a3, Ok tt)
      /\ get le (with_backend_of b2 a3) now kb = (b3, Ok rb))
  /\ (exists a',
         clear a = (a', Ok tt)
         /\ (forall key,
                storage_getItem (storage a') (makeKey (namespace b) key)
                = storage_getItem (storage a) (makeKey (namespace b) key))
         /\ (forall sk,
                String.prefix (namespace a ++ ":") sk = false ->
                storage_getItem (storage a') sk
                = storage_getItem (storage a) sk)).
Proof.
  intros Fa Fb Nab Sab L W Ca Cb ra rb. unfold with_backend_of. split.
  - destruct Ca as (rawa & Sa & Na & Da). destruct Cb as (rawb & Sb & Nb & Db).
    destruct (set_written a now ka va oa rawa L Sa) as (s1 & E1 & L1 & G1 & _).
    set (a1 := with_trackedKeys (with_storage a s1)
                 (set_add (makeKey (namespace a) ka) (trackedKeys a))) in *.
    assert (W1 : tracked_wf a1) by apply (tracked_wf_add a ka s1 W).
    destruct (set_written (with_storage b (storage a1)) now kb vb ob rawb L1 Sb)
      as (s2 & E2 & L2 & G2 & F2).
    cbn [namespace with_storage trackedKeys] in E2, G2, F2.
    match type of E2 with _ = (?x, _) => set (b1 := x) in * end.
    assert (Ga : storage_getItem s2 (makeKey (namespace a) ka) = Ok (Some rawa)).
    { rewrite F2; [exact G1|]. now apply makeKey_other_namespace. }
    destruct (get_written (with_storage a1 (storage b1)) now now ka rawa va
                (effective_ttl a oa) L2 Ga Na Da)
      as (a2 & Ea & (La & (Na2 & _) & Wa & Fra) & _).
    cbn [namespace with_storage] in Na2, Fra.
    change (namespace a1) with (namespace a) in Na2, Fra.
    assert (Gb : storage_getItem (storage a2) (makeKey (namespace b) kb)
                 = Ok (Some rawb)).
    { rewrite Fra; [exact G2|]. now apply makeKey_other_namespace. }
    destruct (get_written (with_storage b1 (storage a2)) now now kb rawb vb
                (effective_ttl b ob) La Gb Nb Db)
      as (b2 & Eb & (Lb & (Nb2 & _ & Db2 & _) & _ & _) & Gb2).
    cbn [namespace deserializer with_storage] in Nb2, Db2, Gb2.
    change (namespace b1) with (namespace b) in Nb2, Gb2.
    change (deserializer b1) with (deserializer b) in Db2.
    assert (W2 : tracked_wf (with_storage a2 (storage b2))).
    { unfold tracked_wf in *. cbn [namespace trackedKeys with_storage].
      apply Wa. exact W1. }
    destruct (clear_lawful (with_storage a2 (storage b2)) Lb W2)
      as (a3 & E3 & L3 & _ & _ & F3 & _).
    cbn [namespace with_storage] in F3. rewrite Na2 in F3.
    exists a1, b1, a2, b2, a3.
    assert (Ec : exists b3,
               get le (with_storage b2 (storage a3)) now kb = (b3, Ok rb)).
    { subst rb.
      assert (G3 : storage_getItem (storage a3) (makeKey (namespace b) kb)
                   = storage_getItem (storage b2) (makeKey (namespace b) kb)).
      { apply F3. now apply prefix_other_namespace. }
      rewrite Gb2 in G3.
      destruct (deadline_passed (effective_ttl b ob) now now) eqn:P.
      - eexists. apply get_absent.
        cbn [namespace storage with_storage]. now rewrite Nb2.
      - destruct (get_written (with_storage b2 (storage a3)) now now kb rawb
                    vb (effective_ttl b ob) L3) as (b3 & E & _).
        + cbn [namespace storage with_storage]. now rewrite Nb2.
        + exact Nb.
        + cbn [deserializer with_storage]. now rewrite Db2.
        + rewrite P in E. now exists b3. }
    destruct Ec as (b3 & Ec). exists b3.
    split; [exact E1|]. split; [exact E2|]. split; [exact Ea|].
    split; [exact Eb|]. split; [exact E3 | exact Ec].
  - destruct (clear_lawful a L W) as (a' & E & _ & _ & _ & F & _).
    exists a'. split; [exact E|]. split; [|exact F].
    intros key. apply F. now apply prefix_other_namespace.
Qed.

(** C5 (only a positive TTL installs a deadline).  The TTL of a [set] is
    the [ttl] of its options when they carry one, and the default TTL of
    the store otherwise.  The payload the [set] stores carries an
    [expiresAt] property exactly when that TTL is strictly positive: a
    per-call TTL that is zero or negative installs none, whatever the
    default, and without a per-call TTL an absent, zero or negative default
    installs none.  A payload without [expiresAt] is never expired: [get]
    returns the value at every reading of the clock. *)
Theorem expiresAt_iff_positive_ttl (st : Store) (t0 : Z) (k : string)
  (v : value) (o : option SetOptions) :
  let chosen := match per_call_ttl o with
                | Some T => Some T
                | None => defaultTTL st
                end in
  let p := make_payload v chosen t0 in
  lawful (storage st) ->
  codec_roundtrip st p ->
  exists st1 raw,
    set st t0 k v o = (st1, Ok tt)
    /\ storage_getItem (storage st1) (makeKey (namespace st) k) = Ok (Some raw)
    /\ deserializer st raw = Ok p
    /\ (has_expiresAt p = true
        <-> exists T, chosen = Some T /\ Number_lt 0 T = true)
    /\ (forall T, per_call_ttl o = Some T ->
                  (has_expiresAt p = true <-> Number_lt 0 T = true))
    /\ (per_call_ttl o = None ->
        (has_expiresAt p = true
         <-> exists D, defaultTTL st = Some D /\ Number_lt 0 D = true))
    /\ (has_expiresAt p = false ->
        forall t, exists st2, get le st1 t k = (st2, Ok v)).
Proof.
  intros chosen p L C.
  assert (EC : effective_ttl st o = chosen).
  { unfold effective_ttl, chosen, per_call_ttl. now destruct o as [[[T|]]|]. }
  assert (CT : forall T, per_call_ttl o = Some T -> chosen = Some T)
    by (intros T HT; unfold chosen; now rewrite HT).
  assert (CN : per_call_ttl o = None -> chosen = defaultTTL st)
    by (intros HN; unfold chosen; now rewrite HN).
  subst p. clearbody chosen. subst chosen.
  destruct (set_then_get le st t0 k v o L C) as (st1 & E & _ & _ & G).
  destruct C as (raw & S & N & D).
  destruct (set_written st t0 k v o raw L S) as (s & E' & _ & R & _).
  rewrite E in E'. injection E' as ->.
  exists (with_trackedKeys (with_storage st s)
            (set_add (makeKey (namespace st) k) (trackedKeys st))), raw.
  split; [exact E|]. split; [exact R|]. split; [exact D|].
  assert (I : has_expiresAt (make_payload v (effective_ttl st o) t0) = true
              <-> exists T, effective_ttl st o = Some T
                            /\ Number_lt 0 T = true).
  { destruct (make_payload_cases v (effective_ttl st o) t0)
      as [(T & ET & P & EP)|[NP EP]]; rewrite EP.
    - split; [intros _; exists T; auto | reflexivity].
    - split; [discriminate|]. intros (T & ET & P).
      rewrite (NP T ET) in P. discriminate P. }
  split; [exact I|]. split; [|split].
  - intros T HT. rewrite I, (CT T HT).
    split; [now intros (T' & [= <-] & P) | intros P; now exists T].
  - intros HN. now rewrite I, (CN HN).
  - intros H t. destruct (G t) as (st2 & E2 & _). exists st2. rewrite E2.
    rewrite deadline_passed_not_positive; [reflexivity|].
    intros T ET. destruct (Number_lt 0 T) eqn:P; [|reflexivity].
    assert (X : has_expiresAt (make_payload v (effective_ttl st o) t0) = true)
      by (apply I; now exists T).
    congruence.
Qed.

(** C6 (default TTL).  On a store with default TTL [D], a [set] whose
    options carry no [ttl] -- no options at all, or an options object
    without one -- is the [set] with [{ ttl: D }]: it stores the payload of
    [D], whose [expiresAt] is [Date.now() + D * 1000] when [D > 0].  A [set]
    with [{ ttl: T }] ignores the default: it does the same on a store with
    any other default, and stores the payload of [T].  In both cases [get]
    returns the value until the deadline of the stored payload has
    passed. *)
Theorem default_ttl_overridden (st : Store) (t0 : Z) (D : number)
  (k : string) (v : value) (o : option SetOptions) :
  lawful (storage st) ->
  defaultTTL st = Some D ->
  (per_call_ttl o = None ->
   set st t0 k v o = set st t0 k v (Some {| ttl := Some D |})
   /\ (Number_lt 0 D = true ->
       get_prop (make_payload v (Some D) t0) "expiresAt"
       = VNum (Number_add t0 (Number_mul D 1000)))
   /\ (codec_roundtrip st (make_payload v (Some D) t0) ->
       exists st1 raw,
         set st t0 k v o = (st1, Ok tt)
         /\ storage_getItem (storage st1) (makeKey (namespace st) k)
            = Ok (Some raw)
         /\ deserializer st raw = Ok (make_payload v (Some D) t0)
         /\ forall t, exists st2,
             get le st1 t k
             = (st2, Ok (if deadline_passed (Some D) t0 t
                         then VNull else v))))
  /\ (forall T, per_call_ttl o = Some T ->
        (forall D',
            set (with_defaultTTL st D') t0 k v o
            = (with_defaultTTL (fst (set st t0 k v o)) D',
               snd (set st t0 k v o)))
        /\ (codec_roundtrip st (make_payload v (Some T) t0) ->
            exists st1 raw,
              set st t0 k v o = (st1, Ok tt)
              /\ storage_getItem (storage st1) (makeKey (namespace st) k)
                 = Ok (Some raw)
              /\ deserializer st raw = Ok (make_payload v (Some T) t0)
              /\ forall t, exists st2,
                  get le st1 t k
                  = (st2, Ok (if deadline_passed (Some T) t0 t
                              then VNull else v)))).
Proof.
  intros L HD.
  assert (Written : forall T,
             effective_ttl st o = Some T ->
             codec_roundtrip st (make_payload v (Some T) t0) ->
             exists st1 raw,
               set st t0 k v o = (st1, Ok tt)
               /\ storage_getItem (storage st1) (makeKey (namespace st) k)
                  = Ok (Some raw)
               /\ deserializer st raw = Ok (make_payload v (Some T) t0)
               /\ forall t, exists st2,
                   get le st1 t k
                   = (st2, Ok (if deadline_passed (Some T) t0 t
                               then VNull else v))).
  { intros T ET C. rewrite <- ET in C |- *.
    destruct (set_then_get le st t0 k v o L C) as (st1 & E & _ & _ & G).
    destruct C as (raw & S & N & Dd).
    destruct (set_written st t0 k v o raw L S) as (s & E' & _ & R & _).
    rewrite E in E'. injection E' as ->.
    eexists. exists raw. split; [exact E|]. split; [exact R|].
    split; [exact Dd|]. intros t. destruct (G t) as (st2 & E2 & _).
    now exists st2. }
  split.
  - intros HN.
    assert (ED : effective_ttl st o = Some D).
    { unfold effective_ttl. unfold per_call_ttl in HN.
      destruct o as [[[T|]]|]; cbn [ttl] in *; congruence. }
    split; [|split].
    + unfold set. now rewrite ED.
    + intros P. unfold make_payload.
      now rewrite P, (Number_positive_truthy D P).
    + exact (Written D ED).
  - intros T HT.
    assert (ET : forall s, effective_ttl s o = Some T).
    { intros s. unfold effective_ttl. unfold per_call_ttl in HT.
      destruct o as [[[T'|]]|]; cbn [ttl] in *; congruence. }
    split; [|exact (Written T (ET st))].
    intros D'. unfold set. rewrite !ET.
    cbn [serializer namespace storage trackedKeys with_defaultTTL].
    destruct (encode v (Some T) (serializer st) t0) as [raw|e];
      [|reflexivity].
    destruct (storage_setItem (storage st) (makeKey (namespace st) k) raw)
      as [s [[]|e]]; reflexivity.
Qed.

(** C7, amended (lazy deletion).  When the entry at the derived key holds a
    payload whose [expiresAt] is a number other than zero (and [NaN]) at or
    before the current time, [get] returns [null], removes that entry and
    that key from the tracked keys, and leaves every other entry as it is.
    No other path enforces expiry: [set], [get] and [remove] on another key
    leave the expired entry in the backend. *)
Theorem get_expired_frame (st : Store) (now : Z) (k raw : string)
  (props : list (string * value)) (e : number) :
  let sk := makeKey (namespace st) k in
  lawful (storage st) ->
  storage_getItem (storage st) sk = Ok (Some raw) ->
  raw <> EmptyString ->
  deserializer st raw = Ok (VObj props) ->
  assoc_get "expiresAt" props = Some (VNum e) ->
  Number_truthy e = true ->
  Number_le e now = true ->
  (exists st',
      get le st now k = (st', Ok VNull)
      /\ storage_getItem (storage st') sk = Ok None
      /\ (forall key, key <> sk ->
                      storage_getItem (storage st') key
                      = storage_getItem (storage st) key)
      /\ trackedKeys st' = set_delete sk (trackedKeys st)
      /\ ~ In sk (trackedKeys st')
      /\ same_config st st')
  /\ (forall k', makeKey (namespace st) k' <> sk ->
        (forall t v o,
            storage_getItem (storage (fst (set st t k' v o))) sk
            = Ok (Some raw))
        /\ (forall t,
               storage_getItem (storage (fst (get le st t k'))) sk
               = Ok (Some raw))
        /\ storage_getItem (storage (fst (remove st k'))) sk = Ok (Some raw)).
Proof.
  intros sk L G N D X Z0 Zle. split.
  - rewrite (get_parsed le st now k raw (VObj props) G N D eq_refl). fold sk.
    assert (E : isExpired le (VObj props) now = Ok true).
    { unfold isExpired. cbn. rewrite X. cbn. rewrite Z0. cbn.
      now rewrite Zle. }
    rewrite E.
    destruct (lawful_removeItem (storage st) sk L) as (s & -> & _ & R & F).
    eexists. split; [reflexivity|]. cbn.
    split; [exact R|]. split; [exact F|]. split; [reflexivity|].
    split; [apply set_delete_not_in | repeat split].
  - intros k' Nk.
    assert (Nk' : sk <> makeKey (namespace st) k') by congruence.
    split; [|split].
    + intros t v o.
      destruct (set_preserved st t k' v o L) as (_ & _ & _ & F).
      now rewrite (F sk Nk').
    + intros t.
      destruct (get_preserved le st t k' L) as (_ & _ & _ & F).
      now rewrite (F sk Nk').
    + destruct (remove_preserved st k' L) as (_ & _ & _ & F).
      now rewrite (F sk Nk').
Qed.


(** C9 (serialization failure).  When the serializer throws on the payload
    of a value, [set] throws the same error and the store is left as it was:
    the backend entry at the derived key and the tracked keys are
    unchanged. *)
Theorem set_propagates_serializer_failure (st : Store) (now : Z) (k : string)
  (v : value) (o : option SetOptions) (e : exn) :
  serializer st (make_payload v (effective_ttl st o) now) = Throw e ->
  set st now k v o = (st, Throw e)
  /\ storage_getItem (storage (fst (set st now k v o)))
       (makeKey (namespace st) k)
     = storage_getItem (storage st) (makeKey (namespace st) k)
  /\ trackedKeys (fst (set st now k v o)) = trackedKeys st.
Proof.
  intros H.
  assert (E : set st now k v o = (st, Throw e)).
  { unfold set, encode. now rewrite H. }
  rewrite E. auto.
Qed.

End Properties.

(** C10 (namespace of separators).  A non-empty namespace made of
    separators only is normalized to the empty string, so the keys of its
    store are [":" ++ key]; the default ["lsp"] stands in for an absent or
    empty namespace only: any other namespace normalized to ["lsp"] is
    ["lsp"] followed by separators. *)
Theorem namespace_of_separators_is_empty (ns key : string) :
  ns <> EmptyString ->
  all_colons ns = true ->
  normalizeNamespace (Some ns) = EmptyString
  /\ makeKey (normalizeNamespace (Some ns)) key = String ":" key
  /\ normalizeNamespace None = "lsp"
  /\ normalizeNamespace (Some EmptyString) = "lsp"
  /\ (forall ns',
         ns' <> EmptyString ->
         normalizeNamespace (Some ns') = strip_trailing_colons ns'
         /\ (normalizeNamespace (Some ns') = "lsp" ->
             exists cs, all_colons cs = true /\ ns' = "lsp" ++ cs)).
Proof.
  intros N A.
  assert (E : normalizeNamespace (Some ns) = EmptyString).
  { destruct ns as [|c ns]; [congruence|].
    unfold normalizeNamespace. now rewrite (strip_all_colons _ A). }
  rewrite E. repeat split.
  - destruct ns' as [|c ns']; [congruence | reflexivity].
  - destruct ns' as [|c ns']; [congruence|].
    unfold normalizeNamespace. intros E'.
    destruct (strip_trailing_colons_spec (String c ns')) as (cs & A' & S).
    exists cs. split; [exact A'|]. now rewrite <- E'.
Qed.

(** * The properties at concrete inputs *)



(** The test "respects per-key TTL": ten seconds, written at time 1000. *)
Lemma ttl_expiry_boundary_witness :
  let st := memory_store "ttl" [] in
  (lawful (storage st)
   /\ codec_roundtrip st (make_payload (VStr "value") (Some (Int 10)) 1000)
   /\ Number_lt 0 10 = true)
  /\ exists st1,
      set st 1000 "temp" (VStr "value") (Some {| ttl := Some (Int 10) |})
      = (st1, Ok tt)
      /\ deadline 10 1000 = Int 11000
      /\ (forall t, t < 11000 ->
                    exists st2,
                      get decimal_le st1 t "temp" = (st2, Ok (VStr "value")))
      /\ (forall t, 11000 <= t ->
                    exists st2, get decimal_le st1 t "temp" = (st2, Ok VNull)).
Proof.
  cbv zeta.
  assert (C : codec_roundtrip (memory_store "ttl" [])
                (make_payload (VStr "value") (Some (Int 10)) 1000))
    by (apply JSON_codec_roundtrip; reflexivity).
  split; [split; [exact MemoryStorage_lawful | split; [exact C | reflexivity]]|].
  destruct (ttl_expiry_boundary decimal_le (memory_store "ttl" []) 1000 10
              "temp" (VStr "value") MemoryStorage_lawful C eq_refl)
    as (st1 & E & _ & _ & _ & X).
  destruct (X 10 eq_refl) as (D & B & A);
    [unfold safe_integer; reflexivity | unfold safe_integer; reflexivity|].
  exists st1. split; [exact E|]. split; [exact D|]. split; [exact B|].
  apply A. discriminate.
Defined.

(** Two entries against the boundary as the arithmetic of the reals has
    it.  With a TTL of a tenth of a microsecond the deadline rounds to the
    time of the write, and [get] returns [null] at that time, before
    [t0 + T * 1000].  With a TTL of ten seconds written ten seconds before
    the epoch the deadline is zero, and [get] returns the value at
    [t0 + T * 1000] and later. *)
Lemma ttl_expiry_boundary_counterexample :
  let st := memory_store "ttl" [] in
  let tiny := round64_ratio 1 10000000 in
  let st1 :=
    fst (set st 1700000000000 "temp" (VStr "value")
           (Some {| ttl := Some tiny |})) in
  let st2 :=
    fst (set st (- 10000) "temp" (VStr "value")
           (Some {| ttl := Some (Int 10) |})) in
  (JSON.parse "1e-7" = Ok (VNum tiny) /\ Number_lt 0 tiny = true
   /\ deadline tiny 1700000000000 = Int 1700000000000
   /\ snd (get decimal_le st1 1700000000000 "temp") = Ok VNull)
  /\ (deadline 10 (- 10000) = Int 0
      /\ snd (get decimal_le st2 0 "temp") = Ok (VStr "value")
      /\ snd (get decimal_le st2 1700000000000 "temp") = Ok (VStr "value")).
Proof. cbv zeta. repeat split; vm_compute; reflexivity. Qed.

(** The text [{}] parses, has not the shape of a payload, and [get]
    answers [undefined] for it, not [null]. *)
Lemma corrupted_entry_counterexample :
  let st := store_with_entry "lsp" "k" "{}" in
  storage_getItem (storage st) (makeKey (namespace st) "k") = Ok (Some "{}")
  /\ deserializer st "{}" = Ok (VObj [])
  /\ StoredPayload_shape (VObj []) = false
  /\ snd (get decimal_le st 0 "k") = Ok VUndefined
  /\ snd (get decimal_le st 0 "k") <> Ok VNull.
Proof.
  cbv zeta. repeat split; try (vm_compute; reflexivity).
  vm_compute. discriminate.
Qed.

(** A text that is not JSON at the derived key. *)
Lemma get_absorbs_unreadable_entry_witness :
  let st := store_with_entry "lsp" "k" "not json" in
  storage_getItem (storage st) (makeKey (namespace st) "k")
  = Ok (Some "not json")
  /\ get decimal_le st 0 "k"
     = (with_trackedKeys st (set_delete "lsp:k" (trackedKeys st)), Ok VNull).
Proof.
  cbv zeta. split; [reflexivity|].
  apply (proj1 (get_absorbs_unreadable_entry decimal_le
                  (store_with_entry "lsp" "k" "not json") 0 "k" "not json"
                  eq_refl)).
  right. left. exists SyntaxError. reflexivity.
Defined.

(** The test "isolates data per namespace and clears namespaced keys
    only", with the namespaces of the specification. *)
Lemma namespace_isolation_witness :
  let a := memory_store "a" [] in
  let b := memory_store "b" [] in
  (colon_free (namespace a) = true /\ colon_free (namespace b) = true
   /\ namespace a <> namespace b /\ storage b = storage a)
  /\ (exists a1 b1 a2 b2 a3 b3,
         set a 0 "x" (VStr "user-token") None = (a1, Ok tt)
         /\ set (with_backend_of b a1) 0 "x" (VStr "admin-token") None
            = (b1, Ok tt)
         /\ get decimal_le (with_backend_of a1 b1) 0 "x"
            = (a2, Ok (VStr "user-token"))
         /\ get decimal_le (with_backend_of b1 a2) 0 "x"
            = (b2, Ok (VStr "admin-token"))
         /\ clear (with_backend_of a2 b2) = (a3, Ok tt)
         /\ get decimal_le (with_backend_of b2 a3) 0 "x"
            = (b3, Ok (VStr "admin-token")))
  /\ (exists a',
         clear a = (a', Ok tt)
         /\ (forall key,
                storage_getItem (storage a') (makeKey (namespace b) key)
                = storage_getItem (storage a) (makeKey (namespace b) key))
         /\ (forall sk,
                String.prefix (namespace a ++ ":") sk = false ->
                storage_getItem (storage a') sk
                = storage_getItem (storage a) sk)).
Proof.
  cbv zeta.
  split; [repeat split; try reflexivity; discriminate|].
  apply (namespace_isolation decimal_le (memory_store "a" [])
           (memory_store "b" []) 0 "x" "x" (VStr "user-token")
           (VStr "admin-token") None None);
    try reflexivity; try discriminate;
    [exact MemoryStorage_lawful | constructor
    | apply JSON_codec_roundtrip; reflexivity
    | apply JSON_codec_roundtrip; reflexivity].
Defined.

(** A per-call TTL of zero on a store whose default TTL is five seconds
    installs no deadline. *)
Lemma expiresAt_iff_positive_ttl_witness :
  let st := with_defaultTTL (memory_store "lsp" []) (Some (Int 5)) in
  let o := Some {| ttl := Some (Int 0) |} in
  let p := make_payload sample_user (Some (Int 0)) 5 in
  (lawful (storage st) /\ codec_roundtrip st p)
  /\ exists st1 raw,
      set st 5 "user" sample_user o = (st1, Ok tt)
      /\ storage_getItem (storage st1) (makeKey (namespace st) "user")
         = Ok (Some raw)
      /\ deserializer st raw = Ok p
      /\ has_expiresAt p = false
      /\ forall t, exists st2,
          get decimal_le st1 t "user" = (st2, Ok sample_user).
Proof.
  cbv zeta.
  assert (C : codec_roundtrip
                (with_defaultTTL (memory_store "lsp" []) (Some (Int 5)))
                (make_payload sample_user (Some (Int 0)) 5))
    by (apply JSON_codec_roundtrip; reflexivity).
  split; [split; [exact MemoryStorage_lawful | exact C]|].
  destruct (expiresAt_iff_positive_ttl decimal_le
              (with_defaultTTL (memory_store "lsp" []) (Some (Int 5))) 5
              "user" sample_user (Some {| ttl := Some (Int 0) |})
              MemoryStorage_lawful C)
    as (st1 & raw & E & G & D & _ & _ & _ & N).
  exists st1, raw. split; [exact E|]. split; [exact G|]. split; [exact D|].
  split; [reflexivity|]. apply N. reflexivity.
Defined.

(** The test "applies default TTL when no per-key TTL provided", with an
    options object that carries no [ttl]. *)
Lemma default_ttl_overridden_witness :
  let st := with_defaultTTL (memory_store "default" []) (Some (Int 5)) in
  let o := Some {| ttl := None |} in
  (lawful (storage st) /\ defaultTTL st = Some (Int 5))
  /\ set st 0 "session" (VStr "abc") o
     = set st 0 "session" (VStr "abc") (Some {| ttl := Some (Int 5) |})
  /\ get_prop (make_payload (VStr "abc") (Some (Int 5)) 0) "expiresAt"
     = VNum 5000
  /\ exists st1 raw,
      set st 0 "session" (VStr "abc") o = (st1, Ok tt)
      /\ storage_getItem (storage st1) (makeKey (namespace st) "session")
         = Ok (Some raw)
      /\ deserializer st raw = Ok (make_payload (VStr "abc") (Some (Int 5)) 0)
      /\ forall t, exists st2,
          get decimal_le st1 t "session"
          = (st2, Ok (if deadline_passed (Some (Int 5)) 0 t
                      then VNull else VStr "abc")).
Proof.
  cbv zeta.
  split; [split; [exact MemoryStorage_lawful | reflexivity]|].
  destruct (proj1 (default_ttl_overridden decimal_le
                     (with_defaultTTL (memory_store "default" [])
                        (Some (Int 5))) 0 5 "session" (VStr "abc")
                     (Some {| ttl := None |}) MemoryStorage_lawful eq_refl)
              eq_refl) as (E & X & W).
  split; [exact E|]. split; [exact (X eq_refl)|].
  apply W. apply JSON_codec_roundtrip; reflexivity.
Defined.

(** An entry whose deadline 10000 has passed at time 11000. *)
Lemma get_expired_frame_witness :
  let props := [("value", VStr "value"); ("expiresAt", VNum 10000)] in
  let raw := JSON.print (VObj props) in
  let st := store_with_entry "ttl" "temp" raw in
  let sk := makeKey (namespace st) "temp" in
  (storage_getItem (storage st) sk = Ok (Some raw)
   /\ deserializer st raw = Ok (VObj props)
   /\ Number_truthy 10000 = true /\ Number_le 10000 11000 = true)
  /\ exists st',
      get decimal_le st 11000 "temp" = (st', Ok VNull)
      /\ storage_getItem (storage st') sk = Ok None
      /\ (forall key, key <> sk ->
                      storage_getItem (storage st') key
                      = storage_getItem (storage st) key)
      /\ trackedKeys st' = set_delete sk (trackedKeys st)
      /\ ~ In sk (trackedKeys st')
      /\ same_config st st'.
Proof.
  cbv zeta.
  split; [repeat split; vm_compute; reflexivity|].
  apply (proj1 (get_expired_frame decimal_le
                  (store_with_entry "ttl" "temp"
                     (JSON.print (VObj [("value", VStr "value");
                                        ("expiresAt", VNum 10000)])))
                  11000 "temp" _ [("value", VStr "value");
                                  ("expiresAt", VNum 10000)] 10000
                  MemoryStorage_lawful eq_refl
                  ltac:(vm_compute; discriminate)
                  ltac:(vm_compute; reflexivity)
                  eq_refl eq_refl eq_refl)).
Defined.

(** An entry whose [expiresAt] is zero, read at time 11000: the payload has
    the shape [StoredPayload] and its [expiresAt] is before the clock, but
    [get] returns the value and leaves the entry in the backend. *)
Lemma get_expired_frame_counterexample :
  let props := [("value", VStr "value"); ("expiresAt", VNum 0)] in
  let raw := JSON.print (VObj props) in
  let st := store_with_entry "ttl" "temp" raw in
  let sk := makeKey (namespace st) "temp" in
  storage_getItem (storage st) sk = Ok (Some raw)
  /\ deserializer st raw = Ok (VObj props)
  /\ StoredPayload_shape (VObj props) = true
  /\ Number_le 0 11000 = true
  /\ snd (get decimal_le st 11000 "temp") = Ok (VStr "value")
  /\ storage_getItem (storage (fst (get decimal_le st 11000 "temp"))) sk
     = Ok (Some raw).
Proof. cbv zeta. repeat split; vm_compute; reflexivity. Qed.



(** A BigInt, which [JSON.stringify] refuses. *)
Lemma set_propagates_serializer_failure_witness :
  let st := memory_store "lsp" [] in
  serializer st (make_payload (VBigInt 1) (effective_ttl st None) 0)
  = Throw TypeError
  /\ set st 0 "n" (VBigInt 1) None = (st, Throw TypeError).
Proof.
  cbv zeta. split; [reflexivity|].
  apply (set_propagates_serializer_failure (memory_store "lsp" []) 0 "n"
           (VBigInt 1) None TypeError).
  reflexivity.
Defined.

(** The namespace [":"]. *)
Lemma namespace_of_separators_is_empty_witness :
  all_colons ":" = true
  /\ normalizeNamespace (Some ":") = EmptyString
  /\ makeKey (normalizeNamespace (Some ":")) "user" = ":user".
Proof.
  split; [reflexivity|].
  pose proof (namespace_of_separators_is_empty ":" "user"
                ltac:(discriminate) eq_refl) as (H1 & H2 & _).
  exact (conj H1 H2).
Defined.

(** A text that parses to an object whose [expiresAt] is an object with an
    own [toString]: the comparison of [isExpired] cannot convert it, and
    [get] throws. *)
Example get_throws_on_unconvertible_deadline :
  let payload :=
    VObj [("value", VNum 1); ("expiresAt", VObj [("toString", VNum 1)])] in
  let st := store_with_entry "lsp" "k" (JSON.print payload) in
  deserializer st (JSON.print payload) = Ok payload
  /\ snd (get decimal_le st 0 "k") = Throw TypeError.
Proof. cbv zeta. split; vm_compute; reflexivity. Qed.

(** Without indexed enumeration [clear] removes the tracked keys only: an
    entry of the namespace that this store never touched stays. *)
Example clear_without_enumeration :
  let store := keyless_store "a" [("a:other", "1")] in
  let store := fst (set store 0 "x" (VNum 1) None) in
  let (store, result) := clear store in
  result = Ok tt
  /\ storage_getItem (storage store) "a:x" = Ok None
  /\ storage_getItem (storage store) "a:other" = Ok (Some "1")
  /\ trackedKeys store = [].
Proof. vm_compute. repeat split. Qed.

(** With indexed enumeration it removes every key of the namespace, tracked
    or not, and nothing else. *)
Example clear_with_enumeration :
  let store := memory_store "a" [("a:other", "1"); ("b:x", "2"); ("theme", "3")] in
  let store := fst (set store 0 "x" (VNum 1) None) in
  let (store, result) := clear store in
  result = Ok tt
  /\ storage_getItem (storage store) "a:x" = Ok None
  /\ storage_getItem (storage store) "a:other" = Ok None
  /\ storage_getItem (storage store) "b:x" = Ok (Some "2")
  /\ storage_getItem (storage store) "theme" = Ok (Some "3")
  /\ storage_length (storage store) = 2%nat.
Proof. vm_compute. repeat split. Qed.

(** * The test suite of the repository, run on the model *)

Example test_sets_and_retrieves_values :
  let store := memory_store "spec" [] in
  let store := fst (set store 0 "user" sample_user None) in
  snd (get decimal_le store 0 "user") = Ok sample_user.
Proof. vm_compute. reflexivity. Qed.

Example test_respects_per_key_ttl :
  let store := memory_store "ttl" [] in
  let store :=
    fst (set store 0 "temp" (VStr "value") (Some {| ttl := Some (Int 10) |})) in
  let (store, after9s) := get decimal_le store 9000 "temp" in
  let (store, after11s) := get decimal_le store 11000 "temp" in
  after9s = Ok (VStr "value") /\ after11s = Ok VNull
  /\ storage_getItem (storage store) "ttl:temp" = Ok None.
Proof. vm_compute. repeat split. Qed.

Example test_applies_default_ttl :
  let store := with_defaultTTL (memory_store "default" []) (Some (Int 5)) in
  let store := fst (set store 0 "session" (VStr "abc") None) in
  let (store, after4s) := get decimal_le store 4000 "session" in
  let (store, after6s) := get decimal_le store 6000 "session" in
  after4s = Ok (VStr "abc") /\ after6s = Ok VNull.
Proof. vm_compute. repeat split. Qed.

Example test_isolates_data_per_namespace :
  let appStore := memory_store "app" [] in
  let adminStore := memory_store "admin" [] in
  let appStore := fst (set appStore 0 "token" (VStr "user-token") None) in
  let adminStore :=
    fst (set (with_backend_of adminStore appStore) 0 "token"
           (VStr "admin-token") None) in
  let appStore := fst (clear (with_backend_of appStore adminStore)) in
  let (appStore, app_token) := get decimal_le appStore 0 "token" in
  let (adminStore, admin_token) :=
    get decimal_le (with_backend_of adminStore appStore) 0 "token" in
  app_token = Ok VNull /\ admin_token = Ok (VStr "admin-token").
Proof. vm_compute. repeat split. Qed.

Example test_falls_back_to_memory_storage :
  let store := fst (createStore None (default_options "fallback" BrokenStorage)) in
  let (store, set_result) := set store 0 "k" (VStr "v") None in
  set_result = Ok tt /\ snd (get decimal_le store 0 "k") = Ok (VStr "v").
Proof. vm_compute. repeat split. Qed.

(** * The arithmetic of numbers, against the Standard Library *)

(** Number literals: a tenth of a microsecond, the largest number, a
    literal beyond it, and a tie. *)
Example sample_numbers :
  JSON.parse "1e-7" = Ok (VNum (Frac 944473296573929 73))
  /\ JSON.parse "0.0001" = Ok (VNum (Frac 7378697629483821 66))
  /\ JSON.parse "0.1" = Ok (VNum (Frac 3602879701896397 55))
  /\ JSON.parse "0.2" = Ok (VNum (Frac 3602879701896397 54))
  /\ JSON.parse "1.7976931348623157e308" = Ok (VNum (Int (2 ^ 1024 - 2 ^ 971)))
  /\ JSON.parse "1e400" = Ok (VNum (Infinity false))
  /\ JSON.parse "9007199254740992.5" = Ok (VNum (Int (2 ^ 53))).
Proof. repeat split; vm_compute; reflexivity. Qed.

(** Sums, products and comparisons on which rounding, overflow, underflow
    and the special values show: each is the one of [SpecFloat]. *)
Example arithmetic_agrees_with_SpecFloat :
  forallb
    (fun xy : number * number =>
       let (x, y) := xy in
       agrees (Number_add x y)
         (SFadd 53 1024 (to_SpecFloat x) (to_SpecFloat y))
       && agrees (Number_mul x y)
            (SFmul 53 1024 (to_SpecFloat x) (to_SpecFloat y))
       && Bool.eqb (Number_lt x y)
            (SFltb (to_SpecFloat x) (to_SpecFloat y))
       && Bool.eqb (Number_le x y)
            (SFleb (to_SpecFloat x) (to_SpecFloat y)))
    [(Int 1700000000000, Frac 1844674407370955 64);
     (Frac 944473296573929 73, Int 1000);
     (Int 1700000000000, Frac 1 1);
     (Int (2 ^ 53), Int 1); (Int (2 ^ 53), Int 3); (Int (2 ^ 53 + 2), Int 1);
     (Int (- 2 ^ 53), Int (- 1)); (Int (2 ^ 53 - 1), Int (2 ^ 53 - 1));
     (Frac 3602879701896397 55, Frac 3602879701896397 54);
     (Frac 3602879701896397 55, Frac 3602879701896397 55);
     (Int (- 3), Frac 3602879701896397 55);
     (Frac 1 1074, Frac 1 1); (Frac 3 1074, Frac 1 1);
     (Frac 1 1074, Frac 3 2); (Frac (- 7) 3, Frac 5 60);
     (Int (2 ^ 1000), Int (2 ^ 24)); (Int (2 ^ 1000), Int (2 ^ 23));
     (Int (2 ^ 1024 - 2 ^ 971), Int (2 ^ 970));
     (Int (2 ^ 1024 - 2 ^ 971), Int (2 ^ 969));
     (Int (2 ^ 1024 - 2 ^ 971), Int (- (2 ^ 1024 - 2 ^ 971)));
     (Infinity false, Int 0); (Infinity false, Int (- 2));
     (Infinity false, Infinity true); (Infinity true, Infinity true);
     (Infinity true, Frac 1 1); (NaN, Int 1); (Int 0, NaN); (Int 0, Int 0)]
  = true.
Proof. vm_compute. reflexivity. Qed.

(** [Number::toString] on numbers that are not integers. *)
Example number_texts :
  map number_to_string
    [Frac 3602879701896397 55; Frac 3 1; Frac (- 87) 3;
     Frac 944473296573929 73; Frac 3400000000001 1; Frac 1 1074;
     Number_add (Frac 3602879701896397 55) (Frac 3602879701896397 54);
     Infinity true; NaN]
  = ["0.1"; "1.5"; "-10.875"; "1e-7"; "1700000000000.5";
     "5e-324"; "0.30000000000000004"; "-Infinity"; "NaN"].
Proof. vm_compute. reflexivity. Qed.

(** * Further properties of the code *)

(** ** Helpers *)

Lemma set_delete_twice (k : string) (s : list string) :
  set_delete k (set_delete k s) = set_delete k s.
Proof.
  unfold set_delete. induction s as [|x s IH]; cbn [filter]; [reflexivity|].
  destruct (negb (String.eqb k x)) eqn:E; cbn [filter]; [|exact IH].
  now rewrite E, IH.
Qed.

Lemma makeKey_injective_key (ns k1 k2 : string) :
  makeKey ns k1 = makeKey ns k2 -> k1 = k2.
Proof.
  unfold makeKey. induction ns as [|c ns IH]; cbn [append]; intros [= H]; auto.
Qed.

Lemma codec_roundtrip_same_config (st st' : Store) (p : value) :
  same_config st st' -> codec_roundtrip st p -> codec_roundtrip st' p.
Proof.
  intros (_ & S & D & _) (raw & E1 & N & E2).
  exists raw. rewrite S, D. auto.
Qed.

Lemma strip_append_colons (ns cs : string) :
  all_colons cs = true ->
  strip_trailing_colons (ns ++ cs) = strip_trailing_colons ns.
Proof.
  intros A. induction ns as [|c ns IH]; cbn [append].
  - now apply strip_all_colons.
  - cbn [strip_trailing_colons]. now rewrite IH.
Qed.

Lemma strip_no_trailing_colon (s t : string) :
  strip_trailing_colons s <> t ++ ":".
Proof.
  revert t. induction s as [|c s IH]; intros t; cbn [strip_trailing_colons].
  - destruct t; discriminate.
  - destruct (strip_trailing_colons s) as [|d r] eqn:E.
    + destruct (Ascii.eqb_spec c ":") as [->|N].
      * destruct t; discriminate.
      * destruct t as [|c' t]; cbn [append]; intros H; inversion H;
          [congruence | destruct t; discriminate].
    + destruct t as [|c' t]; cbn [append]; intros H; inversion H.
      now apply (IH t).
Qed.

Section Further.
Variable le : string -> Z -> bool.

(** X1.  [remove(k)] on a lawful backend does not throw; it deletes the
    entry at the derived key and nothing else, and untracks the key.  A
    [get(k)] that follows returns [null], at any reading of the clock, and
    changes nothing. *)
Theorem remove_then_get (st : Store) (k : string) :
  let sk := makeKey (namespace st) k in
  lawful (storage st) ->
  exists st1,
    remove st k = (st1, Ok tt)
    /\ storage_getItem (storage st1) sk = Ok None
    /\ (forall key, key <> sk ->
                    storage_getItem (storage st1) key
                    = storage_getItem (storage st) key)
    /\ ~ In sk (trackedKeys st1)
    /\ forall now, get le st1 now k = (st1, Ok VNull).
Proof.
  intros sk L. unfold remove. fold sk.
  destruct (lawful_removeItem (storage st) sk L) as (s & -> & _ & G & F).
  eexists. split; [reflexivity|]. cbn [storage with_trackedKeys with_storage].
  split; [exact G|]. split; [exact F|].
  split; [apply set_delete_not_in|].
  intros now. rewrite get_absent by exact G.
  cbn [namespace trackedKeys with_trackedKeys with_storage]. fold sk.
  now rewrite set_delete_twice.
Qed.

(** X2.  Removing a key that has no entry is not an error and changes no
    entry; so a second [remove(k)] does nothing more than the first. *)
Theorem remove_absent_is_noop (st : Store) (k : string) :
  let sk := makeKey (namespace st) k in
  lawful (storage st) ->
  (storage_getItem (storage st) sk = Ok None ->
   exists st1,
     remove st k = (st1, Ok tt)
     /\ forall key,
         storage_getItem (storage st1) key = storage_getItem (storage st) key)
  /\ (exists st1 st2,
         remove st k = (st1, Ok tt) /\ remove st1 k = (st2, Ok tt)
         /\ trackedKeys st2 = trackedKeys st1
         /\ forall key,
             storage_getItem (storage st2) key
             = storage_getItem (storage st1) key).
Proof.
  intros sk L.
  assert (A : forall st0 : Store,
             lawful (storage st0) ->
             storage_getItem (storage st0) (makeKey (namespace st0) k) = Ok None ->
             exists st1,
               remove st0 k = (st1, Ok tt)
               /\ trackedKeys st1
                  = set_delete (makeKey (namespace st0) k) (trackedKeys st0)
               /\ forall key,
                   storage_getItem (storage st1) key
                   = storage_getItem (storage st0) key).
  { intros st0 L0 G0. unfold remove.
    destruct (lawful_removeItem (storage st0) (makeKey (namespace st0) k) L0)
      as (s & -> & _ & G & F).
    eexists. split; [reflexivity|]. split; [reflexivity|].
    intros key. cbn [storage with_trackedKeys with_storage].
    destruct (string_dec key (makeKey (namespace st0) k)) as [->|N];
      [now rewrite G, G0 | now apply F]. }
  split.
  - intros G. destruct (A st L G) as (st1 & E & _ & F). eauto.
  - unfold remove at 1. fold sk.
    destruct (lawful_removeItem (storage st) sk L) as (s & -> & Ls & G & _).
    set (st1 := with_trackedKeys (with_storage st s)
                  (set_delete sk (trackedKeys st))).
    destruct (A st1 Ls G) as (st2 & E & T & F).
    exists st1, st2. split; [reflexivity|]. split; [exact E|].
    split; [|exact F]. rewrite T. apply set_delete_twice.
Qed.

(** X3.  The last write wins.  After a second [set] on the same key, [get]
    answers with the second value under the second TTL alone; the value and
    the deadline of the first write are gone. *)
Theorem last_write_wins (st : Store) (t1 t2 : Z) (k : string)
  (v1 v2 : value) (o1 o2 : option SetOptions) :
  lawful (storage st) ->
  codec_roundtrip st (make_payload v2 (effective_ttl st o2) t2) ->
  exists st2,
    set (fst (set st t1 k v1 o1)) t2 k v2 o2 = (st2, Ok tt)
    /\ forall t, exists st3,
        get le st2 t k
        = (st3, Ok (if deadline_passed (effective_ttl st o2) t2 t
                    then VNull else v2)).
Proof.
  intros L C.
  destruct (set_preserved st t1 k v1 o1 L) as (L1 & S1 & _).
  set (st1 := fst (set st t1 k v1 o1)) in *.
  assert (E : effective_ttl st1 o2 = effective_ttl st o2).
  { unfold effective_ttl. destruct S1 as (_ & _ & _ & ->). reflexivity. }
  pose proof (codec_roundtrip_same_config st st1 _ S1 C) as C1.
  rewrite <- E in C1.
  destruct (set_then_get le st1 t2 k v2 o2 L1 C1) as (st2 & E2 & _ & _ & G).
  exists st2. split; [exact E2|]. intros t.
  destruct (G t) as (st3 & E3 & _). exists st3. now rewrite <- E.
Qed.

End Further.

(** X4.  Under namespaces without the separator, two logical keys share a
    storage key only when the namespaces and the keys are the same. *)
Theorem makeKey_injective (na nb ka kb : string) :
  colon_free na = true ->
  colon_free nb = true ->
  makeKey na ka = makeKey nb kb ->
  na = nb /\ ka = kb.
Proof.
  intros Fa Fb E.
  destruct (string_dec na nb) as [->|N].
  - split; [reflexivity|]. exact (makeKey_injective_key nb ka kb E).
  - exfalso. exact (makeKey_other_namespace na nb ka kb Fa Fb N E).
Qed.

(** X5.  Trailing separators do not distinguish namespaces: a non-empty
    namespace and the same namespace followed by separators are normalized
    alike.  A normalized namespace never ends with the separator. *)
Theorem normalizeNamespace_trailing_separators (ns cs : string) :
  ns <> EmptyString ->
  all_colons cs = true ->
  normalizeNamespace (Some (ns ++ cs)) = normalizeNamespace (Some ns)
  /\ forall o t, normalizeNamespace o <> t ++ ":".
Proof.
  intros N A. split.
  - destruct ns as [|c ns]; [congruence|]. cbn [append normalizeNamespace].
    exact (strip_append_colons (String c ns) cs A).
  - intros o t. unfold normalizeNamespace.
    assert (D : "lsp" <> t ++ ":").
    { destruct t as [|a [|b [|c [|d t]]]]; cbn; discriminate. }
    destruct o as [[|c s]|]; [exact D | apply strip_no_trailing_colon | exact D].
Qed.

(** ** [clear], path by path *)

Lemma storage_key_with_this (s : StorageLike) (c : carrier s) :
  storage_key (with_this s c) = None <-> storage_key s = None.
Proof.
  destruct s as [C m t]. unfold storage_key, with_this. cbn in *.
  destruct (m_key m); split; intros H;
    solve [discriminate H | reflexivity].
Qed.

Lemma removeEach_with_this (keys : list string) (s : StorageLike) :
  exists c, fst (removeEach s keys) = with_this s c.
Proof.
  revert s. induction keys as [|k keys IH]; intros s; cbn [removeEach].
  - exists (this s). now destruct s.
  - unfold storage_removeItem.
    destruct (m_removeItem (methods s) (this s) k) as [c [[]|e]].
    + destruct (IH (with_this s c)) as (c' & E). exists c'. exact E.
    + exists c. reflexivity.
Qed.

Lemma removeEach_storage_key (keys : list string) (s : StorageLike) :
  storage_key (fst (removeEach s keys)) = None <-> storage_key s = None.
Proof.
  destruct (removeEach_with_this keys s) as (c & ->).
  apply storage_key_with_this.
Qed.

(** The path of [clear] over a backend that enumerates its keys. *)
Lemma clear_enumerated (st : Store) :
  lawful (storage st) ->
  storage_key (storage st) <> None ->
  exists st',
    clear st = (st', Ok tt)
    /\ lawful (storage st') /\ same_config st st'
    /\ storage_key (storage st') <> None
    /\ trackedKeys st' = trackedKeys st
    /\ (forall key,
           String.prefix (namespace st ++ ":") key = false ->
           storage_getItem (storage st') key = storage_getItem (storage st) key)
    /\ (forall key,
           String.prefix (namespace st ++ ":") key = true ->
           storage_getItem (storage st') key = Ok None).
Proof.
  intros L K. unfold clear.
  destruct (storage_key (storage st)) as [f|] eqn:EK; [|congruence].
  unfold storage_key in EK.
  destruct (m_key (methods (storage st))) as [f0|] eqn:K0; [|discriminate].
  injection EK as <-.
  destruct (key_spec _ L f0 K0 (this (storage st))) as [T Enum].
  destruct (collectKeys_lawful (f0 (this (storage st))) (namespace st ++ ":")
              (storage_length (storage st)) 0 [] T)
    as (ks & -> & Sound & _ & Complete).
  pose proof (removeEach_storage_key ks (storage st)) as SK.
  destruct (removeEach_lawful ks (storage st) L) as (s' & E & L' & F & G).
  rewrite E in *. cbn [fst] in SK.
  eexists. split; [reflexivity|]. split; [exact L'|].
  split; [repeat split|]. cbn [storage with_storage trackedKeys].
  split.
  { intros N. apply SK in N. unfold storage_key in N.
    now rewrite K0 in N. }
  split; [reflexivity|]. split.
  - intros key P. apply F. intros I.
    destruct (Sound key I) as [[]|P']. congruence.
  - intros key P.
    destruct (in_dec string_dec key ks) as [I|I]; [now apply G|].
    rewrite (F key I).
    destruct (lawful_getItem (storage st) key L) as ([value|] & EG);
      [|exact EG].
    exfalso. apply I.
    destruct (Enum key value EG) as (i & Hi & Ei).
    apply (Complete i key); auto.
    + unfold storage_length. lia.
    + exact (prefix_nonempty _ _ (namespace_prefix_nonempty _) P).
Qed.

(** The path of [clear] over a backend without [key]. *)
Lemma clear_tracked (st : Store) :
  lawful (storage st) ->
  storage_key (storage st) = None ->
  exists st',
    clear st = (st', Ok tt)
    /\ lawful (storage st') /\ same_config st st'
    /\ storage_key (storage st') = None
    /\ trackedKeys st' = []
    /\ (forall key,
           ~ In key (trackedKeys st) ->
           storage_getItem (storage st') key = storage_getItem (storage st) key)
    /\ (forall key,
           In key (trackedKeys st) ->
           storage_getItem (storage st') key = Ok None).
Proof.
  intros L K. unfold clear. rewrite K.
  pose proof (removeEach_storage_key (trackedKeys st) (storage st)) as SK.
  destruct (removeEach_lawful (trackedKeys st) (storage st) L)
    as (s' & E & L' & F & G).
  rewrite E in *. cbn [fst] in SK.
  eexists. split; [reflexivity|]. split; [exact L'|].
  split; [repeat split|]. cbn [storage with_storage with_trackedKeys trackedKeys].
  split; [now apply SK|]. split; [reflexivity|]. split; [exact F | exact G].
Qed.

Lemma set_success (st st1 : Store) (now : Z) (k : string) (v : value)
  (o : option SetOptions) :
  set st now k v o = (st1, Ok tt) ->
  In (makeKey (namespace st) k) (trackedKeys st1)
  /\ namespace st1 = namespace st.
Proof.
  unfold set.
  destruct (encode v (effective_ttl st o) (serializer st) now) as [raw|e];
    [|discriminate].
  destruct (storage_setItem (storage st) (makeKey (namespace st) k) raw)
    as [s [[]|e]]; [|discriminate].
  intros [= <-]. split; [apply set_add_in | reflexivity].
Qed.

Section FurtherClear.
Variable le : string -> Z -> bool.

(** X6.  Over a lawful backend that enumerates its keys, [clear] does not
    throw, deletes every entry whose key carries the prefix of the
    namespace -- written by this store or not -- and no other entry.  It
    leaves the tracked keys as they are.  Every [get] of the store then
    returns [null]. *)
Theorem clear_by_enumeration (st : Store) :
  lawful (storage st) ->
  storage_key (storage st) <> None ->
  exists st',
    clear st = (st', Ok tt)
    /\ trackedKeys st' = trackedKeys st
    /\ (forall key,
           String.prefix (namespace st ++ ":") key = true ->
           storage_getItem (storage st') key = Ok None)
    /\ (forall key,
           String.prefix (namespace st ++ ":") key = false ->
           storage_getItem (storage st') key = storage_getItem (storage st) key)
    /\ forall now k, snd (get le st' now k) = Ok VNull.
Proof.
  intros L K.
  destruct (clear_enumerated st L K) as (st' & E & _ & C & _ & T & F & G).
  exists st'. split; [exact E|]. split; [exact T|].
  split; [exact G|]. split; [exact F|].
  intros now k. rewrite get_absent; [reflexivity|].
  destruct C as (-> & _). apply G. apply prefix_makeKey.
Qed.

(** X7.  Over a lawful backend without [key], [clear] does not throw,
    deletes the entries at the tracked keys and no other, and empties the
    tracked keys: an entry of the namespace that the store never wrote or
    read stays in the backend. *)
Theorem clear_by_tracked_keys (st : Store) :
  lawful (storage st) ->
  storage_key (storage st) = None ->
  exists st',
    clear st = (st', Ok tt)
    /\ trackedKeys st' = []
    /\ (forall key,
           In key (trackedKeys st) ->
           storage_getItem (storage st') key = Ok None)
    /\ (forall key,
           ~ In key (trackedKeys st) ->
           storage_getItem (storage st') key = storage_getItem (storage st) key).
Proof.
  intros L K.
  destruct (clear_tracked st L K) as (st' & E & _ & _ & _ & T & F & G).
  exists st'. auto.
Qed.

(** X8.  [clear] is idempotent on a lawful backend: a second [clear] does
    not throw and changes neither an entry nor the tracked keys. *)
Theorem clear_idempotent (st : Store) :
  lawful (storage st) ->
  exists st1 st2,
    clear st = (st1, Ok tt) /\ clear st1 = (st2, Ok tt)
    /\ trackedKeys st2 = trackedKeys st1
    /\ forall key,
        storage_getItem (storage st2) key = storage_getItem (storage st1) key.
Proof.
  intros L.
  destruct (storage_key (storage st)) as [f|] eqn:K.
  - assert (K' : storage_key (storage st) <> None) by congruence.
    destruct (clear_enumerated st L K')
      as (st1 & E1 & L1 & C1 & K1 & _ & _ & G1).
    destruct (clear_enumerated st1 L1 K1)
      as (st2 & E2 & _ & _ & _ & T2 & F2 & G2).
    exists st1, st2. split; [exact E1|]. split; [exact E2|].
    split; [exact T2|]. intros key.
    destruct C1 as (N1 & _). rewrite N1 in F2, G2.
    destruct (String.prefix (namespace st ++ ":") key) eqn:P.
    + now rewrite (G2 key P), (G1 key P).
    + exact (F2 key P).
  - destruct (clear_tracked st L K) as (st1 & E1 & L1 & _ & K1 & T1 & _ & _).
    destruct (clear_tracked st1 L1 K1) as (st2 & E2 & _ & _ & _ & T2 & F2 & _).
    exists st1, st2. split; [exact E1|]. split; [exact E2|].
    split; [now rewrite T1, T2|].
    intros key. apply F2. rewrite T1. intros [].
Qed.

(** X9.  What a store has set, its [clear] removes, on either path: after
    a [set(k, v)] that returned, [clear] deletes the entry at the derived
    key and a [get(k)] returns [null]. *)
Theorem clear_removes_own_writes (st st1 : Store) (t0 : Z) (k : string)
  (v : value) (o : option SetOptions) :
  lawful (storage st) ->
  set st t0 k v o = (st1, Ok tt) ->
  exists st2,
    clear st1 = (st2, Ok tt)
    /\ storage_getItem (storage st2) (makeKey (namespace st) k) = Ok None
    /\ forall now, snd (get le st2 now k) = Ok VNull.
Proof.
  intros L E.
  pose proof (set_preserved st t0 k v o L) as (L1 & _). rewrite E in L1.
  cbn [fst] in L1.
  destruct (set_success st st1 t0 k v o E) as (I & N).
  assert (H : exists st2,
             clear st1 = (st2, Ok tt) /\ namespace st2 = namespace st
             /\ storage_getItem (storage st2) (makeKey (namespace st) k)
                = Ok None).
  { destruct (storage_key (storage st1)) as [f|] eqn:K.
    - assert (K' : storage_key (storage st1) <> None) by congruence.
      destruct (clear_enumerated st1 L1 K')
        as (st2 & E2 & _ & (N2 & _) & _ & _ & _ & G).
      exists st2. split; [exact E2|]. split; [congruence|].
      apply G. rewrite N. apply prefix_makeKey.
    - destruct (clear_tracked st1 L1 K)
        as (st2 & E2 & _ & (N2 & _) & _ & _ & _ & G).
      exists st2. split; [exact E2|]. split; [congruence|]. now apply G. }
  destruct H as (st2 & E2 & N2 & G).
  exists st2. split; [exact E2|]. split; [exact G|].
  intros now. rewrite get_absent; [reflexivity|]. now rewrite N2.
Qed.

End FurtherClear.

(** ** Sequences of calls *)

Lemma same_config_trans (a b c : Store) :
  same_config a b -> same_config b c -> same_config a c.
Proof.
  intros (A1 & A2 & A3 & A4) (B1 & B2 & B3 & B4).
  repeat split; congruence.
Qed.

Lemma isExpired_shape (le : string -> Z -> bool) (p : value) (now : Z) :
  StoredPayload_shape p = true -> exists b, isExpired le p now = Ok b.
Proof.
  destruct p as [| | | | | | |props]; try discriminate.
  unfold StoredPayload_shape, isExpired. cbn [truthy negb get_prop].
  destruct (assoc_get "expiresAt" props) as [[| | |x| | | |]|];
    rewrite ?andb_false_r; try discriminate; intros _; cbn;
    try destruct (Number_truthy x); cbn; eauto.
Qed.

Section FurtherCalls.
Variable le : string -> Z -> bool.

Lemma untargeted_call_frame (st : Store) (c : call) (k : string) :
  lawful (storage st) ->
  call_targets c k = false ->
  lawful (storage (run le st c)) /\ same_config st (run le st c)
  /\ storage_getItem (storage (run le st c)) (makeKey (namespace st) k)
     = storage_getItem (storage st) (makeKey (namespace st) k).
Proof.
  intros L T.
  assert (N : forall k', String.eqb k' k = false ->
                         makeKey (namespace st) k <> makeKey (namespace st) k').
  { intros k' E H. apply makeKey_injective_key in H. subst k'.
    now rewrite String.eqb_refl in E. }
  destruct c as [now k'|now k' v o|k'|]; cbn [run call_targets] in *;
    [ destruct (get_preserved le st now k' L) as (L' & C & _ & F)
    | destruct (set_preserved st now k' v o L) as (L' & C & _ & F)
    | destruct (remove_preserved st k' L) as (L' & C & _ & F)
    | discriminate ];
    (split; [exact L'|]; split; [exact C|]; apply F; now apply N).
Qed.

Lemma untargeted_calls_frame (calls : list call) (st : Store) (k : string) :
  lawful (storage st) ->
  forallb (fun c => negb (call_targets c k)) calls = true ->
  lawful (storage (fold_left (run le) calls st))
  /\ same_config st (fold_left (run le) calls st)
  /\ storage_getItem (storage (fold_left (run le) calls st))
       (makeKey (namespace st) k)
     = storage_getItem (storage st) (makeKey (namespace st) k).
Proof.
  revert st. induction calls as [|c calls IH]; intros st L A;
    cbn [fold_left forallb] in *.
  - split; [exact L|]. split; [repeat split | reflexivity].
  - apply andb_true_iff in A as [Ac A]. apply negb_true_iff in Ac.
    destruct (untargeted_call_frame st c k L Ac) as (L1 & C1 & F1).
    destruct (IH _ L1 A) as (L2 & C2 & F2).
    split; [exact L2|]. split; [exact (same_config_trans _ _ _ C1 C2)|].
    destruct C1 as (N1 & _). rewrite N1 in F2. now rewrite F2.
Qed.

(** X10.  Calls on other keys do not interfere with an entry: after
    [set(k, v)], whatever [get], [set] and [remove] calls are made on keys
    other than [k], in any number and at any times, a [get(k)] still
    returns [v] until the deadline of the entry, and [null] from then on. *)
Theorem calls_on_other_keys_do_not_interfere (st : Store) (t0 : Z)
  (k : string) (v : value) (o : option SetOptions) (calls : list call) :
  lawful (storage st) ->
  codec_roundtrip st (make_payload v (effective_ttl st o) t0) ->
  forallb (fun c => negb (call_targets c k)) calls = true ->
  forall t,
    snd (get le (fold_left (run le) calls (fst (set st t0 k v o))) t k)
    = Ok (if deadline_passed (effective_ttl st o) t0 t then VNull else v).
Proof.
  intros L (raw & S & N & D) A t.
  destruct (set_written st t0 k v o raw L S) as (s & -> & Ls & G & _).
  cbn [fst].
  set (st1 := with_trackedKeys (with_storage st s) _).
  destruct (untargeted_calls_frame calls st1 k Ls A) as (L2 & C2 & F2).
  change (namespace st1) with (namespace st) in F2.
  change (storage st1) with s in F2. rewrite G in F2.
  destruct C2 as (N2 & _ & D2 & _).
  change (namespace st1) with (namespace st) in N2.
  change (deserializer st1) with (deserializer st) in D2.
  set (st2 := fold_left (run le) calls st1) in *.
  assert (G2 : storage_getItem (storage st2) (makeKey (namespace st2) k)
               = Ok (Some raw)) by now rewrite N2.
  assert (D' : deserializer st2 raw = Ok (make_payload v (effective_ttl st o) t0))
    by now rewrite D2.
  rewrite (get_parsed le st2 t k raw _ G2 N D' (make_payload_truthy _ _ _)).
  rewrite isExpired_make_payload.
  destruct (deadline_passed (effective_ttl st o) t0 t).
  - destruct (lawful_removeItem (storage st2) (makeKey (namespace st2) k) L2)
      as (s' & -> & _). reflexivity.
  - cbn [snd]. now rewrite make_payload_value.
Qed.

(** X11.  A store stays inside its namespace: whatever calls are made on a
    store over a lawful backend, every entry whose key does not start with
    the prefix of the namespace is left as it was, and no call leaves the
    backend unlawful or the configuration changed. *)
Theorem calls_confined_to_namespace (st : Store) (calls : list call) :
  lawful (storage st) ->
  tracked_wf st ->
  lawful (storage (fold_left (run le) calls st))
  /\ same_config st (fold_left (run le) calls st)
  /\ forall key,
      String.prefix (namespace st ++ ":") key = false ->
      storage_getItem (storage (fold_left (run le) calls st)) key
      = storage_getItem (storage st) key.
Proof.
  revert st. induction calls as [|c calls IH]; intros st L W;
    cbn [fold_left].
  - split; [exact L|]. split; [repeat split | reflexivity].
  - assert (H : lawful (storage (run le st c)) /\ tracked_wf (run le st c)
                /\ same_config st (run le st c)
                /\ forall key,
                    String.prefix (namespace st ++ ":") key = false ->
                    storage_getItem (storage (run le st c)) key
                    = storage_getItem (storage st) key).
    { assert (N : forall k key,
                 String.prefix (namespace st ++ ":") key = false ->
                 key <> makeKey (namespace st) k).
      { intros k key P ->. now rewrite prefix_makeKey in P. }
      destruct c as [now k|now k v o|k|]; cbn [run].
      - destruct (get_preserved le st now k L) as (L' & C & W' & F).
        split; [exact L'|]. split; [exact (W' W)|]. split; [exact C|].
        intros key P. apply F. now apply N.
      - destruct (set_preserved st now k v o L) as (L' & C & W' & F).
        split; [exact L'|]. split; [exact (W' W)|]. split; [exact C|].
        intros key P. apply F. now apply N.
      - destruct (remove_preserved st k L) as (L' & C & W' & F).
        split; [exact L'|]. split; [exact (W' W)|]. split; [exact C|].
        intros key P. apply F. now apply N.
      - destruct (clear_lawful st L W) as (st' & -> & L' & C & W' & F & _).
        cbn [fst]. split; [exact L'|]. split; [exact W'|].
        split; [exact C | exact F]. }
    destruct H as (L1 & W1 & C1 & F1).
    destruct (IH _ L1 W1) as (L2 & C2 & F2).
    split; [exact L2|]. split; [exact (same_config_trans _ _ _ C1 C2)|].
    intros key P. destruct C1 as (N1 & _). rewrite N1 in F2.
    now rewrite (F2 key P), (F1 key P).
Qed.

(** X12.  [get] writes to the backend on one path only: it deletes the
    entry at the derived key when that entry has expired.  On every other
    path, and so whenever it returns a value other than [null], the backend
    is the one it was called on. *)
Theorem get_writes_only_on_expiry (st st' : Store) (now : Z) (k : string)
  (r : result value) :
  let sk := makeKey (namespace st) k in
  get le st now k = (st', r) ->
  (storage st' = storage st
   \/ exists raw,
       storage_getItem (storage st) sk = Ok (Some raw)
       /\ isExpired le (decode (Some raw) (deserializer st)) now = Ok true
       /\ storage st' = fst (storage_removeItem (storage st) sk))
  /\ (forall v, r = Ok v -> v <> VNull ->
        storage st' = storage st /\ In sk (trackedKeys st')).
Proof.
  intros sk. unfold get. fold sk.
  destruct (storage_getItem (storage st) sk) as [raw|e] eqn:G.
  2:{ intros [= <- <-]. split; [now left | discriminate]. }
  destruct (isExpired le (decode raw (deserializer st)) now) as [[|]|e] eqn:X.
  - assert (R : exists r0, raw = Some r0).
    { destruct raw as [r0|]; [now exists r0|].
      unfold decode, isExpired in X. discriminate X. }
    destruct R as (r0 & ->).
    destruct (storage_removeItem (storage st) sk) as [s [[]|e]] eqn:R;
      intros [= <- <-]; (split; [right; exists r0; auto|]).
    + intros v [= <-] N. congruence.
    + discriminate.
  - destruct (negb (truthy (decode raw (deserializer st))));
      intros [= <- <-]; (split; [now left|]).
    + intros v [= <-] N. congruence.
    + intros v _ _. split; [reflexivity | apply set_add_in].
  - intros [= <- <-]. split; [now left | discriminate].
Qed.

(** X13.  A call that throws leaves the tracked keys and the configuration
    of the store as they were: a [set] whose write failed does not track
    its key. *)
Theorem failed_call_keeps_tracked_keys (st : Store) (c : call) (e : exn) :
  call_error le st c = Some e ->
  trackedKeys (run le st c) = trackedKeys st
  /\ same_config st (run le st c).
Proof.
  destruct c as [now k|now k v o|k|]; cbn [call_error run].
  - unfold get.
    destruct (storage_getItem _ _) as [raw|e0]; [|split; [|repeat split]; reflexivity].
    destruct (isExpired le _ now) as [[|]|e0].
    + destruct (storage_removeItem _ _) as [s [[]|e0]]; cbn;
        [discriminate | split; [|repeat split]; reflexivity].
    + destruct (negb _); discriminate.
    + split; [|repeat split]; reflexivity.
  - unfold set.
    destruct (encode _ _ _ _) as [raw|e0]; [|split; [|repeat split]; reflexivity].
    destruct (storage_setItem _ _ _) as [s [[]|e0]]; cbn;
      [discriminate | split; [|repeat split]; reflexivity].
  - unfold remove.
    destruct (storage_removeItem _ _) as [s [[]|e0]]; cbn;
      [discriminate | split; [|repeat split]; reflexivity].
  - unfold clear.
    destruct (storage_key _) as [f|].
    + destruct (collectKeys _ _ _ _ _) as [ks|e0];
        [|split; [|repeat split]; reflexivity].
      destruct (removeEach _ _) as [s r]. split; [|repeat split]; reflexivity.
    + destruct (removeEach _ _) as [s [[]|e0]]; cbn;
        [discriminate | split; [|repeat split]; reflexivity].
Qed.

(** X14.  Over a lawful backend the store itself fails in two places only.
    [set] throws exactly what the serializer throws on the payload; [get]
    throws only on an entry that parses but is not of the shape
    [StoredPayload], when the comparison of its [expiresAt] with the clock
    throws; [remove] and [clear] do not throw. *)
Theorem errors_on_lawful_backend (st : Store) (c : call) (e : exn) :
  lawful (storage st) ->
  call_error le st c = Some e ->
  match c with
  | CallSet now k v o =>
      serializer st (make_payload v (effective_ttl st o) now) = Throw e
  | CallGet now k =>
      exists raw p,
        storage_getItem (storage st) (makeKey (namespace st) k)
        = Ok (Some raw)
        /\ deserializer st raw = Ok p
        /\ StoredPayload_shape p = false
        /\ isExpired le p now = Throw e
  | CallRemove _ | CallClear => False
  end.
Proof.
  intros L. destruct c as [now k|now k v o|k|]; cbn [call_error].
  - unfold get.
    destruct (lawful_getItem (storage st) (makeKey (namespace st) k) L)
      as (raw & ->).
    destruct (isExpired le (decode raw (deserializer st)) now)
      as [[|]|e0] eqn:X.
    + destruct (lawful_removeItem (storage st) (makeKey (namespace st) k) L)
        as (s & -> & _). discriminate.
    + destruct (negb _); discriminate.
    + cbn. intros [= <-].
      destruct raw as [[|a r0]|]; try discriminate X.
      cbn [decode] in X.
      destruct (deserializer st (String a r0)) as [p|e1] eqn:D;
        [|discriminate X].
      exists (String a r0), p. split; [reflexivity|]. split; [exact D|].
      split; [|exact X].
      destruct (StoredPayload_shape p) eqn:Sh; [|reflexivity].
      destruct (isExpired_shape le p now Sh) as (b & B). congruence.
  - unfold set, encode.
    destruct (serializer st _) as [raw|e0] eqn:S.
    + destruct (lawful_setItem (storage st) (makeKey (namespace st) k) raw L)
        as (s & -> & _). discriminate.
    + cbn. congruence.
  - unfold remove.
    destruct (lawful_removeItem (storage st) (makeKey (namespace st) k) L)
      as (s & -> & _). discriminate.
  - destruct (storage_key (storage st)) as [f|] eqn:K.
    + assert (K' : storage_key (storage st) <> None) by congruence.
      destruct (clear_enumerated st L K') as (st' & -> & _). discriminate.
    + destruct (clear_tracked st L K) as (st' & -> & _). discriminate.
Qed.

(** X15.  An expired entry is deleted for good: when [get(k)] finds the
    entry expired it deletes it from the backend, and from then on every
    [get(k)], at whatever reading of the clock, returns [null] and changes
    nothing. *)
Theorem expired_entry_is_deleted_for_good (st : Store) (now : Z) (k : string)
  (raw : option string) :
  let sk := makeKey (namespace st) k in
  lawful (storage st) ->
  storage_getItem (storage st) sk = Ok raw ->
  isExpired le (decode raw (deserializer st)) now = Ok true ->
  exists st1,
    get le st now k = (st1, Ok VNull)
    /\ storage_getItem (storage st1) sk = Ok None
    /\ ~ In sk (trackedKeys st1)
    /\ forall t, get le st1 t k = (st1, Ok VNull).
Proof.
  intros sk L G X.
  destruct (lawful_removeItem (storage st) sk L) as (s & R & Ls & G1 & _).
  exists (with_trackedKeys (with_storage st s)
            (set_delete sk (trackedKeys st))).
  split. { unfold get. fold sk. now rewrite G, X, R. }
  split; [exact G1|]. split; [apply set_delete_not_in|].
  intros t. rewrite get_absent by exact G1.
  cbn [namespace with_storage with_trackedKeys trackedKeys]. fold sk.
  now rewrite set_delete_twice.
Qed.

End FurtherCalls.

(** X16.  Expiry is monotone in the clock: a payload of the shape
    [StoredPayload] that is expired at one reading of the clock is expired
    at every later reading, whatever the runtime conversion of strings. *)
Theorem isExpired_monotone (le : string -> Z -> bool) (p : value) (t t' : Z) :
  StoredPayload_shape p = true ->
  isExpired le p t = Ok true ->
  t <= t' ->
  isExpired le p t' = Ok true.
Proof.
  destruct p as [| | | | | | |props]; try discriminate.
  unfold StoredPayload_shape, isExpired. cbn [truthy negb get_prop].
  destruct (assoc_get "expiresAt" props) as [[| | |x| | | |]|];
    rewrite ?andb_false_r; try discriminate; intros _; cbn;
    try discriminate.
  destruct (Number_truthy x); cbn; [|discriminate].
  intros [= H] Le. f_equal. exact (Number_le_later x t t' H Le).
Qed.

(** ** [MemoryStorage] *)

Section MemoryTables.
Implicit Types (k : string) (store : MemoryStorage).

Lemma assoc_get_In k store :
  assoc_get k store <> None <-> In k (map fst store).
Proof.
  induction store as [|[k' a] store IH]; cbn [assoc_get map fst In].
  - split; [congruence | intros []].
  - destruct (String.eqb_spec k k') as [->|N].
    + split; [now left | discriminate].
    + rewrite IH. split; [now right | intros [E|I]; congruence].
Qed.

Lemma assoc_set_keys k (v : string) store :
  map fst (assoc_set k v store)
  = if has_key k store then map fst store else (map fst store ++ [k])%list.
Proof.
  unfold has_key.
  induction store as [|[k' a] store IH]; cbn [assoc_set assoc_get map fst app];
    [reflexivity|].
  destruct (String.eqb k k'); cbn [map fst]; [reflexivity|].
  rewrite IH. now destruct (assoc_get k store).
Qed.

Lemma assoc_remove_keys k store :
  map fst (assoc_remove k store)
  = filter (fun k' => negb (String.eqb k k')) (map fst store).
Proof.
  unfold assoc_remove.
  induction store as [|[k' a] store IH]; cbn [filter map fst]; [reflexivity|].
  destruct (negb (String.eqb k k')); cbn [map fst]; now rewrite IH.
Qed.

Lemma filter_absent k (l : list string) :
  ~ In k l -> filter (fun k' => negb (String.eqb k k')) l = l.
Proof.
  induction l as [|x l IH]; cbn [filter In]; [reflexivity|].
  intros N. destruct (String.eqb_spec k x) as [->|_]; cbn [negb].
  - exfalso. apply N. now left.
  - rewrite IH; [reflexivity|]. intros I. apply N. now right.
Qed.

Lemma filter_present_length k (l : list string) :
  NoDup l -> In k l ->
  S (List.length (filter (fun k' => negb (String.eqb k k')) l))
  = List.length l.
Proof.
  induction l as [|x l IH]; cbn [filter In List.length]; [intros _ []|].
  intros D I. apply NoDup_cons_iff in D as [Nx D].
  destruct (String.eqb_spec k x) as [->|N]; cbn [negb List.length].
  - now rewrite filter_absent.
  - destruct I as [E|I]; [congruence|]. now rewrite IH.
Qed.

Lemma has_key_In k store :
  has_key k store = true <-> In k (map fst store).
Proof.
  rewrite <- assoc_get_In. unfold has_key.
  destruct (assoc_get k store); split; congruence.
Qed.

End MemoryTables.

(** X17.  A [MemoryStorage] holds every key once, from the empty table on
    and through [setItem], [removeItem] and [clear]; its [length] grows by
    one when [setItem] writes a new key and stays when it overwrites, and
    shrinks by one when [removeItem] deletes a key that is present and
    stays otherwise. *)
Theorem MemoryStorage_length (store : MemoryStorage) (k v : string) :
  keys_unique store ->
  let s := memory_storage store in
  let present := has_key k store in
  keys_unique (this createMemoryStorage)
  /\ keys_unique (fst (m_setItem MemoryStorage_methods store k v))
  /\ keys_unique (fst (m_removeItem MemoryStorage_methods store k))
  /\ keys_unique (fst (m_clear MemoryStorage_methods store))
  /\ storage_length (fst (storage_setItem s k v))
     = (if present then storage_length s else S (storage_length s))
  /\ storage_length (fst (storage_removeItem s k))
     = (if present then Nat.pred (storage_length s) else storage_length s)
  /\ m_length MemoryStorage_methods (fst (m_clear MemoryStorage_methods store))
     = 0%nat.
Proof.
  intros U s present. unfold keys_unique in *. subst s present.
  cbn [this createMemoryStorage memory_storage m_setItem m_removeItem m_clear
       m_length MemoryStorage_methods fst map storage_length storage_setItem
       storage_removeItem methods with_this List.length].
  split; [constructor|]. split.
  { rewrite assoc_set_keys. destruct (has_key k store) eqn:H; [exact U|].
    apply NoDup_app; [exact U | repeat constructor; intros [] |].
    intros x I [<-|[]]. apply has_key_In in I. congruence. }
  split. { rewrite assoc_remove_keys. now apply NoDup_filter. }
  split; [constructor|]. split.
  { rewrite <- !(length_map fst), assoc_set_keys.
    destruct (has_key k store); [reflexivity|].
    rewrite length_app. cbn. lia. }
  split; [|reflexivity].
  rewrite <- !(length_map fst), assoc_remove_keys.
  destruct (has_key k store) eqn:H.
  - apply has_key_In in H.
    now rewrite <- (filter_present_length k (map fst store) U H).
  - rewrite filter_absent; [reflexivity|].
    intros I. apply has_key_In in I. congruence.
Qed.

(** X18.  [key] of a [MemoryStorage] enumerates the table: it answers
    [null] exactly from [length] on, every key it answers is present, and
    every key that is present is answered at one index and no other. *)
Theorem MemoryStorage_key_enumerates (store : MemoryStorage) :
  keys_unique store ->
  let s := memory_storage store in
  exists key,
    storage_key s = Some key
    /\ (forall i, key i = Ok None <-> (storage_length s <= i)%nat)
    /\ (forall i k, key i = Ok (Some k) -> storage_getItem s k <> Ok None)
    /\ (forall k, storage_getItem s k <> Ok None ->
          exists i, key i = Ok (Some k)
                    /\ forall j, key j = Ok (Some k) -> j = i).
Proof.
  intros U s. eexists. split; [reflexivity|]. subst s.
  cbn [storage_length storage_getItem memory_storage methods this m_length
       m_getItem MemoryStorage_methods].
  split; [|split].
  - intros i. rewrite <- (length_map fst), <- nth_error_None.
    split; congruence.
  - intros i k [= E] H. apply nth_error_In in E.
    apply assoc_get_In in E. congruence.
  - intros k H.
    assert (I : In k (map fst store)).
    { apply assoc_get_In. congruence. }
    apply In_nth_error in I as (i & E). exists i.
    split; [now rewrite E|]. intros j [= Ej].
    apply (proj1 (NoDup_nth_error _) U); [|congruence].
    apply nth_error_Some. congruence.
Qed.

(** X19.  [MemoryStorage] keeps insertion order: [setItem] on a key that
    is present leaves every index of [key] as it was, and [setItem] on a
    new key answers it at the old [length] and leaves the indexes below
    it. *)
Theorem MemoryStorage_insertion_order (store : MemoryStorage) (k v : string) :
  let s := memory_storage store in
  let s' := fst (storage_setItem s k v) in
  exists key key',
    storage_key s = Some key /\ storage_key s' = Some key'
    /\ (storage_getItem s k <> Ok None -> forall i, key' i = key i)
    /\ (storage_getItem s k = Ok None ->
        key' (storage_length s) = Ok (Some k)
        /\ forall i, (i < storage_length s)%nat -> key' i = key i).
Proof.
  intros s s'. eexists. eexists. split; [reflexivity|].
  split; [reflexivity|]. subst s s'.
  cbn [storage_length storage_getItem storage_setItem memory_storage methods
       this m_length m_getItem m_setItem MemoryStorage_methods fst with_this].
  rewrite assoc_set_keys. unfold has_key. split.
  - intros H i. destruct (assoc_get k store); [reflexivity | congruence].
  - intros [= ->]. rewrite <- (length_map fst). split.
    + rewrite nth_error_app2 by lia. now rewrite Nat.sub_diag.
    + intros i Hi. now rewrite nth_error_app1.
Qed.

(** ** The choice of the backend *)

(** X20.  The probe of [createStore] passes on every lawful backend, which
    is then the backend of the store.  It leaves every entry as it was but
    the one at the probe key [__lsp_probe__]: an entry the backend held
    there is gone after the probe. *)
Theorem probe_on_lawful_backend (globalStorage : option StorageLike)
  (options : CreateStoreOptions) (s : StorageLike) :
  opt_storage options = Some s ->
  lawful s ->
  exists s',
    isStorageUsable s = (s', true)
    /\ storage (fst (createStore globalStorage options)) = s'
    /\ snd (createStore globalStorage options) = []
    /\ lawful s'
    /\ storage_getItem s' TEST_KEY = Ok None
    /\ forall key, key <> TEST_KEY ->
                   storage_getItem s' key = storage_getItem s key.
Proof.
  intros O L.
  destruct (lawful_setItem s TEST_KEY "1" L) as (s1 & E1 & L1 & _ & F1).
  destruct (lawful_removeItem s1 TEST_KEY L1) as (s2 & E2 & L2 & G2 & F2).
  assert (U : isStorageUsable s = (s2, true)).
  { unfold isStorageUsable. now rewrite E1, E2. }
  exists s2. split; [exact U|].
  unfold createStore, resolveStorage, detectStorage. rewrite O, U.
  cbn [fst snd storage andb].
  split; [reflexivity|]. split; [reflexivity|]. split; [exact L2|].
  split; [exact G2|]. intros key N. now rewrite (F2 key N), (F1 key N).
Qed.

(** X21.  [createStore] warns in one case only: no backend was passed, the
    host has a [localStorage], and the probe of it throws.  With a backend
    passed in the options the host's [localStorage] is not looked at, and
    without any the store is silently built over an empty in-memory
    table. *)
Theorem createStore_warns_iff (globalStorage : option StorageLike)
  (options : CreateStoreOptions) :
  (snd (createStore globalStorage options) = [StorageUnavailableError_message]
   <-> opt_storage options = None
       /\ exists g, globalStorage = Some g /\ probe_throws g)
  /\ (snd (createStore globalStorage options) <> [StorageUnavailableError_message]
      -> snd (createStore globalStorage options) = [])
  /\ (opt_storage options <> None ->
      forall g, createStore g options = createStore globalStorage options)
  /\ (opt_storage options = None -> globalStorage = None ->
      storage (fst (createStore globalStorage options)) = createMemoryStorage).
Proof.
  unfold createStore, resolveStorage.
  destruct (opt_storage options) as [s|] eqn:O; cbn [detectStorage].
  - split.
    { destruct (isStorageUsable s) as [s' [|]]; cbn [snd andb];
        (split; [discriminate | intros [H _]; discriminate H]). }
    split.
    { destruct (isStorageUsable s) as [s' [|]]; reflexivity. }
    split; [reflexivity | congruence].
  - destruct globalStorage as [g|].
    + pose proof (probe_throws_iff g) as P.
      destruct (isStorageUsable g) as [s' [|]]; cbn [snd andb fst] in *.
      * split.
        { split; [discriminate|]. intros [_ (g0 & [= <-] & T)].
          apply P in T. discriminate T. }
        split; [reflexivity|]. split; [congruence | discriminate].
      * split.
        { split; [|reflexivity]. intros _. split; [reflexivity|].
          exists g. split; [reflexivity | now apply P]. }
        split; [congruence|]. split; [congruence | discriminate].
    + cbn. split.
      { split; [discriminate | intros [_ (g & H & _)]; discriminate H]. }
      split; [reflexivity|]. split; [congruence | reflexivity].
Qed.

(** ** [encode] and [decode] *)

(** X22.  With the runtime's JSON codec, [decode] reads back what [encode]
    wrote for a serializable payload: it has the shape [StoredPayload],
    carries the value, and is expired at a reading of the clock exactly
    when the deadline [encode] computed has passed. *)
Theorem encode_decode_roundtrip (le : string -> Z -> bool) (v : value)
  (ttlSeconds : option number) (now : Z) :
  JSON.serializable (make_payload v ttlSeconds now) = true ->
  exists raw,
    encode v ttlSeconds JSON.stringify now = Ok raw
    /\ decode (Some raw) JSON.parse = make_payload v ttlSeconds now
    /\ StoredPayload_shape (decode (Some raw) JSON.parse) = true
    /\ get_prop (decode (Some raw) JSON.parse) "value" = v
    /\ forall t,
        isExpired le (decode (Some raw) JSON.parse) t
        = Ok (deadline_passed ttlSeconds now t).
Proof.
  intros Sp.
  exists (JSON.print (make_payload v ttlSeconds now)).
  unfold encode. rewrite (JSONFacts.stringify_print _ Sp).
  split; [reflexivity|].
  assert (D : decode (Some (JSON.print (make_payload v ttlSeconds now)))
                JSON.parse = make_payload v ttlSeconds now).
  { apply decode_parsed; [|now apply JSONFacts.parse_print].
    destruct (JSONFacts.print_first _ Sp) as (c & s & -> & _). discriminate. }
  rewrite D. split; [reflexivity|]. split.
  { destruct (make_payload_cases v ttlSeconds now)
      as [(t & _ & _ & ->)|[_ ->]]; reflexivity. }
  split; [apply make_payload_value|].
  intros t. apply isExpired_make_payload.
Qed.

(** ** Stores over one backend *)

Section FurtherSharing.
Variable le : string -> Z -> bool.

Lemma get_value_tracks (st st' : Store) (now : Z) (k : string) (v : value) :
  get le st now k = (st', Ok v) -> v <> VNull ->
  storage st' = storage st /\ namespace st' = namespace st
  /\ In (makeKey (namespace st) k) (trackedKeys st').
Proof.
  unfold get.
  destruct (storage_getItem (storage st) _) as [raw|e]; [|discriminate].
  destruct (isExpired le (decode raw (deserializer st)) now) as [[|]|e];
    [| |discriminate].
  - destruct (storage_removeItem (storage st) _) as [s [[]|e]];
      [|discriminate]. intros [= <- <-]. congruence.
  - destruct (negb (truthy (decode raw (deserializer st))));
      intros [= <- <-]; [congruence|]. intros _.
    split; [reflexivity|]. split; [reflexivity | apply set_add_in].
Qed.

(** X23.  Two stores of one namespace over one backend are one store to
    their users: what one sets the other gets, until its deadline, and what
    the other removes is gone for the first. *)
Theorem same_namespace_stores_share_entries (a b : Store) (t0 : Z)
  (k : string) (v : value) (o : option SetOptions) :
  lawful (storage a) ->
  namespace b = namespace a ->
  deserializer b = deserializer a ->
  codec_roundtrip a (make_payload v (effective_ttl a o) t0) ->
  exists a1,
    set a t0 k v o = (a1, Ok tt)
    /\ (forall t,
          snd (get le (with_backend_of b a1) t k)
          = Ok (if deadline_passed (effective_ttl a o) t0 t
                then VNull else v))
    /\ exists b1,
        remove (with_backend_of b a1) k = (b1, Ok tt)
        /\ forall t, snd (get le (with_backend_of a1 b1) t k) = Ok VNull.
Proof.
  intros L Nb Db (raw & S & N & D).
  destruct (set_written a t0 k v o raw L S) as (s & E & Ls & G & _).
  eexists. split; [exact E|].
  match goal with
  | |- context [with_backend_of b ?x] => set (a1 := x)
  end.
  set (b0 := with_backend_of b a1).
  assert (Gb : storage_getItem (storage b0) (makeKey (namespace b0) k)
               = Ok (Some raw)).
  { change (storage b0) with s. change (namespace b0) with (namespace b).
    now rewrite Nb. }
  assert (Dd : deserializer b0 raw
               = Ok (make_payload v (effective_ttl a o) t0)).
  { change (deserializer b0) with (deserializer b). now rewrite Db. }
  split.
  - intros t.
    rewrite (get_parsed le b0 t k raw _ Gb N Dd (make_payload_truthy _ _ _)).
    rewrite isExpired_make_payload.
    destruct (deadline_passed (effective_ttl a o) t0 t).
    + destruct (lawful_removeItem (storage b0) (makeKey (namespace b0) k) Ls)
        as (s' & -> & _). reflexivity.
    + cbn [snd]. now rewrite make_payload_value.
  - unfold remove.
    destruct (lawful_removeItem (storage b0) (makeKey (namespace b0) k) Ls)
      as (s' & -> & _ & G' & _).
    eexists. split; [reflexivity|]. intros t.
    rewrite get_absent; [reflexivity|].
    change (storage_getItem s' (makeKey (namespace a) k) = Ok None).
    change (namespace b0) with (namespace b) in G'. now rewrite Nb in G'.
Qed.

(** X24.  What a store has read, its [clear] removes, on either path: a
    [get(k)] that returned a value tracks the key, so that a [clear] that
    follows deletes the entry even over a backend without [key]. *)
Theorem clear_removes_entries_read (st st1 : Store) (now : Z) (k : string)
  (v : value) :
  lawful (storage st) ->
  get le st now k = (st1, Ok v) ->
  v <> VNull ->
  exists st2,
    clear st1 = (st2, Ok tt)
    /\ storage_getItem (storage st2) (makeKey (namespace st) k) = Ok None.
Proof.
  intros L E Nv.
  destruct (get_value_tracks st st1 now k v E Nv) as (S1 & N1 & I).
  assert (L1 : lawful (storage st1)) by now rewrite S1.
  destruct (storage_key (storage st1)) as [f|] eqn:K.
  - assert (K' : storage_key (storage st1) <> None) by congruence.
    destruct (clear_enumerated st1 L1 K') as (st2 & E2 & _ & _ & _ & _ & _ & G).
    exists st2. split; [exact E2|]. apply G. rewrite N1. apply prefix_makeKey.
  - destruct (clear_tracked st1 L1 K) as (st2 & E2 & _ & _ & _ & _ & _ & G).
    exists st2. split; [exact E2|]. now apply G.
Qed.

End FurtherSharing.

(** ** The further properties at concrete inputs *)

(** A store that holds one entry it has written. *)
Lemma remove_then_get_witness :
  let st := fst (set (memory_store "app" []) 0 "k" (VNum 1) None) in
  let sk := makeKey (namespace st) "k" in
  lawful (storage st)
  /\ exists st1,
      remove st "k" = (st1, Ok tt)
      /\ storage_getItem (storage st1) sk = Ok None
      /\ (forall key, key <> sk ->
            storage_getItem (storage st1) key
            = storage_getItem (storage st) key)
      /\ ~ In sk (trackedKeys st1)
      /\ forall now, get decimal_le st1 now "k" = (st1, Ok VNull).
Proof.
  cbv zeta. split; [exact MemoryStorage_lawful|].
  apply (remove_then_get decimal_le
           (fst (set (memory_store "app" []) 0 "k" (VNum 1) None)) "k").
  exact MemoryStorage_lawful.
Defined.

(** [remove] on an empty store. *)
Lemma remove_absent_is_noop_witness :
  let st := memory_store "app" [] in
  let sk := makeKey (namespace st) "k" in
  lawful (storage st)
  /\ (storage_getItem (storage st) sk = Ok None ->
      exists st1, remove st "k" = (st1, Ok tt)
        /\ forall key, storage_getItem (storage st1) key
                       = storage_getItem (storage st) key)
  /\ (exists st1 st2,
         remove st "k" = (st1, Ok tt) /\ remove st1 "k" = (st2, Ok tt)
         /\ trackedKeys st2 = trackedKeys st1
         /\ forall key, storage_getItem (storage st2) key
                        = storage_getItem (storage st1) key).
Proof.
  cbv zeta. split; [exact MemoryStorage_lawful|].
  apply (remove_absent_is_noop (memory_store "app" []) "k").
  exact MemoryStorage_lawful.
Defined.

(** A value without deadline overwritten by one of ten seconds. *)
Lemma last_write_wins_witness :
  let st := memory_store "app" [] in
  let o2 := Some {| ttl := Some (Int 10) |} in
  (lawful (storage st)
   /\ codec_roundtrip st (make_payload (VStr "new") (effective_ttl st o2) 5))
  /\ exists st2,
      set (fst (set st 0 "k" (VStr "old") None)) 5 "k" (VStr "new") o2
      = (st2, Ok tt)
      /\ forall t, exists st3,
          get decimal_le st2 t "k"
          = (st3, Ok (if deadline_passed (effective_ttl st o2) 5 t
                      then VNull else VStr "new")).
Proof.
  cbv zeta.
  assert (L : lawful (storage (memory_store "app" [])))
    by exact MemoryStorage_lawful.
  assert (C : codec_roundtrip (memory_store "app" [])
                (make_payload (VStr "new")
                   (effective_ttl (memory_store "app" [])
                      (Some {| ttl := Some (Int 10) |})) 5))
    by (apply JSON_codec_roundtrip; reflexivity).
  split; [split; [exact L | exact C]|].
  exact (last_write_wins decimal_le (memory_store "app" []) 0 5 "k"
           (VStr "old") (VStr "new") None (Some {| ttl := Some (Int 10) |}) L C).
Defined.

(** A write, a read and a removal on another key. *)
Lemma calls_on_other_keys_do_not_interfere_witness :
  let st := memory_store "app" [] in
  let calls := [CallSet 1 "other" (VNum 2) None; CallGet 2 "other";
                CallRemove "other"] in
  (lawful (storage st)
   /\ codec_roundtrip st (make_payload (VNum 1) (effective_ttl st None) 0)
   /\ forallb (fun c => negb (call_targets c "k")) calls = true)
  /\ forall t,
      snd (get decimal_le
             (fold_left (run decimal_le) calls
                (fst (set st 0 "k" (VNum 1) None))) t "k")
      = Ok (if deadline_passed (effective_ttl st None) 0 t
            then VNull else VNum 1).
Proof.
  cbv zeta.
  assert (L : lawful (storage (memory_store "app" [])))
    by exact MemoryStorage_lawful.
  assert (C : codec_roundtrip (memory_store "app" [])
                (make_payload (VNum 1)
                   (effective_ttl (memory_store "app" []) None) 0))
    by (apply JSON_codec_roundtrip; reflexivity).
  split; [split; [exact L | split; [exact C | reflexivity]]|].
  exact (calls_on_other_keys_do_not_interfere decimal_le
           (memory_store "app" []) 0 "k" (VNum 1) None
           [CallSet 1 "other" (VNum 2) None; CallGet 2 "other";
            CallRemove "other"] L C eq_refl).
Defined.

Lemma makeKey_injective_witness :
  (colon_free "app" = true /\ colon_free "app" = true
   /\ makeKey "app" "k" = makeKey "app" "k")
  /\ "app" = "app" /\ "k" = "k".
Proof.
  split; [repeat split|].
  exact (makeKey_injective "app" "app" "k" "k" eq_refl eq_refl eq_refl).
Defined.

Lemma normalizeNamespace_trailing_separators_witness :
  ("app" <> EmptyString /\ all_colons "::" = true)
  /\ normalizeNamespace (Some ("app" ++ "::")) = normalizeNamespace (Some "app")
  /\ forall o t, normalizeNamespace o <> t ++ ":".
Proof.
  assert (N : "app" <> EmptyString) by discriminate.
  split; [split; [exact N | reflexivity]|].
  exact (normalizeNamespace_trailing_separators "app" "::" N eq_refl).
Defined.

(** A table that holds an entry at the probe key, and one beside it. *)
Lemma probe_on_lawful_backend_witness :
  let s := memory_storage [(TEST_KEY, "mine"); ("app:k", "1")] in
  let options := default_options "app" s in
  (opt_storage options = Some s /\ lawful s)
  /\ exists s',
      isStorageUsable s = (s', true)
      /\ storage (fst (createStore None options)) = s'
      /\ snd (createStore None options) = []
      /\ lawful s'
      /\ storage_getItem s' TEST_KEY = Ok None
      /\ forall key, key <> TEST_KEY ->
                     storage_getItem s' key = storage_getItem s key.
Proof.
  cbv zeta. split; [split; [reflexivity | exact MemoryStorage_lawful]|].
  exact (probe_on_lawful_backend None
           (default_options "app"
              (memory_storage [(TEST_KEY, "mine"); ("app:k", "1")]))
           (memory_storage [(TEST_KEY, "mine"); ("app:k", "1")])
           eq_refl MemoryStorage_lawful).
Defined.

Lemma MemoryStorage_length_witness :
  let store := [("a", "1")] in
  keys_unique store
  /\ keys_unique (this createMemoryStorage)
  /\ keys_unique (fst (m_setItem MemoryStorage_methods store "b" "2"))
  /\ keys_unique (fst (m_removeItem MemoryStorage_methods store "b"))
  /\ keys_unique (fst (m_clear MemoryStorage_methods store))
  /\ storage_length (fst (storage_setItem (memory_storage store) "b" "2"))
     = (if has_key "b" store then storage_length (memory_storage store)
        else S (storage_length (memory_storage store)))
  /\ storage_length (fst (storage_removeItem (memory_storage store) "b"))
     = (if has_key "b" store
        then Nat.pred (storage_length (memory_storage store))
        else storage_length (memory_storage store))
  /\ m_length MemoryStorage_methods (fst (m_clear MemoryStorage_methods store))
     = 0%nat.
Proof.
  cbv zeta.
  assert (U : keys_unique [("a", "1")]).
  { unfold keys_unique. simpl. repeat constructor. intros []. }
  split; [exact U|].
  exact (MemoryStorage_length [("a", "1")] "b" "2" U).
Defined.

Lemma MemoryStorage_key_enumerates_witness :
  let store := [("a", "1"); ("b", "2")] in
  let s := memory_storage store in
  keys_unique store
  /\ exists key,
      storage_key s = Some key
      /\ (forall i, key i = Ok None <-> (storage_length s <= i)%nat)
      /\ (forall i k, key i = Ok (Some k) -> storage_getItem s k <> Ok None)
      /\ (forall k, storage_getItem s k <> Ok None ->
            exists i, key i = Ok (Some k)
                      /\ forall j, key j = Ok (Some k) -> j = i).
Proof.
  cbv zeta.
  assert (U : keys_unique [("a", "1"); ("b", "2")]).
  { unfold keys_unique. simpl. repeat constructor.
    - intros [H|[]]. discriminate H.
    - intros []. }
  split; [exact U|].
  exact (MemoryStorage_key_enumerates [("a", "1"); ("b", "2")] U).
Defined.

(** A backend that enumerates its keys and holds an entry of the
    namespace that the store never wrote. *)
Lemma clear_by_enumeration_witness :
  let st := memory_store "app" [("app:theirs", "1"); ("other", "2")] in
  (lawful (storage st) /\ storage_key (storage st) <> None)
  /\ exists st',
      clear st = (st', Ok tt)
      /\ trackedKeys st' = trackedKeys st
      /\ (forall key,
             String.prefix (namespace st ++ ":") key = true ->
             storage_getItem (storage st') key = Ok None)
      /\ (forall key,
             String.prefix (namespace st ++ ":") key = false ->
             storage_getItem (storage st') key
             = storage_getItem (storage st) key)
      /\ forall now k, snd (get decimal_le st' now k) = Ok VNull.
Proof.
  cbv zeta.
  assert (K : storage_key
                (storage (memory_store "app"
                            [("app:theirs", "1"); ("other", "2")])) <> None)
    by discriminate.
  split; [split; [exact MemoryStorage_lawful | exact K]|].
  exact (clear_by_enumeration decimal_le
           (memory_store "app" [("app:theirs", "1"); ("other", "2")])
           MemoryStorage_lawful K).
Defined.

(** The same table behind a backend without [key]. *)
Lemma clear_by_tracked_keys_witness :
  let st := keyless_store "app" [("app:theirs", "1"); ("other", "2")] in
  (lawful (storage st) /\ storage_key (storage st) = None)
  /\ exists st',
      clear st = (st', Ok tt)
      /\ trackedKeys st' = []
      /\ (forall key,
             In key (trackedKeys st) ->
             storage_getItem (storage st') key = Ok None)
      /\ (forall key,
             ~ In key (trackedKeys st) ->
             storage_getItem (storage st') key
             = storage_getItem (storage st) key).
Proof.
  cbv zeta. split; [split; [exact KeylessStorage_lawful | reflexivity]|].
  exact (clear_by_tracked_keys
           (keyless_store "app" [("app:theirs", "1"); ("other", "2")])
           KeylessStorage_lawful eq_refl).
Defined.

Lemma clear_idempotent_witness :
  let st := memory_store "app" [("app:k", "1")] in
  lawful (storage st)
  /\ exists st1 st2,
      clear st = (st1, Ok tt) /\ clear st1 = (st2, Ok tt)
      /\ trackedKeys st2 = trackedKeys st1
      /\ forall key,
          storage_getItem (storage st2) key
          = storage_getItem (storage st1) key.
Proof.
  cbv zeta. split; [exact MemoryStorage_lawful|].
  exact (clear_idempotent (memory_store "app" [("app:k", "1")])
           MemoryStorage_lawful).
Defined.

(** A [set] and a [clear] over a backend without [key]. *)
Lemma clear_removes_own_writes_witness :
  let st := keyless_store "app" [] in
  let st1 := fst (set st 0 "k" (VNum 1) None) in
  (lawful (storage st) /\ set st 0 "k" (VNum 1) None = (st1, Ok tt))
  /\ exists st2,
      clear st1 = (st2, Ok tt)
      /\ storage_getItem (storage st2) (makeKey (namespace st) "k") = Ok None
      /\ forall now, snd (get decimal_le st2 now "k") = Ok VNull.
Proof.
  cbv zeta.
  assert (E : set (keyless_store "app" []) 0 "k" (VNum 1) None
              = (fst (set (keyless_store "app" []) 0 "k" (VNum 1) None),
                 Ok tt)) by reflexivity.
  split; [split; [exact KeylessStorage_lawful | exact E]|].
  exact (clear_removes_own_writes decimal_le (keyless_store "app" []) _ 0 "k"
           (VNum 1) None KeylessStorage_lawful E).
Defined.

(** Calls of every kind on a store, beside an entry of nobody's
    namespace. *)
Lemma calls_confined_to_namespace_witness :
  let st := memory_store "app" [("other", "2")] in
  let calls := [CallSet 0 "k" (VNum 1) None; CallGet 1 "k"; CallRemove "k";
                CallClear] in
  (lawful (storage st) /\ tracked_wf st)
  /\ lawful (storage (fold_left (run decimal_le) calls st))
  /\ same_config st (fold_left (run decimal_le) calls st)
  /\ forall key,
      String.prefix (namespace st ++ ":") key = false ->
      storage_getItem (storage (fold_left (run decimal_le) calls st)) key
      = storage_getItem (storage st) key.
Proof.
  cbv zeta.
  assert (W : tracked_wf (memory_store "app" [("other", "2")]))
    by constructor.
  split; [split; [exact MemoryStorage_lawful | exact W]|].
  exact (calls_confined_to_namespace decimal_le
           (memory_store "app" [("other", "2")])
           [CallSet 0 "k" (VNum 1) None; CallGet 1 "k"; CallRemove "k";
            CallClear] MemoryStorage_lawful W).
Defined.

(** A [get] that finds its entry expired. *)
Lemma get_writes_only_on_expiry_witness :
  let st := fst (set (memory_store "app" []) 0 "k" (VNum 1)
                   (Some {| ttl := Some (Int 1) |})) in
  let sk := makeKey (namespace st) "k" in
  let st' := fst (get decimal_le st 1000 "k") in
  get decimal_le st 1000 "k" = (st', Ok VNull)
  /\ (storage st' = storage st
      \/ exists raw,
          storage_getItem (storage st) sk = Ok (Some raw)
          /\ isExpired decimal_le (decode (Some raw) (deserializer st)) 1000
             = Ok true
          /\ storage st' = fst (storage_removeItem (storage st) sk))
  /\ (forall v, Ok VNull = Ok v -> v <> VNull ->
        storage st' = storage st /\ In sk (trackedKeys st')).
Proof.
  cbv zeta.
  assert (E : get decimal_le
                (fst (set (memory_store "app" []) 0 "k" (VNum 1)
                        (Some {| ttl := Some (Int 1) |}))) 1000 "k"
              = (fst (get decimal_le
                        (fst (set (memory_store "app" []) 0 "k" (VNum 1)
                                (Some {| ttl := Some (Int 1) |}))) 1000 "k"),
                 Ok VNull)) by reflexivity.
  split; [exact E|].
  exact (get_writes_only_on_expiry decimal_le _ _ 1000 "k" (Ok VNull) E).
Defined.

(** A backend of five characters refuses the payload. *)
Lemma failed_call_keeps_tracked_keys_witness :
  let st := quota_store "app" 5 [] in
  let c := CallSet 0 "k" (VStr "a long value") None in
  call_error decimal_le st c = Some (Error "QuotaExceededError")
  /\ trackedKeys (run decimal_le st c) = trackedKeys st
  /\ same_config st (run decimal_le st c).
Proof.
  cbv zeta.
  assert (E : call_error decimal_le (quota_store "app" 5 [])
                (CallSet 0 "k" (VStr "a long value") None)
              = Some (Error "QuotaExceededError")) by reflexivity.
  split; [exact E|].
  exact (failed_call_keeps_tracked_keys decimal_le (quota_store "app" 5 [])
           (CallSet 0 "k" (VStr "a long value") None)
           (Error "QuotaExceededError") E).
Defined.

(** [JSON.stringify] throws a TypeError on a BigInt. *)
Lemma errors_on_lawful_backend_witness :
  let st := memory_store "app" [] in
  (lawful (storage st)
   /\ call_error decimal_le st (CallSet 0 "k" (VBigInt 1) None)
      = Some TypeError)
  /\ serializer st (make_payload (VBigInt 1) (effective_ttl st None) 0)
     = Throw TypeError.
Proof.
  cbv zeta.
  assert (E : call_error decimal_le (memory_store "app" [])
                (CallSet 0 "k" (VBigInt 1) None) = Some TypeError)
    by reflexivity.
  split; [split; [exact MemoryStorage_lawful | exact E]|].
  exact (errors_on_lawful_backend decimal_le (memory_store "app" [])
           (CallSet 0 "k" (VBigInt 1) None) TypeError
           MemoryStorage_lawful E).
Defined.

(** An entry of one second, read a second later. *)
Lemma expired_entry_is_deleted_for_good_witness :
  let st := fst (set (memory_store "app" []) 0 "k" (VNum 1)
                   (Some {| ttl := Some (Int 1) |})) in
  let sk := makeKey (namespace st) "k" in
  let raw := Some (JSON.print (make_payload (VNum 1) (Some (Int 1)) 0)) in
  (lawful (storage st)
   /\ storage_getItem (storage st) sk = Ok raw
   /\ isExpired decimal_le (decode raw (deserializer st)) 1000 = Ok true)
  /\ exists st1,
      get decimal_le st 1000 "k" = (st1, Ok VNull)
      /\ storage_getItem (storage st1) sk = Ok None
      /\ ~ In sk (trackedKeys st1)
      /\ forall t, get decimal_le st1 t "k" = (st1, Ok VNull).
Proof.
  cbv zeta.
  split; [split; [exact MemoryStorage_lawful | split; reflexivity]|].
  exact (expired_entry_is_deleted_for_good decimal_le
           (fst (set (memory_store "app" []) 0 "k" (VNum 1)
                   (Some {| ttl := Some (Int 1) |}))) 1000 "k"
           (Some (JSON.print (make_payload (VNum 1) (Some (Int 1)) 0)))
           MemoryStorage_lawful eq_refl eq_refl).
Defined.

Lemma isExpired_monotone_witness :
  let p := VObj [("value", VNum 1); ("expiresAt", VNum 5)] in
  (StoredPayload_shape p = true /\ isExpired decimal_le p 5 = Ok true
   /\ 5 <= 9)
  /\ isExpired decimal_le p 9 = Ok true.
Proof.
  cbv zeta.
  assert (Le : 5 <= 9) by lia.
  split; [split; [reflexivity | split; [reflexivity | exact Le]]|].
  exact (isExpired_monotone decimal_le
           (VObj [("value", VNum 1); ("expiresAt", VNum 5)]) 5 9
           eq_refl eq_refl Le).
Defined.

Lemma encode_decode_roundtrip_witness :
  JSON.serializable (make_payload sample_user (Some (Int 10)) 0) = true
  /\ exists raw,
      encode sample_user (Some (Int 10)) JSON.stringify 0 = Ok raw
      /\ decode (Some raw) JSON.parse
         = make_payload sample_user (Some (Int 10)) 0
      /\ StoredPayload_shape (decode (Some raw) JSON.parse) = true
      /\ get_prop (decode (Some raw) JSON.parse) "value" = sample_user
      /\ forall t,
          isExpired decimal_le (decode (Some raw) JSON.parse) t
          = Ok (deadline_passed (Some (Int 10)) 0 t).
Proof.
  split; [reflexivity|].
  exact (encode_decode_roundtrip decimal_le sample_user (Some (Int 10)) 0
           eq_refl).
Defined.

(** Two stores of the namespace [app] over one table. *)
Lemma same_namespace_stores_share_entries_witness :
  let a := memory_store "app" [] in
  let b := memory_store "app:" [] in
  (lawful (storage a) /\ namespace b = namespace a
   /\ deserializer b = deserializer a
   /\ codec_roundtrip a (make_payload (VNum 1) (effective_ttl a None) 0))
  /\ exists a1,
      set a 0 "k" (VNum 1) None = (a1, Ok tt)
      /\ (forall t,
            snd (get decimal_le (with_backend_of b a1) t "k")
            = Ok (if deadline_passed (effective_ttl a None) 0 t
                  then VNull else VNum 1))
      /\ exists b1,
          remove (with_backend_of b a1) "k" = (b1, Ok tt)
          /\ forall t,
              snd (get decimal_le (with_backend_of a1 b1) t "k") = Ok VNull.
Proof.
  cbv zeta.
  assert (C : codec_roundtrip (memory_store "app" [])
                (make_payload (VNum 1)
                   (effective_ttl (memory_store "app" []) None) 0))
    by (apply JSON_codec_roundtrip; reflexivity).
  split;
    [split; [exact MemoryStorage_lawful
            | split; [reflexivity | split; [reflexivity | exact C]]]|].
  exact (same_namespace_stores_share_entries decimal_le
           (memory_store "app" []) (memory_store "app:" []) 0 "k" (VNum 1)
           None MemoryStorage_lawful eq_refl eq_refl C).
Defined.

(** An entry written by someone else, read and then cleared over a backend
    without [key]. *)
Lemma clear_removes_entries_read_witness :
  let st := with_storage (keyless_store "app" [])
              (keyless_storage
                 [("app:k", JSON.print (make_payload (VNum 1) None 0))]) in
  let st1 := fst (get decimal_le st 0 "k") in
  (lawful (storage st) /\ get decimal_le st 0 "k" = (st1, Ok (VNum 1))
   /\ VNum 1 <> VNull)
  /\ exists st2,
      clear st1 = (st2, Ok tt)
      /\ storage_getItem (storage st2) (makeKey (namespace st) "k") = Ok None.
Proof.
  cbv zeta.
  assert (N : VNum 1 <> VNull) by discriminate.
  split; [split; [exact KeylessStorage_lawful | split; [reflexivity | exact N]]|].
  exact (clear_removes_entries_read decimal_le
           (with_storage (keyless_store "app" [])
              (keyless_storage
                 [("app:k", JSON.print (make_payload (VNum 1) None 0))]))
           _ 0 "k" (VNum 1) KeylessStorage_lawful eq_refl N).
Defined.
